(** * subtree: an adaptive radix tree for dot-delimited subjects

    A shallow embedding of the filter parser and fragment matcher
    ([parts.go]) and of the internal node variants ([node4], [node10],
    [node16], [node48], [node256]), with the properties their
    specification states about them, and a logical model of the
    container for the rejection of subjects that hold the no-pivot byte.

    Conventions of the embedding:
    - a Go [byte] is a [Z] in [0, 256); a [uint16] is a [Z] in [0, 65536);
      conversions and increments write their wrap-around out;
    - a [[]byte] is a [list Z];
    - a fixed-size Go array is a list of that length; an index outside the
      array panics ([Panicked]);
    - a Go value of interface type [node] is an [option]: [None] is [nil]. *)

From Stdlib Require Import ZArith Lia Bool.
From stdpp Require Import base list strings gmap.

Local Open Scope Z_scope.

(** ** Bytes and byte strings *)

Abbreviation bytes := (list Z).

(** The reserved bytes.  They are declared with the container; the
    comments of [parts.go] give [pwc '*'] and [fwc '>'], the tests split
    subjects at ['.'] and name the no-pivot byte DEL. *)
Definition tsep : Z := 46.     (* '.' *)
Definition pwc : Z := 42.      (* '*' *)
Definition fwc : Z := 62.      (* '>' *)
Definition noPivot : Z := 127. (* DEL *)

(** [b s] is the test helper of the same name: the bytes of a string. *)
Definition b (s : string) : bytes :=
  map (fun a => Z.of_N (Ascii.N_of_ascii a)) (String.list_ascii_of_string s).

Definition len {A} (s : list A) : Z := Z.of_nat (length s).

(** [s[i]] for a byte string.  Every read of the source is guarded by a
    bounds test, so the value chosen outside the string is never used. *)
Definition byte_at (s : bytes) (i : Z) : Z :=
  if i <? 0 then 0 else default 0 (s !! Z.to_nat i).

(** [s[lo:hi]]. *)
Definition sub {A} (s : list A) (lo hi : Z) : list A :=
  take (Z.to_nat (hi - lo)) (drop (Z.to_nat lo) s).

(** ** Filter parsing: [genParts] *)

(** A part is a sub-slice [filter[lo:hi]] of the filter; the slice header
    keeps the offsets, its contents are [sub filter lo hi]. *)
Record span := Span { lo : Z; hi : Z }.

Definition span_bytes (filter : bytes) (p : span) : bytes :=
  sub filter (lo p) (hi p).

Section GenParts.
Variable filter : bytes.

Let e := len filter - 1.

(** The test of line 20: the separator at [i] is followed by a [pwc] that
    is itself followed by a separator or ends the filter. *)
Definition tsep_pwc (i : Z) : bool :=
  (i <? e) && (byte_at filter (i + 1) =? pwc) &&
  ((i + 2 <=? e) && (byte_at filter (i + 2) =? tsep) || (i + 1 =? e)).

(** The test of line 30: the separator at [i] is followed by a final [fwc]. *)
Definition tsep_fwc (i : Z) : bool :=
  (i <? e) && (byte_at filter (i + 1) =? fwc) && (i + 1 =? e).

(** Lines 41 and 45: the two [continue] tests of the wildcard branch. *)
Definition prev_not_tsep (i : Z) : bool :=
  (0 <=? i - 1) && negb (byte_at filter (i - 1) =? tsep).

Definition next_not_tsep (i : Z) : bool :=
  (i + 1 =? e) || (i + 1 <? e) && negb (byte_at filter (i + 1) =? tsep).

(** The [for] loop of [genParts]: the state is the index [i], [start] and
    the parts appended so far.  Every iteration advances [i], so
    [length filter] iterations are enough (see [genParts_loop_fuel]). *)
Fixpoint genParts_loop (fuel : nat) (i start : Z) (parts : list span)
  : Z * list span :=
  match fuel with
  | O => (start, parts)
  | S fuel' =>
    if i <? len filter then
      if byte_at filter i =? tsep then
        if tsep_pwc i then
          let parts := if start <? i then parts ++ [Span start (i + 1)] else parts in
          let parts := parts ++ [Span (i + 1) (i + 2)] in
          let i := i + 1 in
          let i := if i + 2 <=? e then i + 1 else i in
          genParts_loop fuel' (i + 1) (i + 1) parts
        else if tsep_fwc i then
          let parts := if start <? i then parts ++ [Span start (i + 1)] else parts in
          let parts := parts ++ [Span (i + 1) (i + 2)] in
          let i := i + 1 in
          genParts_loop fuel' (i + 1) (i + 1) parts
        else genParts_loop fuel' (i + 1) start parts
      else if (byte_at filter i =? pwc) || (byte_at filter i =? fwc) then
        if prev_not_tsep i then genParts_loop fuel' (i + 1) start parts
        else if next_not_tsep i then genParts_loop fuel' (i + 1) start parts
        else
          let parts := parts ++ [Span i (i + 1)] in
          let i := if i + 1 <=? e then i + 1 else i in
          genParts_loop fuel' (i + 1) (i + 1) parts
      else genParts_loop fuel' (i + 1) start parts
    else (start, parts)
  end.

(** [genParts] on slice headers: the loop, then the trailing literal. *)
Definition genSpans (parts : list span) : list span :=
  let '(start, parts) := genParts_loop (length filter) 0 0 parts in
  if start <? len filter then
    let start := if byte_at filter start =? tsep then start + 1 else start in
    parts ++ [Span start (len filter)]
  else parts.
End GenParts.

(** [genParts filter parts]: the parts already in [parts], followed by the
    contents of the slices the parser appends. *)
Definition genParts (filter : bytes) (parts : list bytes) : list bytes :=
  parts ++ map (span_bytes filter) (genSpans filter []).

(** *** The entire-token rule

    A wildcard byte stands for a wildcard when it is a whole token: at
    position 0 or after a separator, and at the end or before a separator. *)
Definition is_wildcard (c : Z) : Prop := c = pwc \/ c = fwc.

Definition entire_token (filter : bytes) (j : Z) : Prop :=
  (j = 0 \/ byte_at filter (j - 1) = tsep) /\
  (j = len filter - 1 \/ byte_at filter (j + 1) = tsep).

Definition wildcard_token (filter : bytes) (j : Z) : Prop :=
  0 <= j < len filter /\ is_wildcard (byte_at filter j) /\ entire_token filter j.

(** The byte at [j] is emitted as a part of its own. *)
Definition recognized (filter : bytes) (j : Z) : Prop :=
  Span j (j + 1) ∈ genSpans filter [].

(** What the loop knows about [start]. *)
Definition start_ok (filter : bytes) (start : Z) : Prop :=
  0 <= start /\
  (start = 0 \/ byte_at filter (start - 1) = tsep \/ len filter <= start \/
   (start = len filter - 1 /\ byte_at filter start = tsep)).

(** A part appended by the loop is a literal of at least two bytes or a
    wildcard token. *)
Definition span_ok (filter : bytes) (p : span) : Prop :=
  lo p + 2 <= hi p \/ (hi p = lo p + 1 /\ wildcard_token filter (lo p)).

(** ** Fragment matching: [matchParts] *)

(** [bytes.IndexByte(s, c)]: the index of the first [c] in [s], or [-1]. *)
Fixpoint IndexByte (s : bytes) (c : Z) : Z :=
  match s with
  | [] => -1
  | x :: s' =>
    if x =? c then 0
    else let k := IndexByte s' c in if k <? 0 then -1 else k + 1
  end.

(** The [return] statements of [matchParts], before the slice they return
    is read: the value semantics ([denote]) and the semantics with backing
    arrays ([denoteH]) are given separately. *)
Inductive mret :=
  | RetWhole            (* return parts, true *)
  | RetFail             (* return parts, false *)
  | RetNil              (* return nil, true *)
  | RetFrom (i : Z)     (* return parts[i:], true *)
  | RetCopy (i k : Z).  (* parts = append([][]byte{}, parts...);
                           parts[i] = parts[i][k:]; return parts[i:], true *)

Section MatchParts.
Variable frag : bytes.
Variable lpi : Z.

Let lf := len frag.

(** The [range] loop at index [i], [rest] being [parts[i:]] and [si] the
    scan position in [frag]. *)
Fixpoint matchParts_loop (i : Z) (rest : list bytes) (si : Z) : mret :=
  match rest with
  | [] => RetFail
  | part :: rest' =>
    if lf <=? si then RetFrom i
    else
      let lp := len part in
      if (lp =? 1) && (byte_at part 0 =? pwc) then
        let index := IndexByte (sub frag si lf) tsep in
        if index <? 0 then
          if i =? lpi then RetNil else RetFrom i
        else matchParts_loop (i + 1) rest' (si + (index + 1))
      else if (lp =? 1) && (byte_at part 0 =? fwc) then RetNil
      else
        let end_ := Z.min (si + lp) lf in
        let part := if end_ <? si + lp then sub part 0 (end_ - si) else part in
        if negb (bool_decide (part = sub frag si end_)) then RetFail
        else if end_ <? lf then matchParts_loop (i + 1) rest' end_
        else if end_ <? si + lp then
          if lf <=? end_ then RetCopy i (lf - si) else RetFrom (i + 1)
        else if i =? lpi then RetNil
        else matchParts_loop (i + 1) rest' (si + len part)
  end.
End MatchParts.

(** Which [return] a call of [matchParts] takes. *)
Definition matchParts_run (parts : list bytes) (frag : bytes) : mret :=
  if len frag =? 0 then RetWhole
  else matchParts_loop frag (len parts - 1) 0 parts 0.

(** The returned values, slices read as the lists they contain. *)
Definition denote (parts : list bytes) (r : mret) : list bytes * bool :=
  match r with
  | RetWhole => (parts, true)
  | RetFail => (parts, false)
  | RetNil => ([], true)
  | RetFrom i => (drop (Z.to_nat i) parts, true)
  | RetCopy i k =>
    let parts' := alter (fun p => sub p k (len p)) (Z.to_nat i) parts in
    (drop (Z.to_nat i) parts', true)
  end.

Definition matchParts (parts : list bytes) (frag : bytes) : list bytes * bool :=
  denote parts (matchParts_run parts frag).

(** The remainder of a call once the loop is at index [i] with scan
    position [si]. *)
Definition matchParts_at (parts : list bytes) (frag : bytes) (i si : Z)
  : list bytes * bool :=
  denote parts
    (matchParts_loop frag (len parts - 1) i (drop (Z.to_nat i) parts) si).

(** *** [matchParts] on slices that share backing arrays *)

(** A [[][]byte] value: [nil], or [len] elements from offset [off] of the
    backing array at address [arr]. *)
Inductive pslice :=
  | NilSlice
  | Slice (arr : nat) (off : Z) (slen : Z).

(** The backing arrays of the part slices. *)
Abbreviation store := (gmap nat (list bytes)).

Definition read_slice (h : store) (s : pslice) : list bytes :=
  match s with
  | NilSlice => []
  | Slice a off n => sub (default [] (h !! a)) off (off + n)
  end.

(** [s[i:]]. *)
Definition slice_from (s : pslice) (i : Z) : pslice :=
  match s with
  | NilSlice => NilSlice
  | Slice a off n => Slice a (off + i) (n - i)
  end.

(** An address no array of the store has. *)
Definition fresh_arr (h : store) : nat := fresh (dom h).

(** The values returned by [matchParts], with the store after the call. *)
Definition denoteH (h : store) (parts : pslice) (r : mret)
  : store * pslice * bool :=
  match r with
  | RetWhole => (h, parts, true)
  | RetFail => (h, parts, false)
  | RetNil => (h, NilSlice, true)
  | RetFrom i => (h, slice_from parts i, true)
  | RetCopy i k =>
    let a := fresh_arr h in
    let copy := read_slice h parts in
    let copy := alter (fun p => sub p k (len p)) (Z.to_nat i) copy in
    (<[a := copy]> h, slice_from (Slice a 0 (len copy)) i, true)
  end.

Definition matchPartsH (h : store) (parts : pslice) (frag : bytes)
  : store * pslice * bool :=
  denoteH h parts (matchParts_run (read_slice h parts) frag).

Definition matchPartsH_at (h : store) (parts : pslice) (frag : bytes) (i si : Z)
  : store * pslice * bool :=
  let ps := read_slice h parts in
  denoteH h parts
    (matchParts_loop frag (len ps - 1) i (drop (Z.to_nat i) ps) si).

(** ** Panics *)

(** A Go function either returns or panics. *)
Inductive outcome (A : Type) :=
  | Ret (a : A)
  | Panicked.
Arguments Ret {A} a.
Arguments Panicked {A}.

#[global] Instance outcome_ret : MRet outcome := fun A a => Ret a.
#[global] Instance outcome_bind : MBind outcome := fun A B k m =>
  match m with
  | Ret a => k a
  | Panicked => Panicked
  end.

#[global] Instance outcome_fmap : FMap outcome := fun A B f m =>
  match m with
  | Ret a => Ret (f a)
  | Panicked => Panicked
  end.

(** [a[i]] and [a[i] = x] on a fixed-size array: out of range panics. *)
Definition idx {A} (a : list A) (i : Z) : outcome A :=
  if (0 <=? i) && (i <? len a) then
    match a !! Z.to_nat i with
    | Some x => Ret x
    | None => Panicked
    end
  else Panicked.

Definition upd {A} (a : list A) (i : Z) (x : A) : outcome (list A) :=
  if (0 <=? i) && (i <? len a) then Ret (<[Z.to_nat i := x]> a) else Panicked.

(** The integer types of the node fields. *)
Definition u8 (z : Z) : Z := z mod 256.
Definition u16 (z : Z) : Z := z mod 65536.

(** A [for] loop over [i, i+1, ...], [n] iterations, in the panic monad;
    the body returns [inr] to leave the loop early. *)
Fixpoint for_range {St R} (n : nat) (i : Z)
    (body : Z -> St -> outcome (St + R)) (s : St) : outcome (St + R) :=
  match n with
  | O => Ret (inl s)
  | S n' =>
    r ← body i s;
    match r with
    | inl s' => for_range n' (i + 1) body s'
    | inr x => Ret (inr x)
    end
  end.

(** The same without early exit. *)
Fixpoint for_count {St} (n : nat) (i : Z)
    (body : Z -> St -> outcome St) (s : St) : outcome St :=
  match n with
  | O => Ret s
  | S n' => s' ← body i s; for_count n' (i + 1) body s'
  end.

(** ** Node variants *)

(** *** [node4], [node10], [node16]

    The three small variants have the same fields and, up to the capacity,
    the same methods: parallel arrays [key] and [child] of [cap] entries,
    the first [size] of which are in use.  [N] is the type of nodes. *)
Record snode (N : Type) := SNode {
  s_child : list (option N);
  s_prefix : bytes;
  s_size : Z;
  s_key : list Z
}.
Arguments SNode {N}.
Arguments s_child {N}.
Arguments s_prefix {N}.
Arguments s_size {N}.
Arguments s_key {N}.

(** [node48]: a dense [child] array of 48 entries and a 256-entry dispatch
    table [key], 1-indexed, 0 meaning no entry. *)
Record node48 (N : Type) := Node48_ {
  child48 : list (option N);
  prefix48 : bytes;
  size48 : Z;
  key48 : list Z
}.
Arguments Node48_ {N}.
Arguments child48 {N}.
Arguments prefix48 {N}.
Arguments size48 {N}.
Arguments key48 {N}.

(** [node256]: the child array is indexed by the byte. *)
Record node256 (N : Type) := Node256_ {
  child256 : list (option N);
  prefix256 : bytes;
  size256 : Z
}.
Arguments Node256_ {N}.
Arguments child256 {N}.
Arguments prefix256 {N}.
Arguments size256 {N}.

Section NodeOps.
Context {N : Type}.

(** **** Small variants, capacity [cap] *)

(** [newNode4(prefix)], [newNode10(prefix)], [newNode16(prefix)]:
    a zeroed struct, then [setPrefix]. *)
Definition newS (cap : Z) (prefix : bytes) : snode N :=
  SNode (replicate (Z.to_nat cap) None) prefix 0 (replicate (Z.to_nat cap) 0).

Definition addChildS (cap : Z) (n : snode N) (c : Z) (nn : option N)
  : outcome (snode N) :=
  if cap <=? s_size n then Panicked
  else
    key ← upd (s_key n) (s_size n) c;
    child ← upd (s_child n) (s_size n) nn;
    Ret (SNode child (s_prefix n) (u16 (s_size n + 1)) key).

(** [findChild] returns a pointer to a child slot or [nil]; the result
    here is [None] for [nil] and otherwise the contents of the slot
    pointed to. *)
Definition findChildS (n : snode N) (c : Z) : outcome (option (option N)) :=
  r ← for_range (Z.to_nat (s_size n)) 0
        (fun i (_ : unit) =>
           k ← idx (s_key n) i;
           if k =? c then ch ← idx (s_child n) i; Ret (inr ch)
           else Ret (inl tt)) tt;
  Ret (match r with inl _ => None | inr ch => Some ch end).

Definition isFullS (cap : Z) (n : snode N) : bool := cap <=? s_size n.

Definition deleteChildS (n : snode N) (c : Z) : outcome (snode N) :=
  let last := u16 (s_size n - 1) in
  r ← for_range (Z.to_nat (s_size n)) 0
        (fun i (_ : unit) =>
           k ← idx (s_key n) i;
           if k =? c then
             if i <? last then
               kl ← idx (s_key n) last;
               key ← upd (s_key n) i kl;
               cl ← idx (s_child n) last;
               child ← upd (s_child n) i cl;
               key ← upd key last 0;
               child ← upd child last None;
               Ret (inr (SNode child (s_prefix n) (u16 (s_size n - 1)) key))
             else
               key ← upd (s_key n) i 0;
               child ← upd (s_child n) i None;
               Ret (inr (SNode child (s_prefix n) (u16 (s_size n - 1)) key))
           else Ret (inl tt)) tt;
  Ret (match r with inl _ => n | inr n' => n' end).

(** The copying loops of [grow] and [shrink]:
    [for i := 0; i < count; i++ { nn.addChild(n.key[i], n.child[i]) }]. *)
Definition copy_into {M} (add : M -> Z -> option N -> outcome M)
    (n : snode N) (count : Z) (nn : M) : outcome M :=
  for_count (Z.to_nat count) 0
    (fun i nn =>
       k ← idx (s_key n) i;
       ch ← idx (s_child n) i;
       add nn k ch) nn.

(** [node4.grow] ([cap = 4], [cap' = 10]) and [node10.grow]
    ([cap = 10], [cap' = 16]): all [cap] slots are copied. *)
Definition growS (cap cap' : Z) (n : snode N) : outcome (snode N) :=
  copy_into (addChildS cap') n cap (newS cap' (s_prefix n)).

(** [node10.shrink] ([thr = 4]) and [node16.shrink] ([thr = 10]):
    [None] is the [nil] result. *)
Definition shrinkS (thr : Z) (n : snode N) : outcome (option (snode N)) :=
  if thr <? s_size n then Ret None
  else
    nn ← copy_into (addChildS thr) n (s_size n) (newS thr []);
    Ret (Some nn).

(** [node4.shrink]: the sole child itself. *)
Definition shrink4 (n : snode N) : outcome (option N) :=
  if s_size n =? 1 then idx (s_child n) 0 else Ret None.

(** [iter(f)]: [f] is a callback with effects on a state [St]; it returns
    [false] to stop. *)
Definition iterS {St} (n : snode N) (f : option N -> St -> St * bool) (s : St)
  : outcome St :=
  r ← for_range (Z.to_nat (s_size n)) 0
        (fun i s =>
           ch ← idx (s_child n) i;
           let '(s', continue) := f ch s in
           Ret (if continue then inl s' else inr s')) s;
  Ret (match r with inl s' => s' | inr s' => s' end).

(** [children()]: [n.child[:n.size]]. *)
Definition childrenS (n : snode N) : outcome (list (option N)) :=
  if (0 <=? s_size n) && (s_size n <=? len (s_child n))
  then Ret (sub (s_child n) 0 (s_size n)) else Panicked.

(** **** [node48] *)

Definition newNode48 (prefix : bytes) : node48 N :=
  Node48_ (replicate 48 None) prefix 0 (replicate 256 0).

Definition addChild48 (n : node48 N) (c : Z) (nn : option N)
  : outcome (node48 N) :=
  if 48 <=? size48 n then Panicked
  else
    child ← upd (child48 n) (size48 n) nn;
    key ← upd (key48 n) c (u8 (size48 n + 1));
    Ret (Node48_ child (prefix48 n) (u16 (size48 n + 1)) key).

Definition findChild48 (n : node48 N) (c : Z) : outcome (option (option N)) :=
  i ← idx (key48 n) c;
  if i =? 0 then Ret None
  else ch ← idx (child48 n) (i - 1); Ret (Some ch).

Definition isFull48 (n : node48 N) : bool := 48 <=? size48 n.

(** The repair loop of [deleteChild]: the first table entry equal to
    [from] becomes [to]. *)
Fixpoint repair (key : list Z) (from to : Z) : list Z :=
  match key with
  | [] => []
  | k :: key' => if k =? from then to :: key' else k :: repair key' from to
  end.

Definition deleteChild48 (n : node48 N) (c : Z) : outcome (node48 N) :=
  i ← idx (key48 n) c;
  if i =? 0 then Ret n
  else
    let i := u8 (i - 1) in
    let last := u8 (u16 (size48 n - 1)) in
    '(child, key) ←
      (if i <? last then
         cl ← idx (child48 n) last;
         child ← upd (child48 n) i cl;
         Ret (child, repair (key48 n) (u8 (last + 1)) (u8 (i + 1)))
       else Ret (child48 n, key48 n));
    child ← upd child last None;
    key ← upd key c 0;
    Ret (Node48_ child (prefix48 n) (u16 (size48 n - 1)) key).

(** The loop shared by [node48.grow] and [node48.shrink]:
    [for c := 0; c < len(n.key); c++ {
       if i := n.key[byte(c)]; i > 0 { nn.addChild(byte(c), n.child[i-1]) } }]. *)
Definition copy48_into {M} (add : M -> Z -> option N -> outcome M)
    (n : node48 N) (nn : M) : outcome M :=
  for_count (length (key48 n)) 0
    (fun c nn =>
       i ← idx (key48 n) (u8 c);
       if 0 <? i then
         ch ← idx (child48 n) (i - 1);
         add nn (u8 c) ch
       else Ret nn) nn.

(** [for _, c := range n.child { if c != nil && !f(c) { return } }]. *)
Fixpoint iter_nonnil {St} (child : list (option N))
    (f : option N -> St -> St * bool) (s : St) : St :=
  match child with
  | [] => s
  | None :: child' => iter_nonnil child' f s
  | Some c :: child' =>
    let '(s', continue) := f (Some c) s in
    if continue then iter_nonnil child' f s' else s'
  end.

Definition iter48 {St} (n : node48 N) (f : option N -> St -> St * bool) (s : St)
  : outcome St :=
  Ret (iter_nonnil (child48 n) f s).

Definition children48 (n : node48 N) : outcome (list (option N)) :=
  if (0 <=? size48 n) && (size48 n <=? len (child48 n))
  then Ret (sub (child48 n) 0 (size48 n)) else Panicked.

(** **** [node256] *)

Definition newNode256 (prefix : bytes) : node256 N :=
  Node256_ (replicate 256 None) prefix 0.

Definition addChild256 (n : node256 N) (c : Z) (nn : option N)
  : outcome (node256 N) :=
  child ← upd (child256 n) c nn;
  Ret (Node256_ child (prefix256 n) (u16 (size256 n + 1))).

Definition findChild256 (n : node256 N) (c : Z) : outcome (option (option N)) :=
  ch ← idx (child256 n) c;
  Ret (match ch with Some _ => Some ch | None => None end).

Definition isFull256 (n : node256 N) : bool := false.

Definition deleteChild256 (n : node256 N) (c : Z) : outcome (node256 N) :=
  ch ← idx (child256 n) c;
  match ch with
  | Some _ =>
    child ← upd (child256 n) c None;
    Ret (Node256_ child (prefix256 n) (u16 (size256 n - 1)))
  | None => Ret n
  end.

(** [for c, child := range n.child { if child != nil { nn.addChild(byte(c), child) } }]. *)
Fixpoint copy256_into (child : list (option N)) (c : Z) (nn : node48 N)
  : outcome (node48 N) :=
  match child with
  | [] => Ret nn
  | None :: child' => copy256_into child' (c + 1) nn
  | Some ch :: child' =>
    nn' ← addChild48 nn (u8 c) (Some ch);
    copy256_into child' (c + 1) nn'
  end.

Definition shrink256 (n : node256 N) : outcome (option (node48 N)) :=
  if 48 <? size256 n then Ret None
  else nn ← copy256_into (child256 n) 0 (newNode48 []); Ret (Some nn).

(** [for i := 0; i < 256; i++ { if n.child[i] != nil { if !f(n.child[i]) { return } } }]. *)
Definition iter256 {St} (n : node256 N) (f : option N -> St -> St * bool) (s : St)
  : outcome St :=
  r ← for_range 256 0
        (fun i s =>
           ch ← idx (child256 n) i;
           match ch with
           | Some _ =>
             let '(s', continue) := f ch s in
             Ret (if continue then inl s' else inr s')
           | None => Ret (inl s)
           end) s;
  Ret (match r with inl s' => s' | inr s' => s' end).

Definition children256 (n : node256 N) : outcome (list (option N)) :=
  if 256 <=? len (child256 n) then Ret (sub (child256 n) 0 256) else Panicked.

(** **** Transitions between [node16], [node48] and [node256] *)

Definition grow16 (n : snode N) : outcome (node48 N) :=
  copy_into addChild48 n 16 (newNode48 (s_prefix n)).

Definition grow48 (n : node48 N) : outcome (node256 N) :=
  copy48_into addChild256 n (newNode256 (prefix48 n)).

Definition shrink48 (n : node48 N) : outcome (option (snode N)) :=
  if 16 <? size48 n then Ret None
  else nn ← copy48_into (addChildS 16) n (newS 16 []); Ret (Some nn).
End NodeOps.

(** *** Contents and representation invariants of the variants *)

Definition is_byte (z : Z) : Prop := 0 <= z < 256.

(** The first value stored under [c] in an association list. *)
Fixpoint lookup_kv {V} (c : Z) (kvs : list (Z * V)) : option V :=
  match kvs with
  | [] => None
  | (k, v) :: kvs' => if k =? c then Some v else lookup_kv c kvs'
  end.

(** The index of the first [c] in a list of keys. *)
Fixpoint index_of (c : Z) (l : list Z) : option nat :=
  match l with
  | [] => None
  | k :: l' => if k =? c then Some 0%nat else S <$> index_of c l'
  end.

(** [add] applied to the pairs of a list, in order. *)
Fixpoint add_all {M V} (add : M -> Z -> V -> outcome M)
    (kvs : list (Z * V)) (nn : M) : outcome M :=
  match kvs with
  | [] => Ret nn
  | (k, v) :: kvs' => nn' ← add nn k v; add_all add kvs' nn'
  end.

Section Contents.
Context {N : Type}.

(** Small variants: the keys and children in use, in stored order. *)
Definition absS (n : snode N) : list (Z * option N) :=
  zip (take (Z.to_nat (s_size n)) (s_key n))
      (take (Z.to_nat (s_size n)) (s_child n)).

(** The arrays have [cap] entries and [size] is within them. *)
Definition typedS (cap : Z) (n : snode N) : Prop :=
  len (s_child n) = cap /\ len (s_key n) = cap /\ 0 <= s_size n <= cap.

(** The entries in use hold distinct bytes and children that are not
    [nil]. *)
Definition wfS (cap : Z) (n : snode N) : Prop :=
  typedS cap n /\
  Forall (fun kv => is_byte kv.1 /\ is_Some kv.2) (absS n) /\
  NoDup (absS n).*1.

(** [node48]: table entry of [c], child at position [i]. *)
Definition key_at (n : node48 N) (c : Z) : Z :=
  default 0 (key48 n !! Z.to_nat c).

Definition child_at (n : node48 N) (i : Z) : option N :=
  default None (child48 n !! Z.to_nat i).

(** The dispatch-table invariant. *)
Record inv48 (n : node48 N) : Prop := Inv48 {
  inv_child_len : len (child48 n) = 48;
  inv_key_len : len (key48 n) = 256;
  inv_size : 0 <= size48 n <= 48;
  (* an entry is 0 or a 1-indexed position at most [size] of a child *)
  inv_pos : forall c, is_byte c ->
    key_at n c = 0 \/
    (1 <= key_at n c <= size48 n /\ is_Some (child_at n (key_at n c - 1)));
  (* distinct bytes map to distinct positions *)
  inv_inj : forall c c', is_byte c -> is_byte c' -> c <> c' ->
    key_at n c <> 0 -> key_at n c <> key_at n c';
  (* [child[0..size-1]] are exactly the entries that are not [nil] *)
  inv_dense : forall i, 0 <= i < 48 -> (is_Some (child_at n i) <-> i < size48 n)
}.

(** Moreover every position in use is the entry of some byte. *)
Definition wf48 (n : node48 N) : Prop :=
  inv48 n /\
  forall i, 1 <= i <= size48 n -> exists c, is_byte c /\ key_at n c = i.

(** The pairs of a [node48], by ascending byte: the bytes from [c] on
    whose entry in [key] is not 0, each with the child at its position. *)
Fixpoint table48 (key : list Z) (c : Z) (child : list (option N))
  : list (Z * option N) :=
  match key with
  | [] => []
  | i :: key' =>
    (if 0 <? i then [(c, default None (child !! Z.to_nat (i - 1)))] else [])
    ++ table48 key' (c + 1) child
  end.

Definition abs48 (n : node48 N) : list (Z * option N) :=
  table48 (key48 n) 0 (child48 n).

(** The pairs of a [node256], by ascending byte. *)
Fixpoint table256 (child : list (option N)) (c : Z) : list (Z * option N) :=
  match child with
  | [] => []
  | None :: child' => table256 child' (c + 1)
  | Some ch :: child' => (c, Some ch) :: table256 child' (c + 1)
  end.

Definition abs256 (n : node256 N) : list (Z * option N) :=
  table256 (child256 n) 0.

(** [size] counts the children that are not [nil]. *)
Definition wf256 (n : node256 N) : Prop :=
  len (child256 n) = 256 /\ size256 n = len (abs256 n).

(** A callback visits the elements of a list in order and stops as soon
    as it returns [false]. *)
Fixpoint visit {St} (f : option N -> St -> St * bool) (l : list (option N))
    (s : St) : St :=
  match l with
  | [] => s
  | x :: l' => let '(s', continue) := f x s in
               if continue then visit f l' s' else s'
  end.
End Contents.

(** *** The [node] interface

    The interface has six implementations; a node is one of them. *)
#[warnings="-register-all"]
Inductive node (T : Type) :=
  | Leaf (suffix : bytes) (value : T)
  | Node4 (n : snode (node T))
  | Node10 (n : snode (node T))
  | Node16 (n : snode (node T))
  | Node48 (n : node48 (node T))
  | Node256 (n : node256 (node T)).
Arguments Leaf {T}.
Arguments Node4 {T}.
Arguments Node10 {T}.
Arguments Node16 {T}.
Arguments Node48 {T}.
Arguments Node256 {T}.

Section Interface.
Context {T : Type}.
Implicit Types n : node T.

Definition kind n : string :=
  match n with
  | Leaf _ _ => "LEAF"
  | Node4 _ => "NODE4"
  | Node10 _ => "NODE10"
  | Node16 _ => "NODE16"
  | Node48 _ => "NODE48"
  | Node256 _ => "NODE256"
  end.

Definition isLeaf n : bool :=
  match n with Leaf _ _ => true | _ => false end.

Definition path n : bytes :=
  match n with
  | Leaf suffix _ => suffix
  | Node4 m | Node10 m | Node16 m => s_prefix m
  | Node48 m => prefix48 m
  | Node256 m => prefix256 m
  end.

Definition numChildren n : Z :=
  match n with
  | Leaf _ _ => 0
  | Node4 m | Node10 m | Node16 m => s_size m
  | Node48 m => size48 m
  | Node256 m => size256 m
  end.

Definition isFull n : bool :=
  match n with
  | Leaf _ _ => true
  | Node4 m => isFullS 4 m
  | Node10 m => isFullS 10 m
  | Node16 m => isFullS 16 m
  | Node48 m => isFull48 m
  | Node256 m => isFull256 m
  end.

Definition addChild n (c : Z) (nn : option (node T)) : outcome (node T) :=
  match n with
  | Leaf _ _ => Panicked
  | Node4 m => Node4 <$> addChildS 4 m c nn
  | Node10 m => Node10 <$> addChildS 10 m c nn
  | Node16 m => Node16 <$> addChildS 16 m c nn
  | Node48 m => Node48 <$> addChild48 m c nn
  | Node256 m => Node256 <$> addChild256 m c nn
  end.

Definition findChild n (c : Z) : outcome (option (option (node T))) :=
  match n with
  | Leaf _ _ => Panicked
  | Node4 m | Node10 m | Node16 m => findChildS m c
  | Node48 m => findChild48 m c
  | Node256 m => findChild256 m c
  end.

Definition deleteChild n (c : Z) : outcome (node T) :=
  match n with
  | Leaf _ _ => Panicked
  | Node4 m => Node4 <$> deleteChildS m c
  | Node10 m => Node10 <$> deleteChildS m c
  | Node16 m => Node16 <$> deleteChildS m c
  | Node48 m => Node48 <$> deleteChild48 m c
  | Node256 m => Node256 <$> deleteChild256 m c
  end.

Definition grow n : outcome (node T) :=
  match n with
  | Leaf _ _ => Panicked
  | Node4 m => Node10 <$> growS 4 10 m
  | Node10 m => Node16 <$> growS 10 16 m
  | Node16 m => Node48 <$> grow16 m
  | Node48 m => Node256 <$> grow48 m
  | Node256 _ => Panicked
  end.

(** A smaller variant returned through the interface type. *)
Definition replacement {M} (wrap : M -> node T) (r : outcome (option M))
  : outcome (option (node T)) :=
  match r with
  | Ret o => Ret (option_map wrap o)
  | Panicked => Panicked
  end.

(** [shrink()]: [Ret None] is the [nil] result, no replacement. *)
Definition shrink n : outcome (option (node T)) :=
  match n with
  | Leaf _ _ => Panicked
  | Node4 m => shrink4 m
  | Node10 m => replacement Node4 (shrinkS 4 m)
  | Node16 m => replacement Node10 (shrinkS 10 m)
  | Node48 m => replacement Node16 (shrink48 m)
  | Node256 m => replacement Node48 (shrink256 m)
  end.

Definition iter {St} n (f : option (node T) -> St -> St * bool) (s : St)
  : outcome St :=
  match n with
  | Leaf _ _ => Ret s
  | Node4 m | Node10 m | Node16 m => iterS m f s
  | Node48 m => iter48 m f s
  | Node256 m => iter256 m f s
  end.
End Interface.

(** *** Vocabulary of the node properties *)

Section NodeSpec.
Context {T : Type}.
Implicit Types n : node T.

(** The representation invariant of a node (of the node itself, not of
    its descendants). *)
Definition wf_node n : Prop :=
  match n with
  | Leaf _ _ => True
  | Node4 m => wfS 4 m
  | Node10 m => wfS 10 m
  | Node16 m => wfS 16 m
  | Node48 m => wf48 m
  | Node256 m => wf256 m
  end.

(** The shrink threshold of each variant is met. *)
Definition shrinks n : Prop :=
  match n with
  | Leaf _ _ => False
  | Node4 m => s_size m = 1
  | Node10 m => s_size m <= 4
  | Node16 m => s_size m <= 10
  | Node48 m => size48 m <= 16
  | Node256 m => size256 m <= 48
  end.

(** The variants that shrink to a smaller variant, and its class. *)
Definition has_smaller_variant n : Prop :=
  match n with
  | Node10 _ | Node16 _ | Node48 _ | Node256 _ => True
  | _ => False
  end.

Definition smaller_kind n : string :=
  match n with
  | Node10 _ => "NODE4"
  | Node16 _ => "NODE10"
  | Node48 _ => "NODE16"
  | Node256 _ => "NODE48"
  | _ => ""
  end.

(** The next rung of the growth ladder. *)
Definition larger_kind n : string :=
  match n with
  | Node4 _ => "NODE10"
  | Node10 _ => "NODE16"
  | Node16 _ => "NODE48"
  | Node48 _ => "NODE256"
  | _ => ""
  end.

(** The nodes [insert] grows: well-formed, and full when the variant is
    one of the three small ones. *)
Definition growable n : Prop :=
  wf_node n /\
  match n with
  | Node4 _ | Node10 _ | Node16 _ => isFull n = true
  | Node48 _ => True
  | _ => False
  end.

(** The children in stored order: the entries in use of the child
    array. *)
Definition stored_order n : list (option (node T)) :=
  match n with
  | Node4 m | Node10 m | Node16 m => take (Z.to_nat (s_size m)) (s_child m)
  | Node48 m => take (Z.to_nat (size48 m)) (child48 m)
  | _ => []
  end.

(** The children in ascending order of their discriminator byte: the
    children [findChild] finds for the bytes 0, 1, ..., 255. *)
Definition found n (c : Z) : option (option (node T)) :=
  match findChild n c with
  | Ret (Some ch) => Some ch
  | _ => None
  end.

Definition byte_order n : list (option (node T)) :=
  omap (found n) (seqZ 0 256).

(** The order in which [iter] yields the children. *)
Definition iter_order n : list (option (node T)) :=
  match n with
  | Node256 _ => byte_order n
  | _ => stored_order n
  end.

(** A callback that records what it is given and never stops. *)
Definition record_all (ch : option (node T)) (seen : list (option (node T)))
  : list (option (node T)) * bool :=
  (seen ++ [ch], true).
End NodeSpec.

(** *** The nodes that [addChild] and [deleteChild] return *)

Section Results.
Context {N : Type}.
Implicit Types n nn : node48 N.

(** A small node after [deleteChild] found its byte at index [j]. *)
Definition removedS (n : snode N) (j : Z) : snode N :=
  let last := s_size n - 1 in
  if j <? last then
    SNode (<[Z.to_nat last := None]>
             (<[Z.to_nat j := default None (s_child n !! Z.to_nat last)]> (s_child n)))
          (s_prefix n) (s_size n - 1)
          (<[Z.to_nat last := 0]>
             (<[Z.to_nat j := default 0 (s_key n !! Z.to_nat last)]> (s_key n)))
  else
    SNode (<[Z.to_nat j := None]> (s_child n)) (s_prefix n) (s_size n - 1)
          (<[Z.to_nat j := 0]> (s_key n)).

(** The node after [addChild(k, v)] on a [node48] that is not full. *)
Definition added48 nn k (v : option N) : node48 N :=
  Node48_ (<[Z.to_nat (size48 nn) := v]> (child48 nn)) (prefix48 nn)
          (size48 nn + 1) (<[Z.to_nat k := size48 nn + 1]> (key48 nn)).

(** The node after [deleteChild(c)] when [c] has a child. *)
Definition deleted48 n c : node48 N :=
  let i := key_at n c - 1 in
  let last := size48 n - 1 in
  let child := if i <? last then <[Z.to_nat i := child_at n last]> (child48 n)
               else child48 n in
  let key := if i <? last then repair (key48 n) (last + 1) (i + 1)
             else key48 n in
  Node48_ (<[Z.to_nat last := None]> child) (prefix48 n) (size48 n - 1)
          (<[Z.to_nat c := 0]> key).
End Results.

(** *** Some nodes *)

Definition leaf_of (v : Z) : node Z := Leaf [] v.

(** A [node48] to which 'B' and then 'A' were added. *)
Definition node48_BA_ : node48 (node Z) :=
  Node48_ (Some (leaf_of 2) :: Some (leaf_of 1) :: replicate 46 None) []
          2 (<[65%nat := 2]> (<[66%nat := 1]> (replicate 256 0))).

Definition node48_BA : node Z := Node48 node48_BA_.

(** A [node4] with the prefix "foo" and one child, under 'A'. *)
Definition node4_A : node Z :=
  Node4 (SNode [Some (leaf_of 1); None; None; None] (b "foo") 1 [65; 0; 0; 0]).

(** A full [node4]. *)
Definition node4_full : node Z :=
  Node4 (SNode [Some (leaf_of 1); Some (leaf_of 2); Some (leaf_of 3); Some (leaf_of 4)]
               (b "foo") 4 [65; 66; 67; 68]).

(** A [node10] with the prefix "foo" and two children. *)
Definition node10_AB : node Z :=
  Node10 (SNode (Some (leaf_of 1) :: Some (leaf_of 2) :: replicate 8 None)
                (b "foo") 2 (65 :: 66 :: replicate 8 0)).

(** ** The container

    Modelled from the spec: the file that defines [SubjectTree] and its
    [Insert] is not among the sources, only its tests are.  The model is
    the logical storage of the specification (a map from subjects to values
    with a count of stored keys) and the contract of [Insert]: step 0
    rejects a subject containing the no-pivot byte; otherwise the previous
    value of an exact key is returned with [updated = true], and the size
    counter increments only when a new key is added. *)
Record SubjectTree (T : Type) := Tree {
  entries : gmap bytes T;
  size : Z
}.
Arguments Tree {T}.
Arguments entries {T}.
Arguments size {T}.

Definition NewSubjectTree {T} : SubjectTree T := Tree ∅ 0.

Definition Insert {T} (t : SubjectTree T) (subject : bytes) (value : T)
  : SubjectTree T * option T * bool :=
  if bool_decide (noPivot ∈ subject) then (t, None, false)
  else
    match entries t !! subject with
    | Some old => (Tree (<[subject := value]> (entries t)) (size t), Some old, true)
    | None => (Tree (<[subject := value]> (entries t)) (size t + 1), None, false)
    end.

(** ** Further methods and vocabulary *)

Section Methods.
Context {T : Type}.
Implicit Types n : node T.

(** [children()]: [n.child[:n.size]] for [node4] to [node48], all 256
    slots for [node256], [nil] for a leaf. *)
Definition children n : outcome (list (option (node T))) :=
  match n with
  | Leaf _ _ => Ret []
  | Node4 m | Node10 m | Node16 m => childrenS m
  | Node48 m => children48 m
  | Node256 m => children256 m
  end.

(** [n.matchParts(parts)]: [meta.matchParts] and [leaf.matchParts] call
    [matchParts] with the prefix, respectively the suffix. *)
Definition node_matchParts n (parts : list bytes) : list bytes * bool :=
  matchParts parts (path n).
End Methods.

(** [leaf.match(subject)]: [bytes.Equal(subject, n.suffix)]. *)
Definition leaf_match (suffix subject : bytes) : bool :=
  bool_decide (subject = suffix).

(** A part that [matchParts] compares byte by byte: any part but the
    one-byte parts [*] and [>]. *)
Definition literal (p : bytes) : Prop := p <> [pwc] /\ p <> [fwc].

(** Matching literal parts against a fragment compares the fragment with
    the concatenation of the parts: it succeeds when the fragment is a
    prefix of it, and the parts returned then hold what follows the
    fragment; otherwise it fails and returns the parts as they were. *)
Definition literal_match (parts : list bytes) (frag : bytes)
    (r : list bytes * bool) : Prop :=
  if decide (frag `prefix_of` concat parts)
  then r.2 = true /\ concat r.1 = drop (length frag) (concat parts)
  else r = (parts, false).

(** Slices that are not empty, lie between 0 and [bound] and follow each
    other without overlap. *)
Definition in_order (bound : Z) (parts : list span) : Prop :=
  Forall (fun p => 0 <= lo p /\ lo p < hi p /\ hi p <= bound) parts /\
  forall a b p q, (a < b)%nat ->
    parts !! a = Some p -> parts !! b = Some q -> hi p <= lo q.

(** *** Filters made of whole tokens *)

(** A filter made of tokens that are not empty, in which every wildcard
    byte is a token of its own and [>] is the last byte. *)
Record valid_filter (filter : bytes) : Prop := ValidFilter {
  vf_first : byte_at filter 0 <> tsep;
  vf_last : byte_at filter (len filter - 1) <> tsep;
  vf_no_empty : forall j, 0 <= j -> byte_at filter j = tsep ->
                          byte_at filter (j + 1) <> tsep;
  vf_tokens : forall j, 0 <= j < len filter ->
                        is_wildcard (byte_at filter j) -> entire_token filter j;
  vf_fwc_last : forall j, 0 <= j < len filter ->
                          byte_at filter j = fwc -> j = len filter - 1
}.

(** The slice of a wildcard part. *)
Definition wild_span (filter : bytes) (p : span) : Prop :=
  hi p = lo p + 1 /\ is_wildcard (byte_at filter (lo p)).

(** [q] starts where [p] ends, or one byte later when [p] is a wildcard
    part and that byte is the separator. *)
Definition adjacent (filter : bytes) (p q : span) : Prop :=
  lo q = hi p \/
  (wild_span filter p /\ lo q = hi p + 1 /\ byte_at filter (hi p) = tsep).

Definition chain (filter : bytes) (l : list span) : Prop :=
  forall a p q, l !! a = Some p -> l !! S a = Some q -> adjacent filter p q.

(** What the loop of [genParts] knows after each iteration on a valid
    filter: the parts tile the filter up to the last one, which is a
    wildcard part, and [start] is past the separator that follows it. *)
Definition covered (filter : bytes) (start : Z) (parts : list span) : Prop :=
  (forall p, head parts = Some p -> lo p = 0) /\
  chain filter parts /\
  ((parts = [] /\ start = 0) \/
   exists p, last parts = Some p /\ wild_span filter p /\
     ((start = hi p + 1 /\ byte_at filter (hi p) = tsep) \/
      (start = hi p /\ hi p = len filter))).

(** No wildcard is recognized at the separator at [i]. *)
Definition quiet (filter : bytes) (i : Z) : Prop :=
  tsep_pwc filter i = false /\ tsep_fwc filter i = false.

(** *** Matching a fragment in pieces *)

(** The loop of [matchParts] once more, as a function of what is left of
    the fragment, [rem = frag[si:]]: the loop reads the fragment only from
    the scan position on, so [matchParts_loop frag lpi i rest si] is
    [matchParts_rest lpi i rest (frag[si:])] (lemma [matchParts_loop_rest]).
    Only proofs use this form. *)
Fixpoint matchParts_rest (lpi i : Z) (rest : list bytes) (rem : bytes) : mret :=
  match rest with
  | [] => RetFail
  | part :: rest' =>
    if len rem <=? 0 then RetFrom i
    else
      let lp := len part in
      if (lp =? 1) && (byte_at part 0 =? pwc) then
        let index := IndexByte rem tsep in
        if index <? 0 then
          if i =? lpi then RetNil else RetFrom i
        else matchParts_rest lpi (i + 1) rest' (drop (Z.to_nat (index + 1)) rem)
      else if (lp =? 1) && (byte_at part 0 =? fwc) then RetNil
      else
        let n := Z.min lp (len rem) in
        let part := if n <? lp then take (Z.to_nat n) part else part in
        if negb (bool_decide (part = take (Z.to_nat n) rem)) then RetFail
        else if n <? len rem then
          matchParts_rest lpi (i + 1) rest' (drop (Z.to_nat n) rem)
        else if n <? lp then RetCopy i (len rem)
        else if i =? lpi then RetNil
        else matchParts_rest lpi (i + 1) rest' (drop (Z.to_nat (len part)) rem)
  end.

(** A part that is a wildcard part, or bytes none of which is a wildcard:
    the parts [genParts] makes of a valid filter are such. *)
Definition clean (p : bytes) : Prop :=
  p = [pwc] \/ p = [fwc] \/ ((pwc ∉ p) /\ (fwc ∉ p)).

(** The same of the slice of a part. *)
Definition clean_span (filter : bytes) (p : span) : Prop :=
  clean (span_bytes filter p).

(** Two results of [matchParts] agree: the same [ok], and the same parts
    when [ok] holds. *)
Definition agree (r r' : list bytes * bool) : Prop :=
  r.2 = r'.2 /\ (r.2 = true -> r.1 = r'.1).

(** Indices of the parts moved by [d]. *)
Definition shift_mret (d : Z) (r : mret) : mret :=
  match r with
  | RetFrom j => RetFrom (j + d)
  | RetCopy j k => RetCopy (j + d) k
  | _ => r
  end.

(** The part at index [i] had already lost its first [k] bytes. *)
Definition uncut (k i : Z) (r : mret) : mret :=
  match r with
  | RetCopy j k2 => if j =? i then RetCopy j (k + k2) else r
  | _ => r
  end.

(** ** Dump: the indentation of a line *)

(** [for i := 0; i < depth; i++ { b.WriteString("  ") }] on the contents
    [b] of the builder. *)
Fixpoint write_indent (n : nat) (b : string) : string :=
  match n with
  | O => b
  | S n' => write_indent n' (b +:+ "  ")
  end.

(** [dumpPre(depth)]. *)
Definition dumpPre (depth : Z) : string :=
  if depth =? 0 then "-- "
  else write_indent (Z.to_nat depth) "" +:+ "|__ ".

(** * Properties *)

(** ** Tactics and list facts *)

Ltac bool_to_prop :=
  repeat match goal with
  | H : _ && _ = true |- _ => apply andb_true_iff in H; destruct H
  | H : _ || _ = true |- _ => apply orb_true_iff in H; destruct H
  | H : _ && _ = false |- _ => apply andb_false_iff in H; destruct H
  | H : _ || _ = false |- _ => apply orb_false_iff in H; destruct H
  | H : negb _ = true |- _ => apply negb_true_iff in H
  | H : negb _ = false |- _ => apply negb_false_iff in H
  | H : (_ =? _) = true |- _ => apply Z.eqb_eq in H
  | H : (_ =? _) = false |- _ => apply Z.eqb_neq in H
  | H : (_ <? _) = true |- _ => apply Z.ltb_lt in H
  | H : (_ <? _) = false |- _ => apply Z.ltb_ge in H
  | H : (_ <=? _) = true |- _ => apply Z.leb_le in H
  | H : (_ <=? _) = false |- _ => apply Z.leb_gt in H
  end.

(** Well-formedness of a small node given by its fields. *)
Ltac wfS_concrete :=
  split; [|split];
  [ vm_compute; intuition congruence
  | apply Forall_forall; intros kv Hin; vm_compute in Hin;
    repeat (apply elem_of_cons in Hin as [->|Hin];
            [split; [unfold is_byte; simpl; lia|by eexists]|]);
    by apply elem_of_nil in Hin
  | apply (bool_decide_unpack _); by vm_compute ].

Lemma sub_all {A} (s : list A) : sub s 0 (len s) = s.
Proof.
  unfold sub, len. rewrite Z.sub_0_r, Nat2Z.id. simpl. apply firstn_all.
Qed.

Lemma sub_to_end {A} (s : list A) lo :
  0 <= lo -> sub s lo (len s) = drop (Z.to_nat lo) s.
Proof.
  intros Hlo. unfold sub, len. apply take_ge. rewrite length_drop. lia.
Qed.

Lemma drop_lookup_cons {A} (l : list A) i x :
  l !! i = Some x -> drop i l = x :: drop (S i) l.
Proof. intros H. by rewrite (drop_S l x i). Qed.

Lemma len_alter {A} (f : A -> A) i (l : list A) : len (alter f i l) = len l.
Proof. unfold len. by rewrite length_alter. Qed.

Lemma drop_alter_here {A} (f : A -> A) (l : list A) i x :
  l !! i = Some x -> drop i (alter f i l) = f x :: drop (S i) l.
Proof.
  intros H. rewrite (drop_lookup_cons (alter f i l) i (f x)).
  - f_equal. apply drop_alter_lt. lia.
  - by rewrite list_lookup_alter_eq, H.
Qed.

Lemma default_replicate {A} (d : A) n i : default d (replicate n d !! i) = d.
Proof.
  destruct (replicate n d !! i) as [x|] eqn:E; [|done].
  by apply lookup_replicate in E as [-> _].
Qed.

Lemma lookup_kv_absent {V} c (kvs : list (Z * V)) :
  c ∉ kvs.*1 -> lookup_kv c kvs = None.
Proof.
  induction kvs as [|[k v] kvs IH]; [done|]. simpl.
  intros [Hne Hin]%not_elem_of_cons.
  destruct (k =? c) eqn:E; [apply Z.eqb_eq in E; congruence|auto].
Qed.

Lemma omap_ext_in {A B} (f g : A -> option B) (l : list A) :
  (forall x, x ∈ l -> f x = g x) -> omap f l = omap g l.
Proof.
  intros H. apply list_omap_ext, Forall_Forall2_diag, Forall_forall. exact H.
Qed.

Section Basics.
Context {A : Type}.
Implicit Types a : list A.

Lemma idx_Ret a i x : 0 <= i -> a !! Z.to_nat i = Some x -> idx a i = Ret x.
Proof.
  intros Hi Hx. unfold idx. rewrite Hx.
  apply lookup_lt_Some in Hx.
  replace ((0 <=? i) && (i <? len a)) with true; [done|].
  symmetry. apply andb_true_iff. split; [apply Z.leb_le|apply Z.ltb_lt]; unfold len; lia.
Qed.

Lemma idx_nat a (i : nat) x : a !! i = Some x -> idx a (Z.of_nat i) = Ret x.
Proof. intros H. apply idx_Ret; [lia|]. by rewrite Nat2Z.id. Qed.

Lemma upd_Ret a i x :
  0 <= i < len a -> upd a i x = Ret (<[Z.to_nat i := x]> a).
Proof.
  intros Hi. unfold upd.
  replace ((0 <=? i) && (i <? len a)) with true; [done|].
  symmetry. apply andb_true_iff. split; [apply Z.leb_le|apply Z.ltb_lt]; lia.
Qed.
End Basics.

Lemma u16_small z : 0 <= z < 65536 -> u16 z = z.
Proof. intros. unfold u16. by apply Z.mod_small. Qed.

Lemma u8_small z : 0 <= z < 256 -> u8 z = z.
Proof. intros. unfold u8. by apply Z.mod_small. Qed.

Section Arrays.
Context {A : Type}.
Implicit Types a : list A.

Lemma idx_default a i d :
  0 <= i < len a -> idx a i = Ret (default d (a !! Z.to_nat i)).
Proof.
  intros Hi. destruct (lookup_lt_is_Some_2 a (Z.to_nat i)) as [x Hx];
    [unfold len in Hi; lia|].
  rewrite Hx. apply idx_Ret; [lia|done].
Qed.

Lemma get_insert a i j x d :
  0 <= i < len a -> 0 <= j ->
  default d (<[Z.to_nat i := x]> a !! Z.to_nat j)
  = if decide (j = i) then x else default d (a !! Z.to_nat j).
Proof.
  intros Hi Hj. case_decide as E.
  - subst. rewrite list_lookup_insert_eq; [done|unfold len in Hi; lia].
  - rewrite list_lookup_insert_ne; [done|lia].
Qed.

Lemma len_insert a i x : len (<[i := x]> a) = len a.
Proof. unfold len. by rewrite length_insert. Qed.
End Arrays.

(** ** [genParts] *)

Section GenPartsFacts.
Variable filter : bytes.

Lemma tsep_pwc_token i :
  0 <= i -> byte_at filter i = tsep -> tsep_pwc filter i = true ->
  wildcard_token filter (i + 1).
Proof.
  unfold tsep_pwc, wildcard_token, entire_token, is_wildcard.
  intros Hi Ht H. bool_to_prop; replace (i + 1 - 1) with i by lia;
    replace (i + 1 + 1) with (i + 2) by lia; intuition lia.
Qed.

Lemma tsep_fwc_token i :
  0 <= i -> byte_at filter i = tsep -> tsep_fwc filter i = true ->
  wildcard_token filter (i + 1).
Proof.
  unfold tsep_fwc, wildcard_token, entire_token, is_wildcard.
  intros Hi Ht H. bool_to_prop; replace (i + 1 - 1) with i by lia;
    intuition lia.
Qed.

Lemma wildcard_branch_token i :
  0 <= i < len filter ->
  (byte_at filter i =? pwc) || (byte_at filter i =? fwc) = true ->
  prev_not_tsep filter i = false -> next_not_tsep filter i = false ->
  wildcard_token filter i.
Proof.
  unfold prev_not_tsep, next_not_tsep, wildcard_token, entire_token, is_wildcard.
  intros Hi Hw Hp Hn. bool_to_prop; intuition lia.
Qed.

Lemma genParts_loop_none :
  (forall j, ~ wildcard_token filter j) ->
  forall fuel i start parts, 0 <= i ->
  genParts_loop filter fuel i start parts = (start, parts).
Proof.
  intros Hno. induction fuel as [|fuel IH]; intros i start parts Hi; [done|].
  simpl.
  destruct (i <? len filter) eqn:Hlt; [|done].
  destruct (byte_at filter i =? tsep) eqn:Ht.
  - destruct (tsep_pwc filter i) eqn:Hp.
    { exfalso. apply (Hno (i + 1)), tsep_pwc_token; bool_to_prop; auto. }
    destruct (tsep_fwc filter i) eqn:Hf.
    { exfalso. apply (Hno (i + 1)), tsep_fwc_token; bool_to_prop; auto. }
    apply IH; lia.
  - destruct ((byte_at filter i =? pwc) || (byte_at filter i =? fwc)) eqn:Hw;
      [|apply IH; lia].
    destruct (prev_not_tsep filter i) eqn:Hp; [apply IH; lia|].
    destruct (next_not_tsep filter i) eqn:Hn; [apply IH; lia|].
    exfalso. apply (Hno i), wildcard_branch_token; auto.
    apply Z.ltb_lt in Hlt. lia.
Qed.
End GenPartsFacts.

(** The fuel of the loop is no restriction: any two amounts that cover the
    rest of the filter give the same result. *)
Lemma genParts_loop_fuel (filter : bytes) (fuel1 fuel2 : nat) i start parts :
  len filter - i <= Z.of_nat fuel1 -> len filter - i <= Z.of_nat fuel2 ->
  genParts_loop filter fuel1 i start parts = genParts_loop filter fuel2 i start parts.
Proof.
  revert fuel2 i start parts.
  induction fuel1 as [|fuel1 IH]; intros [|fuel2] i start parts H1 H2; simpl; try done.
  - by replace (i <? len filter) with false by (symmetry; apply Z.ltb_ge; lia).
  - by replace (i <? len filter) with false by (symmetry; apply Z.ltb_ge; lia).
  - destruct (i <? len filter); [|done].
    repeat match goal with
    | |- context [if ?c then _ else _] => destruct c
    end; apply IH; lia.
Qed.

(** C1 (as amended).  When no wildcard byte of the filter occupies an
    entire token, [genParts(filter, nil)] is the single literal part equal
    to the filter, provided the filter is not empty and does not start with
    the token separator; a leading separator is dropped from that part, and
    the empty filter has no parts. *)
Theorem genParts_no_wildcard (filter : bytes) :
  (forall j, ~ wildcard_token filter j) ->
  genParts filter [] =
    match filter with
    | [] => []
    | c :: rest => if c =? tsep then [rest] else [filter]
    end.
Proof.
  intros Hno. unfold genParts, genSpans.
  rewrite genParts_loop_none by (auto; lia). simpl.
  destruct filter as [|c rest]; [done|].
  replace (0 <? len (c :: rest)) with true
    by (symmetry; apply Z.ltb_lt; unfold len; simpl; lia).
  change (byte_at (c :: rest) 0) with c.
  destruct (c =? tsep); simpl; unfold span_bytes; simpl.
  - f_equal. by rewrite sub_to_end.
  - f_equal. apply sub_all.
Qed.

Lemma genParts_no_wildcard_witness :
  genParts (b "foo.bar") [] = [b "foo.bar"].
Proof.
  apply (genParts_no_wildcard (b "foo.bar")).
  intros j (Hj & Hw & _). change (len (b "foo.bar")) with 7 in Hj.
  assert (j = 0 \/ j = 1 \/ j = 2 \/ j = 3 \/ j = 4 \/ j = 5 \/ j = 6)
    as Hcases by lia.
  repeat (destruct Hcases as [->|Hcases]; [vm_compute in Hw; by destruct Hw|]).
  subst. vm_compute in Hw. by destruct Hw.
Defined.

(** A filter without wildcards that starts with the separator. *)
Lemma genParts_leading_separator :
  (forall j, ~ wildcard_token (b ".a") j) /\
  genParts (b ".a") [] = [b "a"] /\
  genParts (b ".a") [] <> [b ".a"].
Proof.
  split; [|split; [reflexivity|by vm_compute]].
  intros j (Hj & Hw & _). change (len (b ".a")) with 2 in Hj.
  assert (j = 0 \/ j = 1) as [->| ->] by lia; vm_compute in Hw; by destruct Hw.
Qed.

(** In the filter [*.] the byte [*] is at position 0 and is followed by
    the separator, so it occupies an entire token, but [genParts] keeps it
    inside the literal part [*.]: the test of line 45 continues whenever
    the next byte is the last one.  The same test keeps the [>] of
    ['*.>.] in the literal, as the test of line 30 does.  The branch of
    line 20 does recognize the [*] of [a.*.], before a final separator
    too.  In [a*.>.b] the [*] does not occupy a token and ends up in no
    part at all. *)
Theorem genParts_wildcard_before_last_separator :
  wildcard_token (b "*.") 0 /\
  ~ recognized (b "*.") 0 /\
  genParts (b "*.") [] = [b "*."] /\
  genParts (b "'*.>.") [] = [b "'*.>."] /\
  recognized (b "a.*.") 2 /\
  genParts (b "a*.>.b") [] = [b ">"; b "b"].
Proof.
  split; [|split; [|split; [reflexivity|split; [reflexivity|split; [|reflexivity]]]]].
  - vm_compute. intuition congruence.
  - unfold recognized. intros H. vm_compute in H.
    apply list_elem_of_singleton in H. discriminate.
  - unfold recognized. vm_compute. apply elem_of_cons. right. left.
Qed.

Section Recognition.
Variable filter : bytes.



Lemma genParts_loop_ok fuel i start parts :
  0 <= i -> start <= i -> start_ok filter start -> Forall (span_ok filter) parts ->
  start_ok filter (genParts_loop filter fuel i start parts).1 /\
  Forall (span_ok filter) (genParts_loop filter fuel i start parts).2.
Proof.
  revert i start parts.
  induction fuel as [|fuel IH]; intros i start parts Hi Hsi Hs Hp; [done|].
  simpl. destruct (i <? len filter) eqn:Hlt; [|done]. apply Z.ltb_lt in Hlt.
  destruct (byte_at filter i =? tsep) eqn:Ht.
  - apply Z.eqb_eq in Ht. destruct (tsep_pwc filter i) eqn:Hpw.
    { pose proof (tsep_pwc_token filter i Hi Ht Hpw) as Htok.
      unfold tsep_pwc in Hpw.
      assert (Forall (span_ok filter)
                ((if start <? i then parts ++ [Span start (i + 1)] else parts)
                 ++ [Span (i + 1) (i + 2)])) as Hp'.
      { apply Forall_app. split.
        - destruct (start <? i) eqn:E; [|done]. apply Z.ltb_lt in E.
          apply Forall_app. split; [done|]. constructor; [|done]. left. simpl. lia.
        - constructor; [|done]. right. simpl. split; [lia|done]. }
      apply IH; [| |  |done].
      - destruct (i + 1 + 2 <=? len filter - 1); lia.
      - lia.
      - destruct (i + 1 + 2 <=? len filter - 1) eqn:E.
        + apply Z.leb_le in E. split; [lia|]. right. left.
          replace (i + 1 + 1 + 1 - 1) with (i + 2) by lia. bool_to_prop; lia.
        + apply Z.leb_gt in E. split; [lia|]. bool_to_prop.
          * right. right. right. split; [lia|]. by replace (i + 1 + 1) with (i + 2) by lia.
          * right. right. left. lia. }
    destruct (tsep_fwc filter i) eqn:Hfw.
    { pose proof (tsep_fwc_token filter i Hi Ht Hfw) as Htok.
      unfold tsep_fwc in Hfw.
      apply IH; [lia|lia| |].
      - split; [lia|]. right. right. left. bool_to_prop. lia.
      - apply Forall_app. split.
        + destruct (start <? i) eqn:E; [|done]. apply Z.ltb_lt in E.
          apply Forall_app. split; [done|]. constructor; [|done]. left. simpl. lia.
        + constructor; [|done]. right. simpl. split; [lia|done]. }
    apply IH; try done; lia.
  - destruct ((byte_at filter i =? pwc) || (byte_at filter i =? fwc)) eqn:Hw;
      [|apply IH; try done; lia].
    destruct (prev_not_tsep filter i) eqn:Hpv; [apply IH; try done; lia|].
    destruct (next_not_tsep filter i) eqn:Hnx; [apply IH; try done; lia|].
    pose proof (wildcard_branch_token filter i ltac:(lia) Hw Hpv Hnx) as Htok.
    unfold next_not_tsep in Hnx.
    apply IH.
    + destruct (i + 1 <=? len filter - 1); lia.
    + lia.
    + destruct (i + 1 <=? len filter - 1) eqn:E.
      * apply Z.leb_le in E. split; [lia|]. right. left.
        replace (i + 1 + 1 - 1) with (i + 1) by lia. bool_to_prop; lia.
      * apply Z.leb_gt in E. split; [lia|]. right. right. left. lia.
    + apply Forall_app. split; [done|]. constructor; [|done].
      right. simpl. split; [lia|done].
Qed.

Lemma genSpans_wildcard_token j :
  Span j (j + 1) ∈ genSpans filter [] -> is_wildcard (byte_at filter j) ->
  wildcard_token filter j.
Proof.
  unfold genSpans. intros Hin Hw.
  pose proof (genParts_loop_ok (length filter) 0 0 [] ltac:(lia) ltac:(lia)) as H.
  destruct H as [Hs Hp]; [split; [lia|by left]|done|].
  destruct (genParts_loop filter (length filter) 0 0 []) as [start parts].
  simpl in Hs, Hp.
  assert (Span j (j + 1) ∈ parts -> wildcard_token filter j) as Hparts.
  { intros Hj. rewrite Forall_forall in Hp. destruct (Hp _ Hj) as [H|[_ H]]; [|done].
    simpl in H. lia. }
  destruct (start <? len filter) eqn:E; [|by apply Hparts].
  apply Z.ltb_lt in E. apply elem_of_app in Hin as [Hin|Hin]; [by apply Hparts|].
  apply list_elem_of_singleton in Hin. destruct Hs as [Hs0 Hs].
  unfold wildcard_token, entire_token.
  destruct (byte_at filter start =? tsep) eqn:Ht.
  - apply Z.eqb_eq in Ht. injection Hin as Hj Hl.
    assert (j = len filter - 1) as Hj' by lia.
    split; [lia|]. split; [done|]. split; [right|by left].
    by replace (j - 1) with start by lia.
  - apply Z.eqb_neq in Ht. injection Hin as Hj Hl. subst start.
    split; [lia|]. split; [done|]. split; [|left; lia].
    destruct Hs as [?|[?|[?|[_ ?]]]]; [by left|by right|lia|done].
Qed.

(** X1.  Only a wildcard that occupies an entire token is emitted as a
    part of its own. *)
Theorem recognized_sound j :
  recognized filter j -> is_wildcard (byte_at filter j) ->
  wildcard_token filter j.
Proof. apply genSpans_wildcard_token. Qed.

Lemma genParts_loop_mono fuel i start parts p :
  p ∈ parts -> p ∈ (genParts_loop filter fuel i start parts).2.
Proof.
  revert i start parts.
  induction fuel as [|fuel IH]; intros i start parts Hp; [done|]. simpl.
  repeat match goal with
  | |- context [if ?c then _ else _] => destruct c
  end; try done; apply IH; repeat (apply elem_of_app; left); done.
Qed.

Lemma genParts_loop_complete fuel i start parts j :
  0 <= i <= j -> len filter - i <= Z.of_nat fuel ->
  wildcard_token filter j -> j + 1 <> len filter - 1 ->
  Span j (j + 1) ∈ (genParts_loop filter fuel i start parts).2.
Proof.
  intros Hij Hfuel (Hj & Hw & Hprev & Hnext) Hne.
  assert (byte_at filter j <> tsep) as Hnt.
  { destruct Hw as [-> | ->]; discriminate. }
  revert i start parts Hij Hfuel.
  induction fuel as [|fuel IH]; intros i start parts Hij Hfuel; [lia|].
  simpl. replace (i <? len filter) with true by (symmetry; apply Z.ltb_lt; lia).
  destruct (byte_at filter i =? tsep) eqn:Ht.
  - apply Z.eqb_eq in Ht. assert (i <> j) by (intros ->; done).
    destruct (tsep_pwc filter i) eqn:Hpw.
    { destruct (decide (j = i + 1)) as [->|Hj1].
      - apply genParts_loop_mono. apply elem_of_app. right.
        replace (i + 1 + 1) with (i + 2) by lia. left.
      - unfold tsep_pwc in Hpw. apply IH; [|destruct (i + 1 + 2 <=? len filter - 1); lia].
        destruct (i + 1 + 2 <=? len filter - 1) eqn:E; [|lia].
        apply Z.leb_le in E.
        assert (byte_at filter (i + 2) = tsep) by (bool_to_prop; lia).
        assert (j <> i + 2) by (intros ->; done). lia. }
    destruct (tsep_fwc filter i) eqn:Hfw.
    { destruct (decide (j = i + 1)) as [->|Hj1].
      - apply genParts_loop_mono. apply elem_of_app. right.
        replace (i + 1 + 1) with (i + 2) by lia. left.
      - apply IH; lia. }
    apply IH; lia.
  - destruct ((byte_at filter i =? pwc) || (byte_at filter i =? fwc)) eqn:Hwi.
    + destruct (decide (j = i)) as [->|Hji].
      * replace (prev_not_tsep filter i) with false.
        2:{ symmetry. unfold prev_not_tsep. apply andb_false_iff.
            destruct Hprev as [->|Hp]; [by left|right].
            apply negb_false_iff, Z.eqb_eq, Hp. }
        replace (next_not_tsep filter i) with false.
        2:{ symmetry. unfold next_not_tsep. apply orb_false_iff. split.
            - apply Z.eqb_neq. lia.
            - apply andb_false_iff. destruct Hnext as [->|Hn].
              + left. apply Z.ltb_ge. lia.
              + right. apply negb_false_iff, Z.eqb_eq, Hn. }
        apply genParts_loop_mono. apply elem_of_app. right. left.
      * destruct (prev_not_tsep filter i); [apply IH; lia|].
        destruct (next_not_tsep filter i) eqn:Hnx; [apply IH; lia|].
        unfold next_not_tsep in Hnx.
        apply IH; [|destruct (i + 1 <=? len filter - 1); lia].
        destruct (i + 1 <=? len filter - 1) eqn:E; [|lia].
        apply Z.leb_le in E.
        assert (byte_at filter (i + 1) = tsep) by (bool_to_prop; lia).
        assert (j <> i + 1) by (intros ->; done). lia.
    + assert (i <> j).
      { intros ->. apply orb_false_iff in Hwi as [H1 H2].
        apply Z.eqb_neq in H1, H2. by destruct Hw. }
      apply IH; lia.
Qed.

Lemma genSpans_emits_token j :
  wildcard_token filter j -> j + 1 <> len filter - 1 ->
  Span j (j + 1) ∈ genSpans filter [].
Proof.
  intros Htok Hne. unfold genSpans.
  pose proof (genParts_loop_complete (length filter) 0 0 [] j) as H.
  destruct (genParts_loop filter (length filter) 0 0 []) as [start parts].
  simpl in H.
  assert (Span j (j + 1) ∈ parts) as Hin.
  { apply H; try done; [destruct Htok as [? _]|unfold len]; lia. }
  destruct (start <? len filter); [|done]. apply elem_of_app. by left.
Qed.

(** X2.  A wildcard that occupies an entire token is emitted as a part of
    its own, unless it is followed by a separator that ends the filter. *)
Theorem recognized_complete j :
  wildcard_token filter j -> j + 1 <> len filter - 1 -> recognized filter j.
Proof. apply genSpans_emits_token. Qed.

(** A [>] emitted by the loop is not the byte before the last one: line
    30 takes it at the end only, line 45 skips it before the last byte. *)
Lemma genParts_loop_fwc fuel : forall i start parts,
  0 <= i -> start <= i ->
  Forall (fun p => hi p = lo p + 1 -> byte_at filter (lo p) = fwc ->
                   lo p + 1 <> len filter - 1) parts ->
  Forall (fun p => hi p = lo p + 1 -> byte_at filter (lo p) = fwc ->
                   lo p + 1 <> len filter - 1)
         (genParts_loop filter fuel i start parts).2.
Proof.
  induction fuel as [|fuel IH]; intros i start parts Hi Hsi Hp; [done|].
  simpl. destruct (i <? len filter) eqn:Hlt; [|done]. apply Z.ltb_lt in Hlt.
  assert (Forall (fun p => hi p = lo p + 1 -> byte_at filter (lo p) = fwc ->
                           lo p + 1 <> len filter - 1)
            (if start <? i then parts ++ [Span start (i + 1)] else parts))
    as Hlit.
  { destruct (start <? i) eqn:E; [|done]. apply Z.ltb_lt in E.
    apply Forall_app. split; [done|]. apply Forall_singleton. simpl. lia. }
  destruct (byte_at filter i =? tsep) eqn:Ht.
  - destruct (tsep_pwc filter i) eqn:Hpw.
    { unfold tsep_pwc in Hpw. apply andb_true_iff in Hpw as [Hpw _].
      apply andb_true_iff in Hpw as [_ H2%Z.eqb_eq].
      apply IH; [destruct (i + 1 + 2 <=? len filter - 1); lia|lia|].
      apply Forall_app. split; [done|]. apply Forall_singleton. simpl.
      intros _ Hf. rewrite H2 in Hf. discriminate. }
    destruct (tsep_fwc filter i) eqn:Hfw.
    { unfold tsep_fwc in Hfw. apply andb_true_iff in Hfw as [_ H3%Z.eqb_eq].
      apply IH; [lia|lia|].
      apply Forall_app. split; [done|]. apply Forall_singleton. simpl. lia. }
    apply IH; [lia|lia|done].
  - destruct ((byte_at filter i =? pwc) || (byte_at filter i =? fwc));
      [|apply IH; [lia|lia|done]].
    destruct (prev_not_tsep filter i); [apply IH; [lia|lia|done]|].
    destruct (next_not_tsep filter i) eqn:Hnx; [apply IH; [lia|lia|done]|].
    unfold next_not_tsep in Hnx. apply orb_false_iff in Hnx as [Hne%Z.eqb_neq _].
    apply IH; [destruct (i + 1 <=? len filter - 1); lia|lia|].
    apply Forall_app. split; [done|]. apply Forall_singleton. simpl. lia.
Qed.

(** C2 (as amended).  [genParts] emits a wildcard byte as a part of its
    own only when it occupies an entire token, and it emits every
    wildcard that occupies an entire token unless the byte after it is a
    separator that ends the filter.  A [>] before such a last separator
    is never emitted as a part of its own. *)
Theorem genParts_recognition j :
  (recognized filter j -> is_wildcard (byte_at filter j) ->
   wildcard_token filter j) /\
  (wildcard_token filter j -> j + 1 <> len filter - 1 ->
   recognized filter j) /\
  (recognized filter j -> byte_at filter j = fwc ->
   j + 1 <> len filter - 1).
Proof.
  split; [apply genSpans_wildcard_token|]. split; [apply genSpans_emits_token|].
  unfold recognized, genSpans. intros Hin Hf.
  pose proof (genParts_loop_fwc (length filter) 0 0 [] ltac:(lia) ltac:(lia)
                (Forall_nil_2 _)) as Hp.
  destruct (genParts_loop filter (length filter) 0 0 []) as [start parts].
  simpl in Hp. rewrite Forall_forall in Hp.
  destruct (start <? len filter); [|by apply (Hp _ Hin)].
  apply elem_of_app in Hin as [Hin|Hin]; [by apply (Hp _ Hin)|].
  apply list_elem_of_singleton in Hin. injection Hin as Hj Hl. lia.
Qed.
End Recognition.

Lemma genParts_recognition_witness :
  wildcard_token (b "a.*") 2 /\ recognized (b "a.*.b") 2 /\
  2 + 1 <> len (b "a.>") - 1.
Proof.
  split; [|split].
  - apply (proj1 (genParts_recognition (b "a.*") 2)).
    + unfold recognized. vm_compute. apply elem_of_cons. right. left.
    + vm_compute. by left.
  - apply (proj1 (proj2 (genParts_recognition (b "a.*.b") 2))).
    + vm_compute. intuition congruence.
    + vm_compute. discriminate.
  - apply (proj2 (proj2 (genParts_recognition (b "a.>") 2))).
    + unfold recognized. vm_compute. apply elem_of_cons. right. left.
    + reflexivity.
Defined.

(** ** [matchParts] *)

Lemma IndexByte_range s c : -1 <= IndexByte s c < len s.
Proof.
  unfold len. induction s as [|x s IH]; simpl; [lia|].
  destruct (x =? c); [lia|].
  destruct (IndexByte s c <? 0) eqn:E; lia.
Qed.

Lemma IndexByte_absent s c : IndexByte s c < 0 <-> c ∉ s.
Proof.
  induction s as [|x s IH]; simpl.
  - split; [intros _; apply not_elem_of_nil | lia].
  - destruct (x =? c) eqn:E.
    + apply Z.eqb_eq in E. subst. split; [lia|]. intros H. destruct H. left.
    + apply Z.eqb_neq in E. rewrite not_elem_of_cons.
      destruct (IndexByte s c <? 0) eqn:E'.
      * apply Z.ltb_lt in E'. split; [|lia]. intros _. split; [congruence|]. by apply IH.
      * apply Z.ltb_ge in E'. split; [lia|]. intros [_ H]. apply IH in H. lia.
Qed.

Lemma IndexByte_first s c k :
  0 <= k ->
  IndexByte s c = k <->
  s !! Z.to_nat k = Some c /\ forall j, (j < Z.to_nat k)%nat -> s !! j <> Some c.
Proof.
  revert k. induction s as [|x s IH]; intros k Hk; simpl.
  - split; [lia|]. by intros [? _].
  - destruct (x =? c) eqn:E.
    + apply Z.eqb_eq in E. subst x. split.
      * intros <-. split; [done|]. intros j Hj. simpl in Hj. lia.
      * intros [H1 H2]. destruct (Z.to_nat k) as [|k'] eqn:Ek; [lia|].
        exfalso. apply (H2 0%nat); [lia|done].
    + apply Z.eqb_neq in E.
      pose proof (IndexByte_range s c) as Hr.
      destruct (IndexByte s c <? 0) eqn:E'.
      * apply Z.ltb_lt in E'. split; [lia|]. intros [H1 H2].
        destruct (Z.to_nat k) as [|k'] eqn:Ek; simpl in H1; [congruence|].
        assert (IndexByte s c = Z.of_nat k') as Hx; [|lia].
        apply IH; [lia|]. rewrite Nat2Z.id. split; [done|].
        intros j Hj. apply (H2 (S j)). lia.
      * apply Z.ltb_ge in E'. split.
        -- intros Hx. assert (IndexByte s c = k - 1) as Hy by lia.
           apply IH in Hy as [H1 H2]; [|lia].
           replace (Z.to_nat k) with (S (Z.to_nat (k - 1))) by lia. split; [done|].
           intros [|j] Hj; simpl; [congruence|]. apply H2. lia.
        -- intros [H1 H2].
           destruct (Z.to_nat k) as [|k'] eqn:Ek; simpl in H1; [congruence|].
           assert (IndexByte s c = Z.of_nat k') as Hx; [|lia].
           apply IH; [lia|]. rewrite Nat2Z.id. split; [done|].
           intros j Hj. apply (H2 (S j)). lia.
Qed.

(** C3 (as amended).  At the loop head with current part [*] and scan
    position [si] inside the fragment: if the fragment has no separator at
    or after [si], the result is [(nil, true)] when [*] is the last part
    and [(parts[i:], true)] otherwise; if the first separator is at offset
    [k], matching continues with the next part at position [si + k + 1]. *)
Theorem matchParts_pwc (parts : list bytes) (frag : bytes) (i si : Z) :
  0 <= i -> parts !! Z.to_nat i = Some [pwc] -> 0 <= si < len frag ->
  (tsep ∉ drop (Z.to_nat si) frag ->
     matchParts_at parts frag i si =
       if i =? len parts - 1 then ([], true)
       else (drop (Z.to_nat i) parts, true)) /\
  (forall k, 0 <= k -> IndexByte (drop (Z.to_nat si) frag) tsep = k ->
     matchParts_at parts frag i si = matchParts_at parts frag (i + 1) (si + (k + 1))).
Proof.
  intros Hi Hp Hsi. unfold matchParts_at.
  rewrite (drop_lookup_cons _ _ _ Hp). simpl.
  replace (len frag <=? si) with false by (symmetry; apply Z.leb_gt; lia).
  change (len [pwc] =? 1) with true. change (byte_at [pwc] 0 =? pwc) with true.
  simpl. rewrite sub_to_end by lia. split.
  - intros Hno. apply IndexByte_absent in Hno.
    replace (IndexByte (drop (Z.to_nat si) frag) tsep <? 0) with true
      by (symmetry; apply Z.ltb_lt; lia).
    destruct (i =? len parts - 1); simpl; [done|].
    by rewrite (drop_lookup_cons _ _ _ Hp).
  - intros k Hk Hidx. rewrite Hidx.
    replace (k <? 0) with false by (symmetry; apply Z.ltb_ge; lia).
    by replace (Z.to_nat (i + 1)) with (S (Z.to_nat i)) by lia.
Qed.

Lemma matchParts_pwc_witness :
  matchParts_at [b "foo."; [pwc]; b "A"] (b "foo.bar.A") 1 4 =
    matchParts_at [b "foo."; [pwc]; b "A"] (b "foo.bar.A") 2 8 /\
  matchParts_at [b "foo."; [pwc]] (b "foo.bar") 1 4 = ([], true).
Proof.
  split.
  - apply (proj2 (matchParts_pwc [b "foo."; [pwc]; b "A"] (b "foo.bar.A") 1 4
             ltac:(lia) eq_refl ltac:(vm_compute; intuition congruence)) 3);
      [lia | reflexivity].
  - apply (proj1 (matchParts_pwc [b "foo."; [pwc]] (b "foo.bar") 1 4
             ltac:(lia) eq_refl ltac:(vm_compute; intuition congruence))).
    apply IndexByte_absent. vm_compute. reflexivity.
Defined.

(** With the empty fragment the call returns before the loop. *)
Lemma matchParts_pwc_empty_fragment :
  (tsep ∉ drop 0 ([] : bytes)) /\ matchParts [[pwc]] [] = ([[pwc]], true) /\
  matchParts [[pwc]] [] <> ([], true).
Proof. split; [apply not_elem_of_nil|]. split; [reflexivity|discriminate]. Qed.

(** The literal branch that stops inside a part. *)
Lemma matchParts_loop_partial frag lpi i part rest si :
  0 <= si < len frag -> len frag < si + len part ->
  sub part 0 (len frag - si) = sub frag si (len frag) ->
  matchParts_loop frag lpi i (part :: rest) si = RetCopy i (len frag - si).
Proof.
  intros Hsi Hlong Heq. simpl.
  replace (len frag <=? si) with false by (symmetry; apply Z.leb_gt; lia).
  replace (len part =? 1) with false by (symmetry; apply Z.eqb_neq; lia).
  simpl. rewrite Z.min_r by lia.
  replace (len frag <? si + len part) with true by (symmetry; apply Z.ltb_lt; lia).
  rewrite bool_decide_eq_true_2 by done. simpl.
  rewrite Z.ltb_irrefl. by rewrite Z.leb_refl.
Qed.

(** C4 (as amended).  When the literal part at index [i] agrees with the
    fragment up to its last byte and is longer than what is left of the
    fragment, [matchParts] returns [ok = true] and a slice of a newly
    allocated array: a copy of the parts in which the part at [i] is
    replaced by its unconsumed remainder, from index [i] on.  No array that
    existed before the call is written. *)
Theorem matchParts_partial_literal (h : store) (a : nat) (off n : Z)
    (frag : bytes) (i si : Z) (part : bytes) :
  let parts := Slice a off n in
  let ps := read_slice h parts in
  let rest := sub part (len frag - si) (len part) in
  0 <= i -> ps !! Z.to_nat i = Some part ->
  0 <= si < len frag -> len frag < si + len part ->
  sub part 0 (len frag - si) = sub frag si (len frag) ->
  exists h' a',
    matchPartsH_at h parts frag i si = (h', Slice a' i (len ps - i), true) /\
    (a' ∉ dom h) /\
    (forall x, x ∈ dom h -> h' !! x = h !! x) /\
    h' !! a' = Some (<[Z.to_nat i := rest]> ps) /\
    read_slice h' (Slice a' i (len ps - i)) = rest :: drop (S (Z.to_nat i)) ps.
Proof.
  intros parts ps rest Hi Hp Hsi Hlong Heq.
  assert (fresh_arr h ∉ dom h) as Hfresh by (unfold fresh_arr; apply is_fresh).
  assert (alter (fun p => sub p (len frag - si) (len p)) (Z.to_nat i) ps
          = <[Z.to_nat i := rest]> ps) as Halt.
  { apply list_eq. intros j. destruct (decide (j = Z.to_nat i)) as [->|Hne].
    - rewrite list_lookup_alter_eq, Hp, list_lookup_insert_eq; [done|].
      by apply lookup_lt_Some in Hp.
    - by rewrite list_lookup_alter_ne, list_lookup_insert_ne. }
  exists (<[fresh_arr h := <[Z.to_nat i := rest]> ps]> h), (fresh_arr h).
  split; [|split; [done|split; [|split]]].
  - unfold matchPartsH_at. fold ps.
    rewrite (drop_lookup_cons _ _ _ Hp).
    rewrite matchParts_loop_partial by done.
    unfold denoteH. fold ps. rewrite Halt. simpl.
    replace (len (<[Z.to_nat i:=rest]> ps)) with (len ps)
      by (unfold len; by rewrite length_insert).
    by replace (0 + i) with i by lia.
  - intros x Hx. apply lookup_insert_ne. by intros <-.
  - apply lookup_insert_eq.
  - unfold read_slice. rewrite lookup_insert_eq. simpl.
    replace (i + (len ps - i)) with (len (<[Z.to_nat i := rest]> ps))
      by (unfold len; rewrite length_insert; lia).
    rewrite sub_to_end by lia. rewrite <- Halt.
    by rewrite (drop_alter_here (fun p => sub p (len frag - si) (len p)) ps _ part Hp).
Qed.

Lemma matchParts_partial_literal_witness :
  let h : store := {[ 7%nat := [b "foo.bar"; [pwc]] ]} in
  let ps := read_slice h (Slice 7 0 2) in
  let rest := sub (b "foo.bar") (len (b "foo") - 0) (len (b "foo.bar")) in
  exists h' a',
    matchPartsH_at h (Slice 7 0 2) (b "foo") 0 0
      = (h', Slice a' 0 (len ps - 0), true) /\
    (a' ∉ dom h) /\
    (forall x, x ∈ dom h -> h' !! x = h !! x) /\
    h' !! a' = Some (<[Z.to_nat 0 := rest]> ps) /\
    read_slice h' (Slice a' 0 (len ps - 0)) = rest :: drop (S (Z.to_nat 0)) ps.
Proof.
  intros h ps rest.
  apply (matchParts_partial_literal h 7 0 2 (b "foo") 0 0 (b "foo.bar"));
    [lia | reflexivity | | | reflexivity].
  - vm_compute. intuition congruence.
  - vm_compute. reflexivity.
Defined.

(** The part is not truncated to the consumed prefix. *)
Lemma matchParts_partial_keeps_remainder :
  matchParts [b "foo.bar"] (b "foo") = ([b ".bar"], true) /\
  matchParts [b "foo.bar"] (b "foo") <> ([b "foo"], true).
Proof. split; [reflexivity|]. vm_compute. congruence. Qed.

(** The index a [return] of the loop mentions is an index of the parts. *)
Lemma matchParts_loop_index frag lpi i rest si :
  match matchParts_loop frag lpi i rest si with
  | RetFrom i' => i <= i' <= i + len rest
  | RetCopy i' _ => i <= i' < i + len rest
  | _ => True
  end.
Proof.
  revert i si. induction rest as [|part rest IH]; intros i si; [done|].
  unfold len in *. cbn [matchParts_loop length].
  assert (forall si', match matchParts_loop frag lpi (i + 1) rest si' with
                      | RetFrom i' => i <= i' <= i + Z.of_nat (S (length rest))
                      | RetCopy i' _ => i <= i' < i + Z.of_nat (S (length rest))
                      | _ => True
                      end) as Hrec.
  { intros si'. specialize (IH (i + 1) si').
    destruct (matchParts_loop frag lpi (i + 1) rest si'); try done; lia. }
  repeat match goal with
  | |- context [if ?c then _ else _] => destruct c
  end; try done; try apply Hrec; lia.
Qed.

Lemma sub_drop {A} (s : list A) lo hi i :
  0 <= lo -> 0 <= i -> lo + i <= hi ->
  drop (Z.to_nat i) (sub s lo hi) = sub s (lo + i) hi.
Proof.
  intros Hlo Hi Hhi. unfold sub.
  replace (Z.to_nat (hi - lo)) with (Z.to_nat i + Z.to_nat (hi - (lo + i)))%nat by lia.
  rewrite <- take_drop_commute, drop_drop. do 2 f_equal. lia.
Qed.

(** The two readings of [matchParts] agree: the slice returned, read in
    the store after the call, holds the parts of the value semantics. *)
Theorem matchPartsH_refines (h : store) (a : nat) (off n : Z) (frag : bytes) :
  0 <= off -> 0 <= n ->
  let '(h', s', ok) := matchPartsH h (Slice a off n) frag in
  (read_slice h' s', ok) = matchParts (read_slice h (Slice a off n)) frag.
Proof.
  intros Hoff Hn. unfold matchPartsH, matchParts, matchParts_run.
  set (ps := read_slice h (Slice a off n)).
  assert (len ps <= n) as Hps.
  { subst ps. unfold read_slice, sub, len. rewrite length_take. lia. }
  destruct (len frag =? 0); [done|].
  pose proof (matchParts_loop_index frag (len ps - 1) 0 ps 0) as Hidx.
  destruct (matchParts_loop frag (len ps - 1) 0 ps 0) as [| | |i|i k];
    cbn [denoteH denote]; try done.
  - (* parts[i:] *)
    f_equal. cbn [slice_from read_slice]. subst ps. cbn [read_slice].
    rewrite sub_drop by lia. f_equal; lia.
  - (* the copy *)
    f_equal. fold ps. cbn [slice_from read_slice].
    rewrite lookup_insert_eq. cbn [default].
    replace (0 + i + (len (alter (fun p => sub p k (len p)) (Z.to_nat i) ps) - i))
      with (len (alter (fun p => sub p k (len p)) (Z.to_nat i) ps)) by lia.
    rewrite sub_to_end by lia. f_equal; lia.
Qed.

(** Only the truncating branch allocates: every other [return] leaves the
    store as it was and returns [nil] or a slice of the array of its
    argument. *)
Theorem matchPartsH_shares (h : store) (a : nat) (off n : Z) (frag : bytes) :
  (forall i k, matchParts_run (read_slice h (Slice a off n)) frag <> RetCopy i k) ->
  exists s' ok, matchPartsH h (Slice a off n) frag = (h, s', ok) /\
    (s' = NilSlice \/ exists off' n', s' = Slice a off' n').
Proof.
  intros Hno. unfold matchPartsH.
  destruct (matchParts_run (read_slice h (Slice a off n)) frag) as [| | |i|i k];
    cbn [denoteH slice_from]; eauto 10.
  by destruct (Hno i k).
Qed.

(** ** Node variants *)

Section Small.
Context {N : Type}.
Implicit Types n : snode N.

(** The scan of [findChild], from index [i], [m] entries. *)
Lemma find_scan n c (m : nat) (i : Z) :
  0 <= i ->
  (Z.to_nat i + m <= length (s_key n))%nat ->
  (Z.to_nat i + m <= length (s_child n))%nat ->
  for_range m i
    (fun i (_ : unit) =>
       k ← idx (s_key n) i;
       if k =? c then ch ← idx (s_child n) i; Ret (inr ch)
       else Ret (inl tt)) tt
  = Ret (match lookup_kv c (zip (take m (drop (Z.to_nat i) (s_key n)))
                                 (take m (drop (Z.to_nat i) (s_child n)))) with
         | Some ch => inr ch
         | None => inl tt
         end).
Proof.
  revert i. induction m as [|m IH]; intros i Hi Hk Hc; [done|].
  destruct (lookup_lt_is_Some_2 (s_key n) (Z.to_nat i)) as [k Hki]; [lia|].
  destruct (lookup_lt_is_Some_2 (s_child n) (Z.to_nat i)) as [ch Hci]; [lia|].
  rewrite (drop_S _ _ _ Hki), (drop_S _ _ _ Hci).
  cbn [for_range take zip zip_with lookup_kv].
  rewrite (idx_Ret _ _ _ Hi Hki). cbn [mbind outcome_bind].
  destruct (k =? c).
  - by rewrite (idx_Ret _ _ _ Hi Hci).
  - cbn [mbind outcome_bind]. rewrite IH by lia.
    by replace (Z.to_nat (i + 1)) with (S (Z.to_nat i)) by lia.
Qed.

Lemma findChildS_spec n c :
  0 <= s_size n <= len (s_key n) -> s_size n <= len (s_child n) ->
  findChildS n c = Ret (lookup_kv c (absS n)).
Proof.
  intros Hk Hc. unfold findChildS, absS.
  rewrite (find_scan n c (Z.to_nat (s_size n)) 0) by (unfold len in *; lia).
  cbn [mbind outcome_bind]. change (Z.to_nat 0) with 0%nat. rewrite !drop_0.
  by destruct (lookup_kv _ _).
Qed.

Lemma copy_scan {M} (add : M -> Z -> option N -> outcome M) n (m : nat) (i : Z) nn :
  0 <= i ->
  (Z.to_nat i + m <= length (s_key n))%nat ->
  (Z.to_nat i + m <= length (s_child n))%nat ->
  for_count m i
    (fun i nn => k ← idx (s_key n) i; ch ← idx (s_child n) i; add nn k ch) nn
  = add_all add (zip (take m (drop (Z.to_nat i) (s_key n)))
                     (take m (drop (Z.to_nat i) (s_child n)))) nn.
Proof.
  revert i nn. induction m as [|m IH]; intros i nn Hi Hk Hc; [done|].
  destruct (lookup_lt_is_Some_2 (s_key n) (Z.to_nat i)) as [k Hki]; [lia|].
  destruct (lookup_lt_is_Some_2 (s_child n) (Z.to_nat i)) as [ch Hci]; [lia|].
  rewrite (drop_S _ _ _ Hki), (drop_S _ _ _ Hci).
  cbn [for_count take zip zip_with add_all].
  rewrite (idx_Ret _ _ _ Hi Hki). cbn [mbind outcome_bind].
  rewrite (idx_Ret _ _ _ Hi Hci). cbn [mbind outcome_bind].
  destruct (add nn k ch) as [nn'|]; [|done]. cbn [mbind outcome_bind].
  rewrite IH by lia.
  by replace (Z.to_nat (i + 1)) with (S (Z.to_nat i)) by lia.
Qed.

Lemma copy_into_spec {M} (add : M -> Z -> option N -> outcome M) n count nn :
  0 <= count <= len (s_key n) -> count <= len (s_child n) ->
  copy_into add n count nn
  = add_all add (zip (take (Z.to_nat count) (s_key n))
                     (take (Z.to_nat count) (s_child n))) nn.
Proof.
  intros Hk Hc. unfold copy_into.
  rewrite (copy_scan add n (Z.to_nat count) 0) by (unfold len in *; lia).
  change (Z.to_nat 0) with 0%nat. by rewrite !drop_0.
Qed.
End Small.

Section SmallAdd.
Context {N : Type}.
Implicit Types n nn : snode N.

Lemma absS_new cap (p : bytes) : absS (newS (N := N) cap p) = [].
Proof. done. Qed.

Lemma typedS_new cap (p : bytes) : 0 <= cap -> typedS (N := N) cap (newS cap p).
Proof.
  intros Hc. unfold typedS, newS, len. simpl. rewrite !length_replicate. lia.
Qed.

Lemma addChildS_spec cap nn k v :
  typedS cap nn -> s_size nn < cap -> cap < 65536 ->
  exists n', addChildS cap nn k v = Ret n' /\
    absS n' = absS nn ++ [(k, v)] /\ typedS cap n' /\
    s_size n' = s_size nn + 1 /\ s_prefix n' = s_prefix nn.
Proof.
  intros (Hc & Hk & Hs) Hlt Hcap. unfold addChildS.
  replace (cap <=? s_size nn) with false by (symmetry; apply Z.leb_gt; lia).
  rewrite !upd_Ret by lia. cbn [mbind outcome_bind].
  rewrite u16_small by lia.
  eexists. split; [done|]. unfold typedS, absS, len in *. cbn.
  rewrite !length_insert.
  split; [|split; [lia|split; done]].
  replace (Z.to_nat (s_size nn + 1)) with (S (Z.to_nat (s_size nn))) by lia.
  rewrite (take_S_r _ _ k), (take_S_r _ _ v)
    by (apply list_lookup_insert_eq; lia).
  rewrite !take_insert_ge by lia.
  rewrite zip_with_app; [done|].
  rewrite !length_take. lia.
Qed.

Lemma add_all_S cap kvs nn :
  typedS cap nn -> s_size nn + len kvs <= cap -> cap < 65536 ->
  exists n', add_all (addChildS cap) kvs nn = Ret n' /\
    absS n' = absS nn ++ kvs /\ typedS cap n' /\
    s_size n' = s_size nn + len kvs /\ s_prefix n' = s_prefix nn.
Proof.
  revert nn. induction kvs as [|[k v] kvs IH]; intros nn Ht Hs Hcap.
  - exists nn. rewrite app_nil_r. unfold len. simpl. repeat split; try done; try apply Ht. lia.
  - unfold len in *. simpl in Hs.
    destruct (addChildS_spec cap nn k v) as (n1 & E1 & A1 & T1 & S1 & P1); [done|lia|done|].
    destruct (IH n1) as (n2 & E2 & A2 & T2 & S2 & P2); [done|lia|done|].
    exists n2. cbn [add_all]. rewrite E1. cbn [mbind outcome_bind].
    split; [done|]. rewrite A2, A1, <- app_assoc. simpl.
    repeat split; try done; try apply T2; [lia|congruence].
Qed.

Lemma growS_full cap cap' n :
  typedS cap n -> s_size n = cap -> cap <= cap' -> cap' < 65536 ->
  exists n', growS cap cap' n = Ret n' /\
    absS n' = absS n /\ typedS cap' n' /\
    s_size n' = s_size n /\ s_prefix n' = s_prefix n.
Proof.
  intros (Hc & Hk & Hs) Hfull Hle Hcap. unfold growS.
  rewrite copy_into_spec by lia.
  destruct (add_all_S cap'
              (zip (take (Z.to_nat cap) (s_key n)) (take (Z.to_nat cap) (s_child n)))
              (newS cap' (s_prefix n))) as (n' & E & A & T & S & P).
  - apply typedS_new. lia.
  - unfold len in *. rewrite length_zip_with, !length_take. simpl. lia.
  - done.
  - exists n'. split; [done|]. rewrite A, absS_new. unfold absS. rewrite Hfull.
    repeat split; try done; try apply T.
    rewrite S. unfold len in *. rewrite length_zip_with, !length_take. simpl. lia.
Qed.

Lemma shrinkS_spec thr n :
  0 <= s_size n <= len (s_key n) -> s_size n <= len (s_child n) ->
  0 <= thr < 65536 ->
  if thr <? s_size n then shrinkS thr n = Ret None
  else exists n', shrinkS thr n = Ret (Some n') /\
    absS n' = absS n /\ typedS thr n' /\
    s_size n' = s_size n /\ s_prefix n' = [].
Proof.
  intros Hk Hc Hthr. unfold shrinkS.
  destruct (thr <? s_size n) eqn:E; [done|]. apply Z.ltb_ge in E.
  rewrite copy_into_spec by lia.
  destruct (add_all_S thr
              (zip (take (Z.to_nat (s_size n)) (s_key n))
                   (take (Z.to_nat (s_size n)) (s_child n)))
              (newS thr [])) as (n' & E' & A & T & S & P).
  - apply typedS_new. lia.
  - unfold len in *. rewrite length_zip_with, !length_take. simpl. lia.
  - lia.
  - exists n'. rewrite E'. cbn [mbind outcome_bind]. split; [done|].
    rewrite A, absS_new.
    repeat split; try done; try apply T.
    rewrite S. unfold len in *. rewrite length_zip_with, !length_take. simpl. lia.
Qed.
End SmallAdd.

Section Node48Facts.
Context {N : Type}.
Implicit Types n nn : node48 N.

Lemma key_at_range n c : inv48 n -> is_byte c -> 0 <= key_at n c <= size48 n.
Proof.
  intros I Hc. pose proof (inv_size n I).
  destruct (inv_pos n I c Hc) as [->|[? _]]; lia.
Qed.

Lemma findChild48_inv n c :
  inv48 n -> is_byte c ->
  findChild48 n c
  = Ret (if key_at n c =? 0 then None else Some (child_at n (key_at n c - 1))).
Proof.
  intros I Hc. unfold findChild48.
  pose proof (key_at_range n c I Hc) as Hr. pose proof (inv_size n I) as Hs.
  rewrite (idx_default _ _ 0) by (rewrite (inv_key_len n I); apply Hc).
  cbn [mbind outcome_bind]. fold (key_at n c).
  destruct (key_at n c =? 0) eqn:E; [done|]. apply Z.eqb_neq in E.
  rewrite (idx_default _ _ None) by (rewrite (inv_child_len n I); lia).
  done.
Qed.


Lemma addChild48_Ret nn k v :
  inv48 nn -> size48 nn < 48 -> is_byte k ->
  addChild48 nn k v = Ret (added48 nn k v).
Proof.
  intros I Hlt Hk. unfold addChild48. pose proof (inv_size nn I).
  pose proof (inv_child_len nn I). pose proof (inv_key_len nn I).
  unfold is_byte in Hk.
  replace (48 <=? size48 nn) with false by (symmetry; apply Z.leb_gt; lia).
  rewrite upd_Ret by lia. cbn [mbind outcome_bind].
  rewrite upd_Ret by lia. cbn [mbind outcome_bind].
  rewrite u8_small, u16_small by lia. done.
Qed.

Lemma key_at_added nn k v c :
  inv48 nn -> is_byte k -> 0 <= c ->
  key_at (added48 nn k v) c
  = if decide (c = k) then size48 nn + 1 else key_at nn c.
Proof.
  intros I Hk Hc. unfold key_at, added48. cbn.
  apply get_insert; [rewrite (inv_key_len nn I); apply Hk|done].
Qed.

Lemma child_at_added nn k v i :
  inv48 nn -> size48 nn < 48 -> 0 <= i ->
  child_at (added48 nn k v) i
  = if decide (i = size48 nn) then v else child_at nn i.
Proof.
  intros I Hlt Hi. unfold child_at, added48. cbn. pose proof (inv_size nn I).
  apply get_insert; [rewrite (inv_child_len nn I); lia|done].
Qed.

Lemma addChild48_inv nn k x :
  inv48 nn -> size48 nn < 48 -> is_byte k -> key_at nn k = 0 ->
  inv48 (added48 nn k (Some x)).
Proof.
  intros I Hlt Hk Hfree. pose proof (inv_size nn I) as Hs.
  constructor.
  - cbn. rewrite len_insert. apply I.
  - cbn. rewrite len_insert. apply I.
  - cbn. lia.
  - intros c Hc. rewrite key_at_added by (done || apply Hc). cbn [size48 added48].
    case_decide as E.
    + right. split; [lia|]. rewrite child_at_added by (done || lia).
      rewrite decide_True by lia. done.
    + destruct (inv_pos nn I c Hc) as [->|[Hr Hch]]; [by left|right].
      split; [lia|]. rewrite child_at_added by (done || lia).
      rewrite decide_False by lia. done.
  - intros c c' Hc Hc' Hne. rewrite !key_at_added by (done || apply Hc || apply Hc').
    pose proof (key_at_range nn c I Hc). pose proof (key_at_range nn c' I Hc').
    repeat case_decide; try lia. intros. by apply (inv_inj nn I).
  - intros i Hi. rewrite child_at_added by (done || lia). cbn [size48 added48].
    case_decide as E.
    + subst. split; [lia|done].
    + rewrite (inv_dense nn I i Hi). lia.
Qed.

Lemma addChild48_onto nn k x :
  wf48 nn -> size48 nn < 48 -> is_byte k -> key_at nn k = 0 ->
  wf48 (added48 nn k (Some x)).
Proof.
  intros [I Honto] Hlt Hk Hfree. split; [by apply addChild48_inv|].
  cbn [size48 added48]. intros i Hi.
  destruct (decide (i = size48 nn + 1)) as [->|Hne].
  - exists k. split; [done|]. rewrite key_at_added by (done || apply Hk).
    by rewrite decide_True.
  - destruct (Honto i) as (c & Hc & Hkc); [lia|]. exists c. split; [done|].
    rewrite key_at_added by (done || apply Hc).
    rewrite decide_False; [done|]. intros ->. lia.
Qed.

Lemma findChild48_added nn k x c :
  inv48 nn -> size48 nn < 48 -> is_byte k -> key_at nn k = 0 -> is_byte c ->
  findChild48 (added48 nn k (Some x)) c
  = if decide (c = k) then Ret (Some (Some x)) else findChild48 nn c.
Proof.
  intros I Hlt Hk Hfree Hc.
  rewrite (findChild48_inv (added48 _ _ _)) by (done || by apply addChild48_inv).
  rewrite (findChild48_inv nn) by done.
  rewrite key_at_added by (done || apply Hc).
  pose proof (key_at_range nn c I Hc). pose proof (inv_size nn I).
  case_decide as E.
  - replace (size48 nn + 1 =? 0) with false by (symmetry; apply Z.eqb_neq; lia).
    rewrite child_at_added by (done || lia). by rewrite decide_True by lia.
  - destruct (key_at nn c =? 0) eqn:E0; [done|]. apply Z.eqb_neq in E0.
    rewrite child_at_added by (done || lia). by rewrite decide_False by lia.
Qed.
End Node48Facts.

Section Repair.
Context {N : Type}.

Lemma repair_length (key : list Z) from to :
  length (repair key from to) = length key.
Proof.
  induction key as [|a key IH]; [done|]. simpl.
  destruct (a =? from); simpl; congruence.
Qed.

Lemma repair_lookup (key : list Z) from to j :
  (forall p q, key !! p = Some from -> key !! q = Some from -> p = q) ->
  repair key from to !! j
  = (fun x => if x =? from then to else x) <$> key !! j.
Proof.
  revert j. induction key as [|a key IH]; intros j Huniq; [done|].
  simpl. destruct (a =? from) eqn:E.
  - apply Z.eqb_eq in E. subst a. destruct j as [|j]; simpl.
    + by rewrite Z.eqb_refl.
    + destruct (key !! j) as [x|] eqn:Ej; [|done]. simpl.
      destruct (x =? from) eqn:Ex; [|done]. apply Z.eqb_eq in Ex. subst x.
      specialize (Huniq 0%nat (S j) eq_refl Ej). lia.
  - destruct j as [|j]; simpl; [by rewrite E|].
    apply IH. intros p q Hp Hq.
    specialize (Huniq (S p) (S q) Hp Hq). lia.
Qed.
End Repair.


(** Lengths of updated arrays. *)
Ltac len_solve :=
  unfold len, is_byte in *; rewrite ?length_insert, ?repair_length; lia.

Section Delete48.
Context {N : Type}.
Implicit Types n : node48 N.


Lemma deleteChild48_absent n c :
  inv48 n -> is_byte c -> key_at n c = 0 -> deleteChild48 n c = Ret n.
Proof.
  intros I Hc H0. unfold deleteChild48.
  rewrite (idx_default _ _ 0) by (rewrite (inv_key_len n I); apply Hc).
  cbn [mbind outcome_bind]. fold (key_at n c). by rewrite H0.
Qed.

Lemma deleteChild48_Ret n c :
  inv48 n -> is_byte c -> key_at n c <> 0 ->
  deleteChild48 n c = Ret (deleted48 n c).
Proof.
  intros I Hc Hk. unfold deleteChild48, deleted48.
  pose proof (inv_size n I). pose proof (inv_child_len n I) as Hcl.
  pose proof (inv_key_len n I) as Hkl.
  pose proof (key_at_range n c I Hc). unfold is_byte in Hc.
  rewrite (idx_default _ _ 0) by lia.
  cbn [mbind outcome_bind]. fold (key_at n c).
  replace (key_at n c =? 0) with false by (symmetry; apply Z.eqb_neq; lia).
  rewrite (u16_small (size48 n - 1)) by lia.
  rewrite !u8_small by lia.
  destruct (key_at n c - 1 <? size48 n - 1) eqn:E.
  - apply Z.ltb_lt in E.
    rewrite (idx_default _ _ None) by lia. cbn [mbind outcome_bind].
    rewrite upd_Ret by lia. cbn [mbind outcome_bind].
    rewrite upd_Ret by len_solve. cbn [mbind outcome_bind].
    rewrite upd_Ret by len_solve.
    cbn [mbind outcome_bind]. done.
  - cbn [mbind outcome_bind].
    rewrite upd_Ret by lia. cbn [mbind outcome_bind].
    rewrite upd_Ret by lia.
    cbn [mbind outcome_bind]. done.
Qed.

Lemma key_unique n x p q :
  inv48 n -> x <> 0 ->
  key48 n !! p = Some x -> key48 n !! q = Some x -> p = q.
Proof.
  intros I Hx Hp Hq.
  pose proof (inv_key_len n I) as Hkl. unfold len in Hkl.
  pose proof (lookup_lt_Some _ _ _ Hp). pose proof (lookup_lt_Some _ _ _ Hq).
  destruct (decide (p = q)) as [|Hne]; [done|exfalso].
  apply (inv_inj n I (Z.of_nat p) (Z.of_nat q)); unfold is_byte, key_at;
    rewrite ?Nat2Z.id, ?Hp, ?Hq; simpl; try lia.
Qed.

Lemma key_at_deleted n c c' :
  inv48 n -> is_byte c -> key_at n c <> 0 -> is_byte c' ->
  key_at (deleted48 n c) c'
  = if decide (c' = c) then 0
    else if decide (key_at n c' = size48 n) then key_at n c
    else key_at n c'.
Proof.
  intros I Hc Hk Hc'. unfold deleted48.
  pose proof (inv_size n I). pose proof (inv_key_len n I) as Hkl.
  pose proof (key_at_range n c I Hc).
  unfold key_at at 1. cbn [key48]. unfold is_byte in *.
  destruct (key_at n c - 1 <? size48 n - 1) eqn:E.
  - apply Z.ltb_lt in E.
    rewrite get_insert by (unfold len in *; rewrite ?repair_length; lia).
    case_decide; [done|].
    rewrite repair_lookup by (intros p q; apply key_unique; [done|lia]).
    fold (key_at n c'). unfold key_at.
    destruct (lookup_lt_is_Some_2 (key48 n) (Z.to_nat c')) as [x Hx];
      [unfold len in *; lia|].
    rewrite Hx. simpl.
    replace (size48 n - 1 + 1) with (size48 n) by lia.
    destruct (x =? size48 n) eqn:Ex.
    + apply Z.eqb_eq in Ex. rewrite decide_True by done. lia.
    + apply Z.eqb_neq in Ex. by rewrite decide_False.
  - apply Z.ltb_ge in E.
    rewrite get_insert by lia.
    case_decide; [done|]. fold (key_at n c').
    case_decide as E2; [|done].
    (* then c' and c have the same entry: impossible *)
    exfalso. apply (inv_inj n I c c'); unfold is_byte; try lia.
Qed.

Lemma child_at_deleted n c i :
  inv48 n -> is_byte c -> key_at n c <> 0 -> 0 <= i < 48 ->
  child_at (deleted48 n c) i
  = if decide (i = size48 n - 1) then None
    else if decide (i = key_at n c - 1) then child_at n (size48 n - 1)
    else child_at n i.
Proof.
  intros I Hc Hk Hi. unfold deleted48.
  pose proof (inv_size n I). pose proof (inv_child_len n I) as Hcl.
  pose proof (key_at_range n c I Hc).
  unfold child_at at 1. cbn [child48].
  destruct (key_at n c - 1 <? size48 n - 1) eqn:E.
  - apply Z.ltb_lt in E.
    rewrite get_insert by (rewrite ?len_insert; lia).
    case_decide; [done|].
    rewrite get_insert by lia. done.
  - apply Z.ltb_ge in E.
    rewrite get_insert by lia.
    case_decide; [done|]. rewrite decide_False by lia. done.
Qed.

Lemma deleteChild48_inv n c :
  inv48 n -> is_byte c -> key_at n c <> 0 -> inv48 (deleted48 n c).
Proof.
  intros I Hc Hk.
  pose proof (inv_size n I) as Hs. pose proof (key_at_range n c I Hc) as Hr.
  assert (is_Some (child_at n (size48 n - 1))) as Hlast
    by (apply (inv_dense n I); lia).
  constructor.
  - unfold deleted48. cbn. rewrite len_insert.
    destruct (_ <? _); rewrite ?len_insert; apply I.
  - unfold deleted48. cbn. rewrite len_insert.
    destruct (_ <? _); [|apply I].
    unfold len. rewrite repair_length. apply I.
  - unfold deleted48. cbn. lia.
  - intros c' Hc'. rewrite key_at_deleted by done.
    change (size48 (deleted48 n c)) with (size48 n - 1).
    pose proof (key_at_range n c' I Hc').
    case_decide as E1; [by left|].
    assert (key_at n c' <> key_at n c) as Hne.
    { intros Heq. apply (inv_inj n I c c'); auto. }
    case_decide as E2.
    + right. split; [lia|]. rewrite child_at_deleted by (done || lia).
      rewrite decide_False by lia. by rewrite decide_True.
    + destruct (inv_pos n I c' Hc') as [->|[Hr' Hch]]; [by left|right].
      split; [lia|]. rewrite child_at_deleted by (done || lia).
      rewrite !decide_False by lia. done.
  - intros c1 c2 H1 H2 Hne. rewrite !key_at_deleted by done.
    pose proof (key_at_range n c1 I H1). pose proof (key_at_range n c2 I H2).
    assert (c1 <> c -> key_at n c1 <> key_at n c) as Hc1
      by (intros ? Heq; apply (inv_inj n I c c1); auto).
    assert (c2 <> c -> key_at n c2 <> key_at n c) as Hc2
      by (intros ? Heq; apply (inv_inj n I c c2); auto).
    pose proof (inv_inj n I c1 c2 H1 H2 Hne) as H12.
    repeat case_decide; lia.
  - intros i Hi. rewrite child_at_deleted by done.
    change (size48 (deleted48 n c)) with (size48 n - 1).
    repeat case_decide; subst.
    + split; [by intros [? ?]|lia].
    + split; [lia|done].
    + rewrite (inv_dense n I i Hi). lia.
Qed.

Lemma deleteChild48_onto n c :
  wf48 n -> is_byte c -> key_at n c <> 0 -> wf48 (deleted48 n c).
Proof.
  intros [I Honto] Hc Hk. split; [by apply deleteChild48_inv|].
  change (size48 (deleted48 n c)) with (size48 n - 1). intros i Hi.
  pose proof (key_at_range n c I Hc) as Hr.
  destruct (decide (i = key_at n c)) as [->|Hne].
  - destruct (Honto (size48 n)) as (cl & Hcl & Hkl); [lia|].
    exists cl. split; [done|]. rewrite key_at_deleted by done.
    rewrite decide_False by (intros ->; lia). by rewrite decide_True.
  - destruct (Honto i) as (c' & Hc' & Hk'); [lia|].
    exists c'. split; [done|]. rewrite key_at_deleted by done.
    rewrite decide_False by (intros ->; lia).
    by rewrite decide_False by lia.
Qed.

(** The mapping after a deletion: [c] is gone, every other byte keeps
    its child, also the one whose child moved. *)
Lemma findChild48_deleted n c c' :
  inv48 n -> is_byte c -> key_at n c <> 0 -> is_byte c' ->
  findChild48 (deleted48 n c) c'
  = if decide (c' = c) then Ret None else findChild48 n c'.
Proof.
  intros I Hc Hk Hc'.
  rewrite (findChild48_inv (deleted48 _ _)) by (done || by apply deleteChild48_inv).
  rewrite (findChild48_inv n) by done.
  rewrite key_at_deleted by done.
  pose proof (inv_size n I) as Hs.
  pose proof (key_at_range n c I Hc). pose proof (key_at_range n c' I Hc').
  case_decide as E1; [done|].
  assert (key_at n c' <> key_at n c) as Hne.
  { intros Heq. apply (inv_inj n I c c'); auto. }
  case_decide as E2.
  - replace (key_at n c =? 0) with false by (symmetry; apply Z.eqb_neq; lia).
    replace (key_at n c' =? 0) with false by (symmetry; apply Z.eqb_neq; lia).
    rewrite child_at_deleted by (done || lia).
    rewrite decide_False by lia. rewrite decide_True by done. by rewrite E2.
  - destruct (key_at n c' =? 0) eqn:E0; [done|]. apply Z.eqb_neq in E0.
    rewrite child_at_deleted by (done || lia).
    by rewrite !decide_False by lia.
Qed.
End Delete48.

Section Table48.
Context {N : Type}.
Implicit Types n : node48 N.
Implicit Types child : list (option N).

Lemma lookup_table48 key c0 child c :
  lookup_kv c (table48 key c0 child)
  = match (if c0 <=? c then key !! Z.to_nat (c - c0) else None) with
    | Some i => if 0 <? i then Some (default None (child !! Z.to_nat (i - 1)))
                else None
    | None => None
    end.
Proof.
  revert c0. induction key as [|i key IH]; intros c0.
  - simpl. by destruct (c0 <=? c).
  - cbn [table48].
    assert (lookup_kv c (table48 key (c0 + 1) child)
            = if c0 =? c then None
              else match (if c0 <=? c then (i :: key) !! Z.to_nat (c - c0) else None) with
                   | Some i => if 0 <? i
                               then Some (default None (child !! Z.to_nat (i - 1)))
                               else None
                   | None => None
                   end) as Hrest.
    { rewrite IH. destruct (c0 =? c) eqn:E.
      - apply Z.eqb_eq in E. subst.
        by replace (c + 1 <=? c) with false by (symmetry; apply Z.leb_gt; lia).
      - apply Z.eqb_neq in E. destruct (c0 <=? c) eqn:E1.
        + apply Z.leb_le in E1.
          replace (c0 + 1 <=? c) with true by (symmetry; apply Z.leb_le; lia).
          by replace (Z.to_nat (c - c0)) with (S (Z.to_nat (c - (c0 + 1)))) by lia.
        + apply Z.leb_gt in E1.
          by replace (c0 + 1 <=? c) with false by (symmetry; apply Z.leb_gt; lia). }
    destruct (0 <? i) eqn:Ei; cbn [app lookup_kv]; rewrite Hrest.
    + destruct (c0 =? c) eqn:E; [|done]. apply Z.eqb_eq in E. subst.
      rewrite Z.leb_refl, Z.sub_diag. simpl. by rewrite Ei.
    + destruct (c0 =? c) eqn:E; [|done]. apply Z.eqb_eq in E. subst.
      rewrite Z.leb_refl, Z.sub_diag. simpl. by rewrite Ei.
Qed.

Lemma findChild48_spec n c :
  inv48 n -> is_byte c -> findChild48 n c = Ret (lookup_kv c (abs48 n)).
Proof.
  intros I Hc. rewrite findChild48_inv by done. f_equal.
  unfold abs48. rewrite lookup_table48.
  replace (0 <=? c) with true by (symmetry; apply Z.leb_le; apply Hc).
  rewrite Z.sub_0_r. pose proof (key_at_range n c I Hc) as Hr.
  unfold key_at in *.
  destruct (lookup_lt_is_Some_2 (key48 n) (Z.to_nat c)) as [i Hi].
  { pose proof (inv_key_len n I). unfold len, is_byte in *. lia. }
  rewrite Hi in *. simpl in *.
  destruct (i =? 0) eqn:E.
  - apply Z.eqb_eq in E. by subst.
  - apply Z.eqb_neq in E.
    by replace (0 <? i) with true by (symmetry; apply Z.ltb_lt; lia).
Qed.

Lemma table48_keys key c0 child kv :
  kv ∈ table48 key c0 child -> c0 <= kv.1 < c0 + len key.
Proof.
  revert c0. induction key as [|i key IH]; intros c0; simpl.
  - by intros ?%elem_of_nil.
  - unfold len in *. intros [H|H]%elem_of_app.
    + destruct (0 <? i); [|by apply elem_of_nil in H].
      apply list_elem_of_singleton in H. subst. simpl. lia.
    + apply IH in H. simpl. lia.
Qed.

Lemma table48_NoDup key c0 child : NoDup (table48 key c0 child).*1.
Proof.
  revert c0. induction key as [|i key IH]; intros c0; simpl; [constructor|].
  destruct (0 <? i); simpl; [|apply IH].
  constructor; [|apply IH].
  intros ([k v] & -> & Hin%table48_keys)%list_elem_of_fmap. simpl in Hin. lia.
Qed.

Lemma table48_length key c0 child :
  length (table48 key c0 child) = length (filter (fun i => 0 < i) key).
Proof.
  revert c0. induction key as [|i key IH]; intros c0; [done|]. simpl.
  rewrite filter_cons. destruct (0 <? i) eqn:E.
  - apply Z.ltb_lt in E. rewrite decide_True by done. simpl. by rewrite IH.
  - apply Z.ltb_ge in E. rewrite decide_False by lia. simpl. by rewrite IH.
Qed.

Lemma table48_elem n c v :
  inv48 n -> (c, v) ∈ abs48 n ->
  is_byte c /\ 0 < key_at n c /\ v = child_at n (key_at n c - 1).
Proof.
  intros I Hin. pose proof (inv_key_len n I) as Hkl.
  pose proof (table48_keys _ _ _ _ Hin) as Hr. simpl in Hr.
  assert (is_byte c) as Hc by (unfold is_byte; lia). split; [done|].
  assert (lookup_kv c (abs48 n) = Some v) as Hl.
  { pose proof (table48_NoDup (key48 n) 0 (child48 n)) as Hnd.
    fold (abs48 n) in Hnd. revert Hin Hnd. generalize (abs48 n).
    induction l as [|[k w] l IH]; [by intros ?%elem_of_nil|].
    intros [E|Hin]%elem_of_cons Hnd; simpl in *.
    - injection E as <- <-. by rewrite Z.eqb_refl.
    - apply NoDup_cons in Hnd as [Hk Hnd].
      destruct (k =? c) eqn:E; [|by apply IH].
      apply Z.eqb_eq in E. subst. exfalso. apply Hk.
      apply list_elem_of_fmap. by exists (c, v). }
  pose proof (findChild48_spec n c I Hc) as Hs. rewrite Hl in Hs.
  rewrite findChild48_inv in Hs by done.
  destruct (key_at n c =? 0) eqn:E; [done|]. apply Z.eqb_neq in E.
  pose proof (key_at_range n c I Hc). split; [lia|]. congruence.
Qed.

Lemma NoDup_filter_pos (key : list Z) :
  (forall p q x, key !! p = Some x -> key !! q = Some x -> 0 < x -> p = q) ->
  NoDup (filter (fun i => 0 < i) key).
Proof.
  induction key as [|a key IH]; intros Hinj; [constructor|].
  assert (NoDup (filter (fun i => 0 < i) key)) as Hnd.
  { apply IH. intros p q x Hp Hq Hx.
    specialize (Hinj (S p) (S q) x Hp Hq Hx). lia. }
  rewrite filter_cons. case_decide as E; [|done].
  constructor; [|done].
  intros [_ Hin]%list_elem_of_filter.
  apply list_elem_of_lookup in Hin as [q Hq].
  specialize (Hinj 0%nat (S q) a eq_refl Hq E). lia.
Qed.

Lemma abs48_length n : wf48 n -> len (abs48 n) = size48 n.
Proof.
  intros [I Honto]. unfold len, abs48. rewrite table48_length.
  pose proof (inv_size n I) as Hs. pose proof (inv_key_len n I) as Hkl.
  assert (filter (fun i => 0 < i) (key48 n) ≡ₚ seqZ 1 (size48 n)) as Hperm.
  { apply NoDup_Permutation.
    - apply NoDup_filter_pos. intros p q x Hp Hq Hx.
      apply (key_unique n x); [done|lia|done|done].
    - apply NoDup_seqZ.
    - intros x. rewrite list_elem_of_filter, elem_of_seqZ. split.
      + intros [Hx [p Hp]%list_elem_of_lookup].
        pose proof (lookup_lt_Some _ _ _ Hp) as Hlt.
        pose proof (key_at_range n (Z.of_nat p) I) as Hr.
        unfold key_at in Hr. rewrite Nat2Z.id, Hp in Hr. simpl in Hr.
        unfold len, is_byte in *. lia.
      + intros Hx. destruct (Honto x) as (c & Hc & Hk); [lia|].
        split; [lia|]. unfold key_at in Hk.
        destruct (key48 n !! Z.to_nat c) as [y|] eqn:Ey; simpl in Hk; [|lia].
        subst. apply list_elem_of_lookup. eauto. }
  rewrite Hperm, length_seqZ. lia.
Qed.

(** The copying loop of [grow] and [shrink] adds the pairs of the table. *)
Lemma copy48_scan {M} (add : M -> Z -> option N -> outcome M) n (m : nat) c0 nn :
  inv48 n -> 0 <= c0 -> (Z.to_nat c0 + m <= length (key48 n))%nat ->
  for_count m c0
    (fun c nn =>
       i ← idx (key48 n) (u8 c);
       if 0 <? i then ch ← idx (child48 n) (i - 1); add nn (u8 c) ch
       else Ret nn) nn
  = add_all add (table48 (take m (drop (Z.to_nat c0) (key48 n))) c0 (child48 n)) nn.
Proof.
  intros I. revert c0 nn. induction m as [|m IH]; intros c0 nn Hc0 Hm; [done|].
  pose proof (inv_key_len n I) as Hkl. pose proof (inv_child_len n I) as Hcl.
  pose proof (inv_size n I) as Hs. unfold len in Hkl.
  assert (is_byte c0) as Hb by (unfold is_byte; lia).
  pose proof (key_at_range n c0 I Hb) as Hr. unfold key_at in Hr.
  destruct (lookup_lt_is_Some_2 (key48 n) (Z.to_nat c0)) as [i Hi]; [lia|].
  rewrite Hi in Hr. simpl in Hr.
  rewrite (drop_S _ _ _ Hi). cbn [for_count take table48].
  rewrite u8_small by apply Hb.
  rewrite (idx_Ret _ _ _ Hc0 Hi). cbn [mbind outcome_bind].
  destruct (0 <? i) eqn:E.
  - apply Z.ltb_lt in E.
    rewrite (idx_default _ _ None) by lia. cbn [mbind outcome_bind app add_all].
    destruct (add nn c0 _) as [nn'|]; [|done]. cbn [mbind outcome_bind].
    rewrite IH by lia.
    by replace (Z.to_nat (c0 + 1)) with (S (Z.to_nat c0)) by lia.
  - cbn [mbind outcome_bind app]. rewrite IH by lia.
    by replace (Z.to_nat (c0 + 1)) with (S (Z.to_nat c0)) by lia.
Qed.

Lemma copy48_into_spec {M} (add : M -> Z -> option N -> outcome M) n nn :
  inv48 n -> copy48_into add n nn = add_all add (abs48 n) nn.
Proof.
  intros I. unfold copy48_into.
  rewrite (copy48_scan add n _ 0) by (done || lia).
  change (Z.to_nat 0) with 0%nat. by rewrite drop_0, firstn_all.
Qed.

Lemma abs48_wf n :
  inv48 n ->
  Forall (fun kv => is_byte kv.1 /\ is_Some kv.2) (abs48 n) /\
  NoDup (abs48 n).*1.
Proof.
  intros I. split; [|apply table48_NoDup].
  apply Forall_forall. intros [c v] Hin.
  destruct (table48_elem n c v I Hin) as (Hc & Hk & ->). simpl. split; [done|].
  pose proof (key_at_range n c I Hc).
  destruct (inv_pos n I c Hc) as [?|[_ ?]]; [lia|done].
Qed.
End Table48.

Section Fill48.
Context {N : Type}.
Implicit Types n nn : node48 N.

Lemma newNode48_wf (p : bytes) : wf48 (newNode48 (N := N) p).
Proof.
  assert (forall c, key_at (newNode48 (N := N) p) c = 0) as Hk.
  { intros c. apply default_replicate. }
  assert (forall i, child_at (newNode48 (N := N) p) i = None) as Hc.
  { intros i. apply default_replicate. }
  split; [constructor|]; simpl; try done.
  - intros c _. by left.
  - intros c c' _ _ _. by rewrite Hk.
  - intros i Hi. rewrite Hc. split; [by intros [? ?]|lia].
  - intros i Hi. lia.
Qed.

Lemma add_all_48 kvs nn :
  wf48 nn -> size48 nn + len kvs <= 48 -> NoDup kvs.*1 ->
  Forall (fun kv => is_byte kv.1 /\ is_Some kv.2 /\ key_at nn kv.1 = 0) kvs ->
  exists n', add_all addChild48 kvs nn = Ret n' /\ wf48 n' /\
    size48 n' = size48 nn + len kvs /\ prefix48 n' = prefix48 nn /\
    forall c, is_byte c ->
      findChild48 n' c = match lookup_kv c kvs with
                         | Some v => Ret (Some v)
                         | None => findChild48 nn c
                         end.
Proof.
  revert nn. induction kvs as [|[k v] kvs IH]; intros nn W Hs Hnd Hall.
  - exists nn. unfold len. simpl. split; [done|]. split; [done|].
    split; [lia|]. split; done.
  - unfold len in *. simpl in Hs.
    apply NoDup_cons in Hnd as [Hk Hnd].
    apply Forall_cons in Hall as [(Hb & Hv & Hfree) Hall]. simpl in *.
    destruct Hv as [x ->].
    destruct W as [I Honto].
    pose proof (addChild48_onto nn k x (conj I Honto) ltac:(lia) Hb Hfree) as W1.
    destruct (IH (added48 nn k (Some x))) as (n' & E & W' & S' & P' & F');
      [done|cbn; lia|done| |].
    { apply Forall_forall. intros [k' v'] Hin.
      rewrite Forall_forall in Hall. destruct (Hall _ Hin) as (Hb' & ? & ?).
      split; [done|]. split; [done|]. simpl in *.
      rewrite key_at_added by (done || apply Hb').
      rewrite decide_False; [done|]. intros ->. apply Hk.
      apply list_elem_of_fmap. by exists (k, v'). }
    exists n'. rewrite addChild48_Ret by (done || lia).
    cbn [mbind outcome_bind]. split; [done|]. split; [done|].
    split; [rewrite S'; cbn; lia|]. split; [by rewrite P'|].
    intros c Hc. rewrite (F' c Hc).
    destruct (k =? c) eqn:Ekc.
    + apply Z.eqb_eq in Ekc. subst c.
      rewrite lookup_kv_absent by done.
      rewrite findChild48_added by (done || lia). by rewrite decide_True.
    + apply Z.eqb_neq in Ekc. destruct (lookup_kv c kvs); [done|].
      rewrite findChild48_added by (done || lia). by rewrite decide_False.
Qed.
End Fill48.

Section Node256Facts.
Context {N : Type}.
Implicit Types n nn : node256 N.
Implicit Types child : list (option N).

Lemma lookup_table256 child c0 c :
  lookup_kv c (table256 child c0)
  = match (if c0 <=? c then child !! Z.to_nat (c - c0) else None) with
    | Some (Some x) => Some (Some x)
    | _ => None
    end.
Proof.
  revert c0. induction child as [|o child IH]; intros c0.
  - simpl. by destruct (c0 <=? c).
  - assert (lookup_kv c (table256 child (c0 + 1))
            = if c0 =? c then None
              else match (if c0 <=? c then (o :: child) !! Z.to_nat (c - c0) else None) with
                   | Some (Some x) => Some (Some x)
                   | _ => None
                   end) as Hrest.
    { rewrite IH. destruct (c0 =? c) eqn:E.
      - apply Z.eqb_eq in E. subst.
        by replace (c + 1 <=? c) with false by (symmetry; apply Z.leb_gt; lia).
      - apply Z.eqb_neq in E. destruct (c0 <=? c) eqn:E1.
        + apply Z.leb_le in E1.
          replace (c0 + 1 <=? c) with true by (symmetry; apply Z.leb_le; lia).
          by replace (Z.to_nat (c - c0)) with (S (Z.to_nat (c - (c0 + 1)))) by lia.
        + apply Z.leb_gt in E1.
          by replace (c0 + 1 <=? c) with false by (symmetry; apply Z.leb_gt; lia). }
    destruct o as [x|]; cbn [table256 lookup_kv]; rewrite Hrest.
    + destruct (c0 =? c) eqn:E; [|done]. apply Z.eqb_eq in E. subst.
      by rewrite Z.leb_refl, Z.sub_diag.
    + destruct (c0 =? c) eqn:E; [|done]. apply Z.eqb_eq in E. subst.
      by rewrite Z.leb_refl, Z.sub_diag.
Qed.

Lemma findChild256_Ret n c :
  len (child256 n) = 256 -> is_byte c ->
  findChild256 n c = Ret (match child256 n !! Z.to_nat c with
                          | Some (Some x) => Some (Some x)
                          | _ => None
                          end).
Proof.
  intros Hl Hc. unfold findChild256.
  rewrite (idx_default _ _ None) by (unfold is_byte in Hc; lia).
  cbn [mbind outcome_bind].
  destruct (child256 n !! Z.to_nat c) as [[x|]|]; done.
Qed.

Lemma findChild256_spec n c :
  len (child256 n) = 256 -> is_byte c ->
  findChild256 n c = Ret (lookup_kv c (abs256 n)).
Proof.
  intros Hl Hc. rewrite findChild256_Ret by done. unfold abs256.
  rewrite lookup_table256.
  replace (0 <=? c) with true by (symmetry; apply Z.leb_le; apply Hc).
  by rewrite Z.sub_0_r.
Qed.

Lemma table256_keys child c0 kv :
  kv ∈ table256 child c0 -> c0 <= kv.1 < c0 + len child /\ is_Some kv.2.
Proof.
  revert c0. induction child as [|o child IH]; intros c0; simpl.
  - by intros ?%elem_of_nil.
  - unfold len in *. destruct o as [x|].
    + intros [->|H]%elem_of_cons; simpl; [split; [lia|done]|].
      apply IH in H. simpl. split; [lia|apply H].
    + intros H. apply IH in H. simpl. split; [lia|apply H].
Qed.

Lemma table256_NoDup child c0 : NoDup (table256 child c0).*1.
Proof.
  revert c0. induction child as [|o child IH]; intros c0; simpl; [constructor|].
  destruct o as [x|]; simpl; [|apply IH].
  constructor; [|apply IH].
  intros ([k v] & -> & [Hin _]%table256_keys)%list_elem_of_fmap. simpl in Hin. lia.
Qed.

Lemma table256_insert child c0 (p : nat) x :
  child !! p = Some None ->
  length (table256 (<[p := Some x]> child) c0) = S (length (table256 child c0)).
Proof.
  revert c0 p. induction child as [|o child IH]; intros c0 p Hp; [done|].
  destruct p as [|p]; simpl in *.
  - injection Hp as ->. done.
  - destruct o; simpl; rewrite (IH _ _ Hp); done.
Qed.

Lemma newNode256_wf (p : bytes) : wf256 (newNode256 (N := N) p).
Proof.
  assert (forall m c0, table256 (replicate m (None : option N)) c0 = []) as H.
  { induction m as [|m IH]; intros c0; simpl; [done|apply IH]. }
  split; [done|]. unfold abs256, newNode256. cbn [child256 size256].
  by rewrite H.
Qed.

Lemma add_all_256 kvs nn :
  wf256 nn -> size256 nn + len kvs < 65536 -> NoDup kvs.*1 ->
  Forall (fun kv => is_byte kv.1 /\ is_Some kv.2 /\
                    child256 nn !! Z.to_nat kv.1 = Some None) kvs ->
  exists n', add_all addChild256 kvs nn = Ret n' /\ wf256 n' /\
    size256 n' = size256 nn + len kvs /\ prefix256 n' = prefix256 nn /\
    forall c, is_byte c ->
      findChild256 n' c = match lookup_kv c kvs with
                          | Some v => Ret (Some v)
                          | None => findChild256 nn c
                          end.
Proof.
  revert nn. induction kvs as [|[k v] kvs IH]; intros nn W Hs Hnd Hall.
  - exists nn. unfold len. simpl. split; [done|]. split; [done|].
    split; [lia|]. split; done.
  - unfold len in *. simpl in Hs.
    apply NoDup_cons in Hnd as [Hk Hnd].
    apply Forall_cons in Hall as [(Hb & Hv & Hfree) Hall]. simpl in *.
    destruct Hv as [x ->].
    destruct W as [Hl Hsz].
    assert (0 <= size256 nn) as Hnn by (rewrite Hsz; unfold len; lia).
    set (n1 := Node256_ (<[Z.to_nat k := Some x]> (child256 nn)) (prefix256 nn)
                        (size256 nn + 1)).
    assert (addChild256 nn k (Some x) = Ret n1) as E1.
    { unfold addChild256. rewrite upd_Ret by (unfold is_byte in Hb; lia).
      cbn [mbind outcome_bind]. by rewrite u16_small by lia. }
    assert (wf256 n1) as W1.
    { split; [subst n1; cbn; by rewrite len_insert|].
      subst n1. unfold abs256, len. cbn. rewrite table256_insert by done.
      rewrite Hsz. unfold abs256, len. lia. }
    destruct (IH n1) as (n' & E & W' & S' & P' & F'); [done|subst n1; cbn; lia|done| |].
    { apply Forall_forall. intros [k' v'] Hin.
      rewrite Forall_forall in Hall. destruct (Hall _ Hin) as (? & ? & ?).
      split; [done|]. split; [done|]. subst n1. simpl in *.
      rewrite list_lookup_insert_ne; [done|].
      intros Heq. apply Hk. apply list_elem_of_fmap. exists (k', v').
      split; [|done]. simpl. unfold is_byte in *. lia. }
    exists n'. rewrite E1. cbn [mbind outcome_bind]. split; [done|]. split; [done|].
    split; [rewrite S'; subst n1; cbn; lia|]. split; [by rewrite P'|].
    intros c Hc. rewrite (F' c Hc).
    assert (findChild256 n1 c
            = if decide (c = k) then Ret (Some (Some x)) else findChild256 nn c) as F1.
    { rewrite !findChild256_Ret by (done || apply W1). subst n1. cbn.
      case_decide as Ec.
      - subst. rewrite list_lookup_insert_eq; [done|].
        unfold len, is_byte in *. lia.
      - rewrite list_lookup_insert_ne; [done|]. unfold is_byte in *. lia. }
    destruct (k =? c) eqn:Ekc.
    + apply Z.eqb_eq in Ekc. subst c.
      rewrite lookup_kv_absent by done. rewrite F1. by rewrite decide_True.
    + apply Z.eqb_neq in Ekc. destruct (lookup_kv c kvs); [done|].
      rewrite F1. by rewrite decide_False.
Qed.

Lemma copy256_into_spec child c0 (nn : node48 N) :
  0 <= c0 -> c0 + len child <= 256 ->
  copy256_into child c0 nn = add_all addChild48 (table256 child c0) nn.
Proof.
  revert c0 nn. induction child as [|o child IH]; intros c0 nn H0 Hl; [done|].
  unfold len in *. simpl in Hl. destruct o as [x|]; simpl.
  - rewrite u8_small by lia.
    destruct (addChild48 nn c0 (Some x)) as [nn'|]; [|done].
    cbn [mbind outcome_bind]. apply IH; lia.
  - apply IH; lia.
Qed.
End Node256Facts.

Section Transitions.
Context {N : Type}.

Lemma typedS_bounds cap (n : snode N) :
  typedS cap n ->
  0 <= s_size n <= len (s_key n) /\ s_size n <= len (s_child n).
Proof. intros (-> & -> & ?). lia. Qed.

Lemma findChildS_wf cap (n : snode N) c :
  typedS cap n -> findChildS n c = Ret (lookup_kv c (absS n)).
Proof. intros [? ?]%typedS_bounds. by apply findChildS_spec. Qed.

Lemma absS_length cap (n : snode N) : typedS cap n -> len (absS n) = s_size n.
Proof.
  intros (Hc & Hk & Hs). unfold len, absS in *.
  rewrite length_zip_with, !length_take. lia.
Qed.

Lemma growS_wf cap cap' (n : snode N) :
  wfS cap n -> s_size n = cap -> cap <= cap' -> cap' < 65536 ->
  exists n', growS cap cap' n = Ret n' /\ wfS cap' n' /\
    s_size n' = s_size n /\ s_prefix n' = s_prefix n /\
    forall c, findChildS n' c = findChildS n c.
Proof.
  intros (Ht & Hall & Hnd) Hfull Hle Hcap.
  destruct (growS_full cap cap' n Ht Hfull Hle Hcap) as (n' & E & A & T & S & P).
  exists n'. split; [done|]. split; [unfold wfS; by rewrite A|].
  split; [done|]. split; [done|]. intros c.
  by rewrite (findChildS_wf cap' n'), (findChildS_wf cap n), A.
Qed.

Lemma shrinkS_wf cap thr (n : snode N) :
  wfS cap n -> 0 <= thr < 65536 ->
  if thr <? s_size n then shrinkS thr n = Ret None
  else exists n', shrinkS thr n = Ret (Some n') /\ wfS thr n' /\
    s_size n' = s_size n /\ s_prefix n' = [] /\
    forall c, findChildS n' c = findChildS n c.
Proof.
  intros (Ht & Hall & Hnd) Hthr.
  destruct (typedS_bounds cap n Ht) as [Hk Hc].
  pose proof (shrinkS_spec thr n Hk Hc Hthr) as H.
  destruct (thr <? s_size n); [done|].
  destruct H as (n' & E & A & T & S & P).
  exists n'. split; [done|]. split; [unfold wfS; by rewrite A|].
  split; [done|]. split; [done|]. intros c.
  by rewrite (findChildS_wf thr n'), (findChildS_wf cap n), A.
Qed.

Lemma findChild48_new (p : bytes) c :
  is_byte c -> findChild48 (newNode48 (N := N) p) c = Ret None.
Proof.
  intros Hc. rewrite findChild48_inv by (apply newNode48_wf || done).
  unfold key_at. cbn [key48 newNode48]. by rewrite default_replicate.
Qed.

Lemma fill48_from_new (p : bytes) (kvs : list (Z * option N)) :
  len kvs <= 48 -> NoDup kvs.*1 ->
  Forall (fun kv => is_byte kv.1 /\ is_Some kv.2) kvs ->
  exists n', add_all addChild48 kvs (newNode48 p) = Ret n' /\ wf48 n' /\
    size48 n' = len kvs /\ prefix48 n' = p /\
    forall c, is_byte c -> findChild48 n' c = Ret (lookup_kv c kvs).
Proof.
  intros Hl Hnd Hall.
  destruct (add_all_48 kvs (newNode48 p)) as (n' & E & W & S & P & F);
    [apply newNode48_wf|cbn; lia|done| |].
  { eapply Forall_impl; [exact Hall|]. intros [k v] [? ?].
    split; [done|]. split; [done|]. apply default_replicate. }
  exists n'. split; [done|]. split; [done|]. split; [by rewrite S|].
  split; [done|]. intros c Hc. rewrite (F c Hc).
  destruct (lookup_kv c kvs); [done|]. by apply findChild48_new.
Qed.

Lemma grow16_wf (n : snode N) :
  wfS 16 n -> s_size n = 16 ->
  exists n', grow16 n = Ret n' /\ wf48 n' /\
    size48 n' = s_size n /\ prefix48 n' = s_prefix n /\
    forall c, is_byte c -> findChild48 n' c = findChildS n c.
Proof.
  intros (Ht & Hall & Hnd) Hfull. unfold grow16.
  destruct (typedS_bounds 16 n Ht) as [Hk Hc].
  rewrite copy_into_spec by lia.
  assert (zip (take (Z.to_nat 16) (s_key n)) (take (Z.to_nat 16) (s_child n)) = absS n)
    as -> by (unfold absS; by rewrite Hfull).
  destruct (fill48_from_new (s_prefix n) (absS n)) as (n' & E & W & S & P & F);
    [rewrite (absS_length 16) by done; lia|done|done|].
  exists n'. split; [done|]. split; [done|].
  split; [by rewrite S, (absS_length 16)|]. split; [done|].
  intros c Hb. by rewrite (F c Hb), (findChildS_wf 16).
Qed.

Lemma shrink256_wf (n : node256 N) :
  wf256 n ->
  if 48 <? size256 n then shrink256 n = Ret None
  else exists n', shrink256 n = Ret (Some n') /\ wf48 n' /\
    size48 n' = size256 n /\ prefix48 n' = [] /\
    forall c, is_byte c -> findChild48 n' c = findChild256 n c.
Proof.
  intros [Hl Hs]. unfold shrink256.
  destruct (48 <? size256 n) eqn:E; [done|]. apply Z.ltb_ge in E.
  rewrite copy256_into_spec by lia. fold (abs256 n).
  destruct (fill48_from_new [] (abs256 n)) as (n' & E' & W & S & P & F).
  - lia.
  - apply table256_NoDup.
  - apply Forall_forall. intros kv [Hr Hv]%table256_keys.
    split; [unfold is_byte; lia|done].
  - exists n'. rewrite E'. cbn [mbind outcome_bind]. split; [done|].
    split; [done|]. split; [lia|]. split; [done|].
    intros c Hb. by rewrite (F c Hb), findChild256_spec.
Qed.

Lemma findChild256_new (p : bytes) c :
  is_byte c -> findChild256 (newNode256 (N := N) p) c = Ret None.
Proof.
  intros Hc. rewrite findChild256_Ret by done. cbn [child256 newNode256].
  destruct (replicate 256 None !! Z.to_nat c) as [x|] eqn:E; [|done].
  by apply lookup_replicate in E as [-> _].
Qed.

Lemma fill256_from_new (p : bytes) (kvs : list (Z * option N)) :
  len kvs <= 256 -> NoDup kvs.*1 ->
  Forall (fun kv => is_byte kv.1 /\ is_Some kv.2) kvs ->
  exists n', add_all addChild256 kvs (newNode256 p) = Ret n' /\ wf256 n' /\
    size256 n' = len kvs /\ prefix256 n' = p /\
    forall c, is_byte c -> findChild256 n' c = Ret (lookup_kv c kvs).
Proof.
  intros Hl Hnd Hall.
  destruct (add_all_256 kvs (newNode256 p)) as (n' & E & W & S & P & F);
    [apply newNode256_wf|cbn [size256 newNode256]; lia|done| |].
  { eapply Forall_impl; [exact Hall|]. intros [k v] [Hb ?].
    split; [done|]. split; [done|]. cbn [child256 newNode256 fst].
    apply lookup_replicate. split; [done|]. unfold is_byte in Hb. simpl in *. lia. }
  exists n'. split; [done|]. split; [done|]. split; [by rewrite S|].
  split; [done|]. intros c Hc. rewrite (F c Hc).
  destruct (lookup_kv c kvs); [done|]. by apply findChild256_new.
Qed.

Lemma grow48_wf (n : node48 N) :
  wf48 n ->
  exists n', grow48 n = Ret n' /\ wf256 n' /\
    size256 n' = size48 n /\ prefix256 n' = prefix48 n /\
    forall c, is_byte c -> findChild256 n' c = findChild48 n c.
Proof.
  intros W. pose proof W as [I _]. unfold grow48.
  rewrite copy48_into_spec by done.
  destruct (abs48_wf n I) as [Hall Hnd].
  pose proof (abs48_length n W) as Hlen. pose proof (inv_size n I).
  destruct (fill256_from_new (prefix48 n) (abs48 n)) as (n' & E & W' & S & P & F);
    [lia|done|done|].
  exists n'. split; [done|]. split; [done|]. split; [lia|]. split; [done|].
  intros c Hb. by rewrite (F c Hb), findChild48_spec.
Qed.

Lemma shrink48_wf (n : node48 N) :
  wf48 n ->
  if 16 <? size48 n then shrink48 n = Ret None
  else exists n', shrink48 n = Ret (Some n') /\ wfS 16 n' /\
    s_size n' = size48 n /\ s_prefix n' = [] /\
    forall c, is_byte c -> findChildS n' c = findChild48 n c.
Proof.
  intros W. pose proof W as [I _]. unfold shrink48.
  destruct (16 <? size48 n) eqn:E; [done|]. apply Z.ltb_ge in E.
  rewrite copy48_into_spec by done.
  destruct (abs48_wf n I) as [Hall Hnd].
  pose proof (abs48_length n W) as Hlen.
  destruct (add_all_S 16 (abs48 n) (newS 16 [])) as (n' & E' & A & T & S & P);
    [by apply typedS_new|cbn; lia|done|].
  rewrite absS_new in A. simpl in A.
  exists n'. rewrite E'. cbn [mbind outcome_bind]. split; [done|].
  split; [unfold wfS; by rewrite A|]. split; [rewrite S; cbn; lia|]. split; [done|].
  intros c Hb. rewrite (findChildS_wf 16) by done. by rewrite A, findChild48_spec.
Qed.
End Transitions.

Lemma index_of_lookup c l j : index_of c l = Some j -> l !! j = Some c.
Proof.
  revert j. induction l as [|k l IH]; intros j; simpl; [done|].
  destruct (k =? c) eqn:E.
  - apply Z.eqb_eq in E. by intros [= <-]; subst.
  - destruct (index_of c l) as [j'|]; simpl; [|done].
    intros [= <-]. by apply IH.
Qed.

Lemma index_of_None c l : index_of c l = None -> c ∉ l.
Proof.
  induction l as [|k l IH]; simpl; [intros _; apply not_elem_of_nil|].
  destruct (k =? c) eqn:E; [done|]. apply Z.eqb_neq in E.
  destruct (index_of c l); [done|]. intros _.
  apply not_elem_of_cons. split; [congruence|by apply IH].
Qed.

Lemma lookup_kv_None {V} c (kvs : list (Z * V)) :
  lookup_kv c kvs = None -> c ∉ kvs.*1.
Proof.
  induction kvs as [|[k v] kvs IH]; simpl; [intros _; apply not_elem_of_nil|].
  destruct (k =? c) eqn:E; [done|]. apply Z.eqb_neq in E. intros H.
  apply not_elem_of_cons. split; [congruence|by apply IH].
Qed.

Lemma elem_of_insert_inv {A} (l : list A) i x y :
  y ∈ <[i := x]> l -> y = x \/ y ∈ l.
Proof.
  revert i. induction l as [|a l IH]; intros i; [by right|].
  destruct i as [|i]; simpl.
  - intros [->|H]%elem_of_cons; [by left|right; by right].
  - intros [->|H]%elem_of_cons; [right; by left|].
    destruct (IH _ H); [by left|right; by right].
Qed.

Lemma NoDup_insert_fresh {A} (l : list A) i x :
  NoDup l -> x ∉ l -> NoDup (<[i := x]> l).
Proof.
  revert i. induction l as [|a l IH]; intros i Hnd Hx; [done|].
  apply NoDup_cons in Hnd as [Ha Hnd]. apply not_elem_of_cons in Hx as [Hxa Hx].
  destruct i as [|i]; simpl; apply NoDup_cons.
  - done.
  - split; [|by apply IH]. intros [->|H]%elem_of_insert_inv; done.
Qed.

Section SmallInvariant.
Context {N : Type}.
Implicit Types n nn : snode N.

Lemma absS_keys cap n : typedS cap n -> (absS n).*1 = take (Z.to_nat (s_size n)) (s_key n).
Proof.
  intros (Hc & Hk & Hs). unfold absS, len in *. apply fst_zip.
  rewrite !length_take. lia.
Qed.

Lemma newS_wf cap (p : bytes) : 0 <= cap -> wfS (N := N) cap (newS cap p).
Proof.
  intros Hc. split; [by apply typedS_new|]. rewrite absS_new.
  split; [constructor|apply NoDup_nil_2].
Qed.

(** [addChild] of a child under a byte that has none keeps a small node
    well formed. *)
Lemma addChildS_wf cap nn k x :
  wfS cap nn -> s_size nn < cap -> cap < 65536 -> is_byte k ->
  findChildS nn k = Ret None ->
  exists n', addChildS cap nn k (Some x) = Ret n' /\ wfS cap n' /\
    s_size n' = s_size nn + 1 /\ s_prefix n' = s_prefix nn /\
    absS n' = absS nn ++ [(k, Some x)].
Proof.
  intros (Ht & Hall & Hnd) Hlt Hcap Hk Hfree.
  rewrite (findChildS_wf cap) in Hfree by done.
  assert (lookup_kv k (absS nn) = None) as Hnone by congruence.
  apply lookup_kv_None in Hnone.
  destruct (addChildS_spec cap nn k (Some x) Ht Hlt Hcap) as (n' & E & A & T & S & P).
  exists n'. split; [done|]. split; [|done].
  split; [done|]. rewrite A. split.
  - apply Forall_app. split; [done|]. constructor; [|done]. by split.
  - rewrite fmap_app. apply NoDup_app. split; [done|]. split; [|apply NoDup_singleton].
    intros y Hy ->%list_elem_of_singleton. done.
Qed.

(** The scan of [deleteChild]. *)
Lemma delete_scan n c (body : Z -> unit -> outcome (unit + snode N)) (m : nat) (i : Z) :
  0 <= i -> (Z.to_nat i + m <= length (s_key n))%nat ->
  (forall j, i <= j < i + Z.of_nat m -> s_key n !! Z.to_nat j = Some c ->
             body j tt = Ret (inr (removedS n j))) ->
  (forall j k, i <= j < i + Z.of_nat m -> s_key n !! Z.to_nat j = Some k ->
               k <> c -> body j tt = Ret (inl tt)) ->
  for_range m i body tt
  = Ret (match index_of c (take m (drop (Z.to_nat i) (s_key n))) with
         | Some j => inr (removedS n (i + Z.of_nat j))
         | None => inl tt
         end).
Proof.
  revert i. induction m as [|m IH]; intros i Hi Hm Hhit Hmiss; [done|].
  destruct (lookup_lt_is_Some_2 (s_key n) (Z.to_nat i)) as [k Hk]; [lia|].
  rewrite (drop_S _ _ _ Hk). cbn [for_range take index_of].
  destruct (k =? c) eqn:E.
  - apply Z.eqb_eq in E. subst k. rewrite (Hhit i) by (done || lia).
    cbn [mbind outcome_bind]. by rewrite Z.add_0_r.
  - apply Z.eqb_neq in E. rewrite (Hmiss i k) by (done || lia).
    cbn [mbind outcome_bind]. rewrite IH; try lia.
    + replace (Z.to_nat (i + 1)) with (S (Z.to_nat i)) by lia.
      destruct (index_of c _) as [j|]; simpl; [|done].
      do 3 f_equal. lia.
    + intros j Hj. apply Hhit. lia.
    + intros j k' Hj. apply Hmiss. lia.
Qed.

Lemma deleteChildS_spec cap n c :
  typedS cap n -> cap < 65536 ->
  deleteChildS n c
  = Ret (match index_of c (take (Z.to_nat (s_size n)) (s_key n)) with
         | Some j => removedS n (Z.of_nat j)
         | None => n
         end).
Proof.
  intros (Hc & Hk & Hs) Hcap. unfold deleteChildS.
  (* the scan stays below [size] *)
  assert (forall m i body,
    0 <= i -> Z.of_nat m + i <= s_size n ->
    body = (fun (i : Z) (_ : unit) =>
       k ← idx (s_key n) i;
       if k =? c then
         if i <? u16 (s_size n - 1) then
           kl ← idx (s_key n) (u16 (s_size n - 1));
           key ← upd (s_key n) i kl;
           cl ← idx (s_child n) (u16 (s_size n - 1));
           child ← upd (s_child n) i cl;
           key ← upd key (u16 (s_size n - 1)) 0;
           child ← upd child (u16 (s_size n - 1)) None;
           Ret (inr (SNode child (s_prefix n) (u16 (s_size n - 1)) key))
         else
           key ← upd (s_key n) i 0;
           child ← upd (s_child n) i None;
           Ret (inr (SNode child (s_prefix n) (u16 (s_size n - 1)) key))
       else Ret (inl tt)) ->
    for_range m i body tt
    = Ret (match index_of c (take m (drop (Z.to_nat i) (s_key n))) with
           | Some j => inr (removedS n (i + Z.of_nat j))
           | None => inl tt
           end)) as Hscan.
  { intros m i body Hi Hm ->. apply delete_scan; [done|unfold len in *; lia|..].
    - intros j Hj Hkj.
      pose proof (lookup_lt_Some _ _ _ Hkj) as Hjlt. unfold len in *.
      (* a hit is below size only if the scan got there; the arrays are long enough *)
      rewrite (idx_Ret (s_key n) j c ltac:(lia) Hkj). cbn [mbind outcome_bind].
      rewrite Z.eqb_refl. unfold removedS.
      assert (1 <= s_size n) as Hpos by lia.
      { rewrite !u16_small by lia.
        destruct (j <? s_size n - 1) eqn:E.
        * apply Z.ltb_lt in E.
          rewrite (idx_default _ _ 0) by (unfold len; rewrite ?length_insert; lia). cbn [mbind outcome_bind].
          rewrite upd_Ret by (unfold len; rewrite ?length_insert; lia). cbn [mbind outcome_bind].
          rewrite (idx_default _ _ None) by (unfold len; rewrite ?length_insert; lia). cbn [mbind outcome_bind].
          rewrite upd_Ret by (unfold len; rewrite ?length_insert; lia). cbn [mbind outcome_bind].
          rewrite upd_Ret by (unfold len; rewrite ?length_insert; lia).
          cbn [mbind outcome_bind].
          rewrite upd_Ret by (unfold len; rewrite ?length_insert; lia).
          done.
        * rewrite upd_Ret by (unfold len; rewrite ?length_insert; lia). cbn [mbind outcome_bind].
          rewrite upd_Ret by (unfold len; rewrite ?length_insert; lia). done. }
    - intros j k Hj Hkj Hne.
      rewrite (idx_Ret (s_key n) j k ltac:(lia) Hkj). cbn [mbind outcome_bind].
      by replace (k =? c) with false by (symmetry; by apply Z.eqb_neq). }
  rewrite (Hscan (Z.to_nat (s_size n)) 0 _ ltac:(lia) ltac:(lia) eq_refl).
  cbn [mbind outcome_bind]. change (Z.to_nat 0) with 0%nat. rewrite drop_0.
  destruct (index_of c _) as [j|]; [|done]. by rewrite Z.add_0_l.
Qed.
End SmallInvariant.

Section SmallDelete.
Context {N : Type}.
Implicit Types n : snode N.

Lemma absS_removed cap n c j :
  typedS cap n -> index_of c (take (Z.to_nat (s_size n)) (s_key n)) = Some j ->
  exists e, absS n = take (Z.to_nat (s_size n - 1)) (absS n) ++ [e] /\
    typedS cap (removedS n (Z.of_nat j)) /\
    absS (removedS n (Z.of_nat j))
    = if Z.of_nat j <? s_size n - 1
      then <[j := e]> (take (Z.to_nat (s_size n - 1)) (absS n))
      else take (Z.to_nat (s_size n - 1)) (absS n).
Proof.
  intros (Hc & Hk & Hs) Hj. apply index_of_lookup in Hj.
  apply lookup_take_Some in Hj as [Hj Hlt]. unfold len in *.
  destruct (lookup_lt_is_Some_2 (s_key n) (Z.to_nat (s_size n - 1))) as [kl Hkl]; [lia|].
  destruct (lookup_lt_is_Some_2 (s_child n) (Z.to_nat (s_size n - 1))) as [cl Hcl]; [lia|].
  exists (kl, cl). split; [|split].
  - unfold absS. rewrite zip_with_take, !take_take.
    replace (Z.to_nat (s_size n - 1) `min` Z.to_nat (s_size n))%nat
      with (Z.to_nat (s_size n - 1)) by lia.
    replace (Z.to_nat (s_size n)) with (S (Z.to_nat (s_size n - 1))) at 1 2 by lia.
    rewrite (take_S_r _ _ _ Hkl), (take_S_r _ _ _ Hcl).
    rewrite zip_with_app; [done|]. rewrite !length_take. lia.
  - unfold removedS, typedS, len.
    destruct (Z.of_nat j <? s_size n - 1); cbn; rewrite ?length_insert; lia.
  - unfold removedS, absS at 1.
    destruct (Z.of_nat j <? s_size n - 1) eqn:E; cbn [s_size s_key s_child].
    + apply Z.ltb_lt in E. rewrite Hkl, Hcl. cbn [default id]. rewrite Nat2Z.id.
      rewrite !(take_insert_ge _ (Z.to_nat (s_size n - 1)) (Z.to_nat (s_size n - 1)))
        by lia.
      rewrite !take_insert_lt by lia. unfold id.
      rewrite <- (insert_zip_with pair). f_equal.
      unfold absS. rewrite zip_with_take, !take_take.
      by replace (Z.to_nat (s_size n - 1) `min` Z.to_nat (s_size n))%nat
        with (Z.to_nat (s_size n - 1)) by lia.
    + apply Z.ltb_ge in E. rewrite Nat2Z.id.
      rewrite !take_insert_ge by lia.
      unfold absS. rewrite zip_with_take, !take_take.
      by replace (Z.to_nat (s_size n - 1) `min` Z.to_nat (s_size n))%nat
        with (Z.to_nat (s_size n - 1)) by lia.
Qed.

(** [deleteChild] keeps a small node well formed. *)
Lemma deleteChildS_wf cap n c :
  wfS cap n -> cap < 65536 ->
  exists n', deleteChildS n c = Ret n' /\ wfS cap n' /\ s_prefix n' = s_prefix n.
Proof.
  intros (Ht & Hall & Hnd) Hcap. rewrite (deleteChildS_spec cap) by done.
  destruct (index_of c _) as [j|] eqn:Hj; [|by exists n].
  exists (removedS n (Z.of_nat j)). split; [done|].
  destruct (absS_removed cap n c j Ht Hj) as (e & Hsplit & Ht' & Habs).
  rewrite Hsplit in Hall, Hnd. apply Forall_app in Hall as [HallA Halle].
  apply Forall_cons in Halle as [He _].
  rewrite fmap_app in Hnd. apply NoDup_app in Hnd as (HndA & Hfresh & _).
  split; [|by unfold removedS; destruct (_ <? _)].
  split; [done|]. rewrite Habs. destruct (Z.of_nat j <? s_size n - 1).
  - split; [by apply Forall_insert|]. rewrite list_fmap_insert.
    apply NoDup_insert_fresh; [done|]. intros Hin.
    apply (Hfresh _ Hin). simpl. left.
  - done.
Qed.
End SmallDelete.

Section Node256Invariant.
Context {N : Type}.
Implicit Types n : node256 N.
Implicit Types child : list (option N).

Lemma table256_bound child c0 : (length (table256 child c0) <= length child)%nat.
Proof.
  revert c0. induction child as [|[x|] child IH]; intros c0; simpl; [lia|..];
    specialize (IH (c0 + 1)); lia.
Qed.

Lemma table256_delete child c0 (p : nat) x :
  child !! p = Some (Some x) ->
  length (table256 child c0) = S (length (table256 (<[p := None]> child) c0)).
Proof.
  revert c0 p. induction child as [|o child IH]; intros c0 p Hp; [done|].
  destruct p as [|p]; simpl in *.
  - by injection Hp as ->.
  - destruct o; simpl; by rewrite (IH _ _ Hp).
Qed.

(** [addChild] under a byte that has no child, and [deleteChild], keep a
    [node256] well formed. *)
Lemma addChild256_wf n c x :
  wf256 n -> is_byte c -> findChild256 n c = Ret None ->
  exists n', addChild256 n c (Some x) = Ret n' /\ wf256 n' /\
    size256 n' = size256 n + 1 /\ prefix256 n' = prefix256 n.
Proof.
  intros [Hl Hs] Hc Hfree. rewrite findChild256_Ret in Hfree by done.
  assert (child256 n !! Z.to_nat c = Some None) as Hnone.
  { destruct (lookup_lt_is_Some_2 (child256 n) (Z.to_nat c)) as [o Ho];
      [unfold len, is_byte in *; lia|].
    rewrite Ho in Hfree |- *. by destruct o. }
  pose proof (table256_bound (child256 n) 0) as Hb. unfold len, abs256 in *.
  unfold addChild256. rewrite upd_Ret by (unfold is_byte, len in *; lia).
  cbn [mbind outcome_bind]. rewrite u16_small by lia.
  eexists. split; [done|]. split; [|done]. split; cbn.
  - by rewrite len_insert.
  - unfold abs256, len. cbn. rewrite table256_insert by done. lia.
Qed.

Lemma deleteChild256_wf n c :
  wf256 n -> is_byte c ->
  exists n', deleteChild256 n c = Ret n' /\ wf256 n' /\ prefix256 n' = prefix256 n.
Proof.
  intros [Hl Hs] Hc. unfold deleteChild256.
  rewrite (idx_default _ _ None) by (unfold is_byte in *; lia).
  cbn [mbind outcome_bind].
  destruct (child256 n !! Z.to_nat c) as [[x|]|] eqn:E; cbn [default];
    [|by exists n..].
  rewrite upd_Ret by (unfold is_byte in *; lia). cbn [mbind outcome_bind].
  pose proof (table256_delete (child256 n) 0 _ x E) as Hd.
  pose proof (table256_bound (child256 n) 0) as Hb. unfold len, abs256 in *.
  rewrite u16_small by lia.
  eexists. split; [done|]. split; [|done]. split; cbn.
  - by rewrite len_insert.
  - unfold abs256, len. cbn. lia.
Qed.
End Node256Invariant.

Section InterfaceInvariant.
Context {T : Type}.
Implicit Types n : node T.

(** The representation invariant is kept by the calls [insert] and
    [delete] make: [addChild] of a child under a free byte of a node that
    is not full, and [deleteChild]. *)
Theorem addChild_wf n c (x : node T) :
  wf_node n -> isLeaf n = false -> isFull n = false -> is_byte c ->
  findChild n c = Ret None ->
  exists n', addChild n c (Some x) = Ret n' /\ wf_node n' /\
    kind n' = kind n /\ path n' = path n /\
    numChildren n' = numChildren n + 1.
Proof.
  destruct n as [suffix v|m|m|m|m|m];
    cbn [wf_node isLeaf isFull findChild addChild kind path numChildren];
    intros W Hleaf Hfull Hc Hfree; [done|..].
  - apply Z.leb_gt in Hfull.
    destruct (addChildS_wf 4 m c x W Hfull ltac:(lia) Hc Hfree)
      as (m' & -> & W' & S & P & _). by exists (Node4 m').
  - apply Z.leb_gt in Hfull.
    destruct (addChildS_wf 10 m c x W Hfull ltac:(lia) Hc Hfree)
      as (m' & -> & W' & S & P & _). by exists (Node10 m').
  - apply Z.leb_gt in Hfull.
    destruct (addChildS_wf 16 m c x W Hfull ltac:(lia) Hc Hfree)
      as (m' & -> & W' & S & P & _). by exists (Node16 m').
  - apply Z.leb_gt in Hfull. pose proof W as [I _].
    rewrite findChild48_inv in Hfree by done.
    assert (key_at m c = 0) as Hk.
    { destruct (key_at m c =? 0) eqn:E; [by apply Z.eqb_eq|done]. }
    rewrite addChild48_Ret by done.
    exists (Node48 (added48 m c (Some x))). split; [done|].
    split; [by apply addChild48_onto|done].
  - destruct (addChild256_wf m c x W Hc Hfree) as (m' & -> & W' & S & P).
    by exists (Node256 m').
Qed.

Theorem deleteChild_wf n c :
  wf_node n -> isLeaf n = false -> is_byte c ->
  exists n', deleteChild n c = Ret n' /\ wf_node n' /\
    kind n' = kind n /\ path n' = path n.
Proof.
  destruct n as [suffix v|m|m|m|m|m];
    cbn [wf_node isLeaf deleteChild kind path]; intros W Hleaf Hc; [done|..].
  - destruct (deleteChildS_wf 4 m c W ltac:(lia)) as (m' & -> & W' & P).
    by exists (Node4 m').
  - destruct (deleteChildS_wf 10 m c W ltac:(lia)) as (m' & -> & W' & P).
    by exists (Node10 m').
  - destruct (deleteChildS_wf 16 m c W ltac:(lia)) as (m' & -> & W' & P).
    by exists (Node16 m').
  - pose proof W as [I _]. destruct (decide (key_at m c = 0)) as [Hk|Hk].
    + rewrite deleteChild48_absent by done. by exists (Node48 m).
    + rewrite deleteChild48_Ret by done.
      exists (Node48 (deleted48 m c)). split; [done|].
      split; [by apply deleteChild48_onto|done].
  - destruct (deleteChild256_wf m c W Hc) as (m' & -> & W' & P).
    by exists (Node256 m').
Qed.
End InterfaceInvariant.

Section Iteration.
Context {N St : Type}.
Implicit Types f : option N -> St -> St * bool.
Implicit Types child : list (option N).

(** The indexed loop of the small variants. *)
Lemma iterS_scan f child (m : nat) (i : Z) (s : St) :
  0 <= i -> (Z.to_nat i + m <= length child)%nat ->
  (r ← for_range m i
         (fun i s =>
            ch ← idx child i;
            let '(s', continue) := f ch s in
            Ret (if continue then inl s' else inr s')) s;
   Ret (match r with inl s' => s' | inr s' => s' end))
  = Ret (visit f (take m (drop (Z.to_nat i) child)) s).
Proof.
  revert i s. induction m as [|m IH]; intros i s Hi Hm; [done|].
  destruct (lookup_lt_is_Some_2 child (Z.to_nat i)) as [ch Hch]; [lia|].
  rewrite (drop_S _ _ _ Hch). cbn [for_range take visit].
  rewrite (idx_Ret _ _ _ Hi Hch). cbn [mbind outcome_bind].
  destruct (f ch s) as [s' [|]]; cbn [mbind outcome_bind]; [|done].
  rewrite IH by lia.
  by replace (Z.to_nat (i + 1)) with (S (Z.to_nat i)) by lia.
Qed.

Lemma iterS_spec cap (n : snode N) f s :
  typedS cap n -> iterS n f s = Ret (visit f (take (Z.to_nat (s_size n)) (s_child n)) s).
Proof.
  intros [_ Hc]%typedS_bounds. unfold iterS.
  rewrite (iterS_scan f (s_child n) _ 0) by (unfold len in *; lia).
  change (Z.to_nat 0) with 0%nat. by rewrite drop_0.
Qed.

(** The loops of [node48] and [node256] skip the [nil] entries. *)
Lemma iter_nonnil_app child1 child2 f s :
  Forall is_Some child1 -> Forall (fun o => o = None) child2 ->
  iter_nonnil (child1 ++ child2) f s = visit f child1 s.
Proof.
  intros H1 H2. revert s. induction H1 as [|o child1 [x ->] _ IH]; intros s.
  - simpl. induction H2 as [|o child2 -> _ IH]; [done|]. simpl. apply IH.
  - simpl. destruct (f (Some x) s) as [s' [|]]; [apply IH|done].
Qed.

Lemma iter48_spec (n : node48 N) f s :
  inv48 n -> iter48 n f s = Ret (visit f (take (Z.to_nat (size48 n)) (child48 n)) s).
Proof.
  intros I. unfold iter48. f_equal.
  rewrite <- (take_drop (Z.to_nat (size48 n)) (child48 n)) at 1.
  pose proof (inv_size n I) as Hs. pose proof (inv_child_len n I) as Hl.
  unfold len in Hl.
  apply iter_nonnil_app; apply Forall_forall; intros o [j Hj]%list_elem_of_lookup.
  - apply lookup_take_Some in Hj as [Hj Hlt].
    assert (is_Some (child_at n (Z.of_nat j))) as Hsome
      by (apply (inv_dense n I); lia).
    unfold child_at in Hsome. by rewrite Nat2Z.id, Hj in Hsome.
  - rewrite lookup_drop in Hj.
    pose proof (lookup_lt_Some _ _ _ Hj) as Hlt.
    destruct o as [x|]; [exfalso|done].
    assert (is_Some (child_at n (Z.of_nat (Z.to_nat (size48 n) + j)))) as Hsome.
    { unfold child_at. rewrite Nat2Z.id, Hj. by eexists. }
    apply (inv_dense n I) in Hsome; lia.
Qed.

Lemma iter256_scan f child (m : nat) (i : Z) (s : St) :
  0 <= i -> (Z.to_nat i + m <= length child)%nat ->
  (r ← for_range m i
         (fun i s =>
            ch ← idx child i;
            match ch with
            | Some _ =>
              let '(s', continue) := f ch s in
              Ret (if continue then inl s' else inr s')
            | None => Ret (inl s)
            end) s;
   Ret (match r with inl s' => s' | inr s' => s' end))
  = Ret (visit f (table256 (take m (drop (Z.to_nat i) child)) i).*2 s).
Proof.
  revert i s. induction m as [|m IH]; intros i s Hi Hm; [done|].
  destruct (lookup_lt_is_Some_2 child (Z.to_nat i)) as [ch Hch]; [lia|].
  rewrite (drop_S _ _ _ Hch). cbn [for_range take].
  rewrite (idx_Ret _ _ _ Hi Hch). cbn [mbind outcome_bind].
  destruct ch as [x|]; cbn [table256 fmap list_fmap visit snd].
  - destruct (f (Some x) s) as [s' [|]]; cbn [mbind outcome_bind]; [|done].
    rewrite IH by lia.
    by replace (Z.to_nat (i + 1)) with (S (Z.to_nat i)) by lia.
  - cbn [mbind outcome_bind]. rewrite IH by lia.
    by replace (Z.to_nat (i + 1)) with (S (Z.to_nat i)) by lia.
Qed.

Lemma iter256_spec (n : node256 N) f s :
  len (child256 n) = 256 -> iter256 n f s = Ret (visit f (abs256 n).*2 s).
Proof.
  intros Hl. unfold iter256, abs256.
  rewrite (iter256_scan f (child256 n) 256 0) by (unfold len in *; lia).
  change (Z.to_nat 0) with 0%nat. rewrite drop_0.
  rewrite take_ge; [done|]. unfold len in Hl. lia.
Qed.
End Iteration.

Section ByteOrder.
Context {N : Type}.

Lemma table256_byte_order (child : list (option N)) c0 :
  omap (fun c => match child !! Z.to_nat (c - c0) with
                 | Some (Some x) => Some (Some x)
                 | _ => None
                 end) (seqZ c0 (len child))
  = (table256 child c0).*2.
Proof.
  revert c0. induction child as [|o child IH]; intros c0; [done|].
  unfold len. rewrite seqZ_cons by (simpl; lia).
  replace (Z.pred (Z.of_nat (length (o :: child)))) with (len child)
    by (unfold len; simpl; lia).
  cbn [omap list_omap]. rewrite Z.sub_diag. cbn [lookup list_lookup Z.to_nat].
  assert (omap (fun c => match (o :: child) !! Z.to_nat (c - c0) with
                         | Some (Some x) => Some (Some x)
                         | _ => None
                         end) (seqZ (Z.succ c0) (len child))
          = (table256 child (c0 + 1)).*2) as Hrest.
  { rewrite <- IH. replace (Z.succ c0) with (c0 + 1) by lia.
    apply omap_ext_in. intros c [Hc _]%elem_of_seqZ.
    by replace (Z.to_nat (c - c0)) with (S (Z.to_nat (c - (c0 + 1)))) by lia. }
  destruct o as [x|]; cbn [table256 fmap list_fmap snd]; by rewrite Hrest.
Qed.
End ByteOrder.

Section InterfaceFacts.
Context {T : Type}.
Implicit Types n : node T.

Lemma byte_order_256 (m : node256 (node T)) :
  len (child256 m) = 256 -> byte_order (Node256 m) = (abs256 m).*2.
Proof.
  intros Hl. unfold byte_order, abs256.
  rewrite <- (table256_byte_order (child256 m) 0). rewrite Hl.
  apply omap_ext_in. intros c Hc%elem_of_seqZ.
  unfold found. cbn [findChild].
  rewrite findChild256_Ret by (done || unfold is_byte; lia).
  rewrite Z.sub_0_r. by destruct (child256 m !! Z.to_nat c) as [[x|]|].
Qed.

Lemma wfS_typed cap (m : snode (node T)) : wfS cap m -> typedS cap m.
Proof. by intros [? _]. Qed.

Lemma wfS_first_child cap (m : snode (node T)) :
  wfS cap m -> 1 <= s_size m ->
  exists x, s_child m !! 0%nat = Some (Some x).
Proof.
  intros ((Hc & Hk & Hs) & Hall & _) Hpos. unfold absS, len in *.
  destruct (s_child m) as [|o child]; [simpl in *; lia|].
  destruct (s_key m) as [|k key]; [simpl in *; lia|].
  replace (Z.to_nat (s_size m)) with (S (Z.to_nat (s_size m - 1))) in Hall by lia.
  simpl in Hall. apply Forall_cons in Hall as [[_ Hx] _]. simpl in Hx.
  destruct Hx as [x ->]. by exists x.
Qed.

Lemma isFullS_full cap (m : snode (node T)) :
  typedS cap m -> isFullS cap m = true -> s_size m = cap.
Proof. intros (_ & _ & Hs) H%Z.leb_le. lia. Qed.
End InterfaceFacts.

Section NodeTheorems.
Context {T : Type}.
Implicit Types n : node T.

(** C5 (as amended).  [iter(f)] yields the children in the order
    [iter_order]: for [Node4], [Node10], [Node16] and also [Node48] the
    stored order of the child array, for [Node256] the ascending order
    of the discriminator byte; it stops as soon as the callback returns
    [false]. *)
Theorem iter_yields_in_order {St} n (f : option (node T) -> St -> St * bool) s :
  wf_node n -> iter n f s = Ret (visit f (iter_order n) s).
Proof.
  destruct n as [suffix v|m|m|m|m|m]; cbn [wf_node iter iter_order stored_order].
  - done.
  - intros W. by apply (iterS_spec 4), wfS_typed.
  - intros W. by apply (iterS_spec 10), wfS_typed.
  - intros W. by apply (iterS_spec 16), wfS_typed.
  - intros [I _]. by apply iter48_spec.
  - intros [Hl _]. rewrite byte_order_256 by done. by apply iter256_spec.
Qed.

(** C6.  [shrink()] of a well-formed internal node returns a replacement
    exactly when the threshold of its variant is met: a smaller variant
    of the expected class, or for a [Node4] with one child that child. *)
Theorem shrink_thresholds n :
  isLeaf n = false -> wf_node n ->
  exists r, shrink n = Ret r /\ (is_Some r <-> shrinks n) /\
    forall r', r = Some r' ->
      match n with
      | Node4 m => s_size m = 1 /\ s_child m !! 0%nat = Some (Some r')
      | _ => kind r' = smaller_kind n
      end.
Proof.
  destruct n as [suffix v|m|m|m|m|m]; cbn [isLeaf wf_node shrink shrinks smaller_kind];
    intros Hleaf W; [done|..].
  - unfold shrink4. destruct (s_size m =? 1) eqn:E.
    + apply Z.eqb_eq in E.
      destruct (wfS_first_child 4 m W) as [x Hx]; [lia|].
      exists (Some x). rewrite (idx_Ret _ 0 (Some x)) by (done || lia).
      split; [done|]. split; [done|]. by intros r' [= <-].
    + apply Z.eqb_neq in E. exists None. split; [done|].
      split; [split; [by intros [? ?]|done]|done].
  - pose proof (shrinkS_wf 10 4 m W ltac:(lia)) as H.
    destruct (4 <? s_size m) eqn:E.
    + apply Z.ltb_lt in E. rewrite H. exists None. split; [done|].
      split; [split; [by intros [? ?]|lia]|done].
    + apply Z.ltb_ge in E. destruct H as (m' & -> & _).
      exists (Some (Node4 m')). split; [done|]. split; [done|].
      by intros r' [= <-].
  - pose proof (shrinkS_wf 16 10 m W ltac:(lia)) as H.
    destruct (10 <? s_size m) eqn:E.
    + apply Z.ltb_lt in E. rewrite H. exists None. split; [done|].
      split; [split; [by intros [? ?]|lia]|done].
    + apply Z.ltb_ge in E. destruct H as (m' & -> & _).
      exists (Some (Node10 m')). split; [done|]. split; [done|].
      by intros r' [= <-].
  - pose proof (shrink48_wf m W) as H.
    destruct (16 <? size48 m) eqn:E.
    + apply Z.ltb_lt in E. rewrite H. exists None. split; [done|].
      split; [split; [by intros [? ?]|lia]|done].
    + apply Z.ltb_ge in E. destruct H as (m' & -> & _).
      exists (Some (Node16 m')). split; [done|]. split; [done|].
      by intros r' [= <-].
  - pose proof (shrink256_wf m W) as H.
    destruct (48 <? size256 m) eqn:E.
    + apply Z.ltb_lt in E. rewrite H. exists None. split; [done|].
      split; [split; [by intros [? ?]|lia]|done].
    + apply Z.ltb_ge in E. destruct H as (m' & -> & _).
      exists (Some (Node48 m')). split; [done|]. split; [done|].
      by intros r' [= <-].
Qed.

(** C8 (as amended).  [grow()] of a well-formed node that is full (or of
    any well-formed [Node48]) returns a node of the next variant of the
    ladder, well formed again, with the same prefix, the same number of
    children and the same child under every byte. *)
Theorem grow_next_variant n :
  growable n ->
  exists r, grow n = Ret r /\ kind r = larger_kind n /\ path r = path n /\
    numChildren r = numChildren n /\ wf_node r /\
    forall c, is_byte c -> findChild r c = findChild n c.
Proof.
  destruct n as [suffix v|m|m|m|m|m];
    cbn [growable wf_node isFull grow larger_kind path findChild numChildren];
    intros [W Hfull]; [done|..|done].
  - pose proof (isFullS_full 4 m (wfS_typed _ _ W) Hfull) as Hs.
    destruct (growS_wf 4 10 m W Hs ltac:(lia) ltac:(lia)) as (m' & -> & W' & S & P & F).
    exists (Node10 m'). split; [done|]. split; [done|]. split; [done|].
    split; [done|]. split; [done|]. intros c _. apply F.
  - pose proof (isFullS_full 10 m (wfS_typed _ _ W) Hfull) as Hs.
    destruct (growS_wf 10 16 m W Hs ltac:(lia) ltac:(lia)) as (m' & -> & W' & S & P & F).
    exists (Node16 m'). split; [done|]. split; [done|]. split; [done|].
    split; [done|]. split; [done|]. intros c _. apply F.
  - pose proof (isFullS_full 16 m (wfS_typed _ _ W) Hfull) as Hs.
    destruct (grow16_wf m W Hs) as (m' & -> & W' & S & P & F).
    by exists (Node48 m').
  - destruct (grow48_wf m W) as (m' & -> & W' & S & P & F).
    by exists (Node256 m').
Qed.

(** C10.  The replacement built by [shrink()] of a well-formed [Node10],
    [Node16], [Node48] or [Node256] at or below its threshold has the
    empty prefix, whatever the prefix of the original was, and the same
    number of children and the same child under every byte; it is well
    formed again. *)
Theorem shrink_drops_prefix n :
  wf_node n -> has_smaller_variant n -> shrinks n ->
  exists r, shrink n = Ret (Some r) /\ path r = [] /\
    numChildren r = numChildren n /\ wf_node r /\
    forall c, is_byte c -> findChild r c = findChild n c.
Proof.
  destruct n as [suffix v|m|m|m|m|m];
    cbn [wf_node has_smaller_variant shrinks shrink path findChild numChildren];
    intros W Hv Hs; try done.
  - pose proof (shrinkS_wf 10 4 m W ltac:(lia)) as H.
    replace (4 <? s_size m) with false in H by (symmetry; apply Z.ltb_ge; lia).
    destruct H as (m' & -> & W' & S & P & F).
    exists (Node4 m'). split; [done|]. split; [done|]. split; [done|].
    split; [done|]. intros c _. apply F.
  - pose proof (shrinkS_wf 16 10 m W ltac:(lia)) as H.
    replace (10 <? s_size m) with false in H by (symmetry; apply Z.ltb_ge; lia).
    destruct H as (m' & -> & W' & S & P & F).
    exists (Node10 m'). split; [done|]. split; [done|]. split; [done|].
    split; [done|]. intros c _. apply F.
  - pose proof (shrink48_wf m W) as H.
    replace (16 <? size48 m) with false in H by (symmetry; apply Z.ltb_ge; lia).
    destruct H as (m' & -> & W' & S & P & F). by exists (Node16 m').
  - pose proof (shrink256_wf m W) as H.
    replace (48 <? size256 m) with false in H by (symmetry; apply Z.ltb_ge; lia).
    destruct H as (m' & -> & W' & S & P & F). by exists (Node48 m').
Qed.
End NodeTheorems.

(** The example nodes are well formed. *)
Lemma node4_A_wf : wf_node node4_A.
Proof. wfS_concrete. Defined.

Lemma node4_full_wf : wf_node node4_full.
Proof. wfS_concrete. Defined.

Lemma node10_AB_wf : wf_node node10_AB.
Proof. wfS_concrete. Defined.

Lemma iter_witness :
  iter node4_full (fun ch (seen : list (option (node Z))) =>
                     (seen ++ [ch], bool_decide (length seen < 1)%nat)) []
  = Ret [Some (leaf_of 1); Some (leaf_of 2)].
Proof.
  rewrite (iter_yields_in_order node4_full _ [] node4_full_wf). reflexivity.
Defined.

(** A [node48] built by [addChild('B')], [addChild('A')] yields the child
    of 'B' first. *)
Lemma node48_iter_not_byte_order :
  addChild (Node48 (newNode48 [])) 66 (Some (leaf_of 2))
    ≫= (fun n => addChild n 65 (Some (leaf_of 1))) = Ret node48_BA /\
  iter node48_BA record_all [] = Ret [Some (leaf_of 2); Some (leaf_of 1)] /\
  byte_order node48_BA = [Some (leaf_of 1); Some (leaf_of 2)] /\
  iter node48_BA record_all [] <> Ret (visit record_all (byte_order node48_BA) []).
Proof.
  split; [reflexivity|]. split; [reflexivity|]. split; [by vm_compute|].
  vm_compute. congruence.
Qed.

Lemma shrink_witness :
  exists r, shrink node4_A = Ret r /\ (is_Some r <-> shrinks node4_A) /\
    forall r', r = Some r' ->
      1 = 1 /\ [Some (leaf_of 1); None; None; None] !! 0%nat = Some (Some r').
Proof. exact (shrink_thresholds node4_A eq_refl node4_A_wf). Defined.

Lemma grow_witness :
  exists r, grow node4_full = Ret r /\ kind r = "NODE10" /\ path r = b "foo" /\
    numChildren r = 4 /\ wf_node r /\
    forall c, is_byte c -> findChild r c = findChild node4_full c.
Proof. exact (grow_next_variant node4_full (conj node4_full_wf eq_refl)). Defined.

(** [grow()] of a [node4] with one child copies all four slots. *)
Lemma grow_partly_filled_node4 :
  wf_node node4_A /\
  exists r, grow node4_A = Ret r /\
    findChild node4_A 0 = Ret None /\ findChild r 0 = Ret (Some None) /\
    numChildren node4_A = 1 /\ numChildren r = 4.
Proof.
  split; [exact node4_A_wf|]. eexists. split; [reflexivity|]. by vm_compute.
Qed.

Lemma shrink_prefix_witness :
  exists r, shrink node10_AB = Ret (Some r) /\ path r = [] /\
    numChildren r = 2 /\ wf_node r /\
    forall c, is_byte c -> findChild r c = findChild node10_AB c.
Proof.
  apply (shrink_drops_prefix node10_AB node10_AB_wf I). simpl. lia.
Defined.

Section Node48Invariant.
Context {N : Type}.

(** C7.  The dispatch-table invariant of [node48] is preserved by
    [addChild] of a child under a byte that has none, on a node that is
    not full, and by [deleteChild] of any byte; the added child is found
    under its byte, the deleted byte has no child any more, and every
    other byte keeps its child, also when its child was moved into the
    vacated slot. *)
Theorem node48_invariant_preserved (n : node48 N) (c : Z) (x : N) :
  inv48 n -> is_byte c ->
  (isFull48 n = false -> findChild48 n c = Ret None ->
   exists n', addChild48 n c (Some x) = Ret n' /\ inv48 n' /\
     forall c', is_byte c' ->
       findChild48 n' c' = if decide (c' = c) then Ret (Some (Some x))
                           else findChild48 n c') /\
  (exists n', deleteChild48 n c = Ret n' /\ inv48 n' /\
     forall c', is_byte c' ->
       findChild48 n' c' = if decide (c' = c) then Ret None
                           else findChild48 n c').
Proof.
  intros I Hc. split.
  - intros Hfull Hfree. apply Z.leb_gt in Hfull.
    rewrite findChild48_inv in Hfree by done.
    assert (key_at n c = 0) as Hk.
    { destruct (key_at n c =? 0) eqn:E; [by apply Z.eqb_eq|done]. }
    exists (added48 n c (Some x)). split; [by apply addChild48_Ret|].
    split; [by apply addChild48_inv|].
    intros c' Hc'. by apply findChild48_added.
  - destruct (decide (key_at n c = 0)) as [Hk|Hk].
    + exists n. split; [by apply deleteChild48_absent|]. split; [done|].
      intros c' Hc'. case_decide as E; [|done]. subst.
      rewrite findChild48_inv by done. by rewrite Hk.
    + exists (deleted48 n c). split; [by apply deleteChild48_Ret|].
      split; [by apply deleteChild48_inv|].
      intros c' Hc'. by apply findChild48_deleted.
Qed.
End Node48Invariant.

(** The witness adds a child under 'C' to the node that holds 'B' and 'A',
    and deletes 'B' from it: the child of 'A' moves into the first slot. *)
Lemma node48_invariant_witness :
  (exists n', addChild48 node48_BA_ 67 (Some (leaf_of 3)) = Ret n' /\ inv48 n' /\
     forall c', is_byte c' ->
       findChild48 n' c' = if decide (c' = 67) then Ret (Some (Some (leaf_of 3)))
                           else findChild48 node48_BA_ c') /\
  (exists n', deleteChild48 node48_BA_ 66 = Ret n' /\ inv48 n' /\
     forall c', is_byte c' ->
       findChild48 n' c' = if decide (c' = 66) then Ret None
                           else findChild48 node48_BA_ c').
Proof.
  assert (inv48 node48_BA_) as I.
  { apply (addChild48_inv (added48 (newNode48 []) 66 (Some (leaf_of 2))) 65 (leaf_of 1));
      [|by vm_compute|by vm_compute|reflexivity].
    apply (addChild48_inv (newNode48 []) 66 (leaf_of 2));
      [apply newNode48_wf|by vm_compute|by vm_compute|reflexivity]. }
  split.
  - apply (proj1 (node48_invariant_preserved node48_BA_ 67 (leaf_of 3) I
                    ltac:(by vm_compute))); reflexivity.
  - apply (proj2 (node48_invariant_preserved node48_BA_ 66 (leaf_of 3) I
                    ltac:(by vm_compute))).
Defined.

(** ** The container *)

(** C9.  [Insert] of a subject that contains the no-pivot byte returns
    [(None, false)] and leaves the tree as it was: same size, same
    entries. *)
Theorem Insert_rejects_noPivot {T} (t : SubjectTree T) (subject : bytes) (value : T) :
  noPivot ∈ subject ->
  Insert t subject value = (t, None, false).
Proof. intros H. unfold Insert. by rewrite bool_decide_eq_true_2. Qed.

Lemma Insert_rejects_noPivot_witness :
  Insert (Tree ({[ b "foo" := 1 ]} : gmap bytes Z) 1) (b "foo.bar.baz." ++ [noPivot]) 22
  = (Tree {[ b "foo" := 1 ]} 1, None, false).
Proof.
  apply Insert_rejects_noPivot. apply (bool_decide_unpack _). by vm_compute.
Defined.

(** * Further properties *)

(** ** [genParts]: the slices returned *)

Lemma in_order_nil bound : in_order bound [].
Proof. split; [constructor|]. intros a b p q _ H. by rewrite lookup_nil in H. Qed.

Lemma in_order_mono bound bound' parts :
  in_order bound parts -> bound <= bound' -> in_order bound' parts.
Proof.
  intros [Hall Hord] Hle. split; [|done].
  eapply Forall_impl; [exact Hall|]. intros p. simpl. lia.
Qed.

Lemma in_order_snoc bound bound' parts p :
  in_order bound parts -> 0 <= bound <= lo p -> lo p < hi p -> hi p <= bound' ->
  in_order bound' (parts ++ [p]).
Proof.
  intros [Hall Hord] Hlo Hne Hhi. split.
  - apply Forall_app. split.
    + eapply Forall_impl; [exact Hall|]. intros q. simpl. lia.
    + constructor; [lia|constructor].
  - intros a b' q r Hab Ha Hb.
    destruct (decide (b' < length parts)%nat) as [Hlt|Hge].
    + rewrite lookup_app_l in Ha, Hb by lia. by apply (Hord a b' q r).
    + assert (b' = length parts) as ->.
      { apply lookup_lt_Some in Hb. rewrite length_app in Hb. simpl in Hb. lia. }
      rewrite list_lookup_middle in Hb by done. injection Hb as <-.
      rewrite lookup_app_l in Ha by lia.
      rewrite Forall_forall in Hall.
      apply list_elem_of_lookup_2 in Ha. specialize (Hall q Ha). simpl in Hall. lia.
Qed.

Lemma genParts_loop_order filter fuel : forall i start parts,
  0 <= start <= i -> start <= len filter -> in_order start parts ->
  in_order (genParts_loop filter fuel i start parts).1
           (genParts_loop filter fuel i start parts).2 /\
  start <= (genParts_loop filter fuel i start parts).1 <= len filter.
Proof.
  induction fuel as [|fuel IH]; intros i start parts Hsi Hsl Hord; [simpl; split; [done|lia]|].
  assert (forall i' start' parts',
            0 <= start' <= i' -> start <= start' <= len filter ->
            in_order start' parts' ->
            in_order (genParts_loop filter fuel i' start' parts').1
                     (genParts_loop filter fuel i' start' parts').2 /\
            start <= (genParts_loop filter fuel i' start' parts').1 <= len filter) as Hnext.
  { intros i' start' parts' H1 H2 H3.
    destruct (IH i' start' parts' H1 ltac:(lia) H3) as [Ha Hb]. split; [done|lia]. }
  assert (in_order (i + 1)
            (if start <? i then parts ++ [Span start (i + 1)] else parts)) as Hlit.
  { destruct (start <? i) eqn:E.
    - apply Z.ltb_lt in E. apply (in_order_snoc start); simpl; (done || lia).
    - apply (in_order_mono start); [done|lia]. }
  simpl. destruct (i <? len filter) eqn:Hlt; [|simpl; split; [done|lia]].
  apply Z.ltb_lt in Hlt.
  destruct (byte_at filter i =? tsep) eqn:Ht.
  - destruct (tsep_pwc filter i) eqn:Hpw.
    { unfold tsep_pwc in Hpw. apply andb_true_iff in Hpw as [Hpw _].
      apply andb_true_iff in Hpw as [Hie%Z.ltb_lt _].
      destruct (i + 1 + 2 <=? len filter - 1) eqn:E.
      - apply Z.leb_le in E. apply Hnext; [lia|lia|].
        apply (in_order_snoc (i + 1)); simpl; (done || lia).
      - apply Z.leb_gt in E. apply Hnext; [lia|lia|].
        apply (in_order_snoc (i + 1)); simpl; (done || lia). }
    destruct (tsep_fwc filter i) eqn:Hfw.
    { unfold tsep_fwc in Hfw. apply andb_true_iff in Hfw as [Hfw _].
      apply andb_true_iff in Hfw as [Hie%Z.ltb_lt _].
      apply Hnext; [lia|lia|].
      apply (in_order_snoc (i + 1)); simpl; (done || lia). }
    apply Hnext; (done || lia).
  - destruct ((byte_at filter i =? pwc) || (byte_at filter i =? fwc));
      [|apply Hnext; (done || lia)].
    destruct (prev_not_tsep filter i); [apply Hnext; (done || lia)|].
    destruct (next_not_tsep filter i); [apply Hnext; (done || lia)|].
    destruct (i + 1 <=? len filter - 1) eqn:E.
    + apply Z.leb_le in E. apply Hnext; [lia|lia|].
      apply (in_order_snoc start); simpl; (done || lia).
    + apply Z.leb_gt in E. apply Hnext; [lia|lia|].
      apply (in_order_snoc start); simpl; (done || lia).
Qed.

(** X3.  The parts [genParts(filter, nil)] returns are slices of the
    filter that lie within it and follow each other from left to right
    without overlap; every part but the last is non-empty. *)
Theorem genParts_slices_in_order (filter : bytes) :
  genParts filter [] = map (span_bytes filter) (genSpans filter []) /\
  Forall (fun p => 0 <= lo p <= hi p /\ hi p <= len filter) (genSpans filter []) /\
  forall a b p q, (a < b)%nat ->
    genSpans filter [] !! a = Some p -> genSpans filter [] !! b = Some q ->
    lo p < hi p /\ hi p <= lo q.
Proof.
  split; [done|]. unfold genSpans.
  assert (0 <= len filter) as Hlen by (unfold len; lia).
  destruct (genParts_loop_order filter (length filter) 0 0 []) as [[Hall Hord] Hb];
    [lia|lia|apply in_order_nil|].
  destruct (genParts_loop filter (length filter) 0 0 []) as [start parts].
  simpl in Hall, Hord, Hb.
  assert (Forall (fun p => 0 <= lo p <= hi p /\ hi p <= len filter) parts) as Hall'.
  { eapply Forall_impl; [exact Hall|]. intros p. simpl. lia. }
  assert (forall a b p q, (a < b)%nat ->
            parts !! a = Some p -> parts !! b = Some q ->
            lo p < hi p /\ hi p <= lo q) as Hord'.
  { intros a b' p q Hab Ha Hb'. split; [|by apply (Hord a b' p q)].
    rewrite Forall_forall in Hall. apply list_elem_of_lookup_2 in Ha.
    specialize (Hall p Ha). simpl in Hall. lia. }
  destruct (start <? len filter) eqn:E; [|done]. apply Z.ltb_lt in E.
  set (s := if byte_at filter start =? tsep then start + 1 else start).
  assert (start <= s <= len filter) as Hs by (subst s; destruct (_ =? _); lia).
  split.
  - apply Forall_app. split; [done|]. constructor; [simpl; lia|constructor].
  - intros a b' p q Hab Ha Hb'.
    destruct (decide (b' < length parts)%nat) as [Hlt|Hge].
    + rewrite lookup_app_l in Ha, Hb' by lia. by apply (Hord' a b' p q).
    + assert (b' = length parts) as ->.
      { apply lookup_lt_Some in Hb'. rewrite length_app in Hb'. simpl in Hb'. lia. }
      rewrite list_lookup_middle in Hb' by done. injection Hb' as <-.
      rewrite lookup_app_l in Ha by lia.
      rewrite Forall_forall in Hall.
      apply list_elem_of_lookup_2 in Ha. specialize (Hall p Ha). simpl in *. lia.
Qed.

(** ** [genParts]: the parts cover a valid filter *)

Lemma chain_nil filter : chain filter [].
Proof. intros a p q H. by rewrite lookup_nil in H. Qed.

Lemma chain_snoc filter l q :
  chain filter l -> (forall p, last l = Some p -> adjacent filter p q) ->
  chain filter (l ++ [q]).
Proof.
  intros Hc Hl a p r Ha Hb.
  destruct (decide (S a < length l)%nat) as [Hlt|Hge].
  - rewrite lookup_app_l in Ha, Hb by lia. by apply (Hc a).
  - assert (S a = length l) as E.
    { apply lookup_lt_Some in Hb. rewrite length_app in Hb. simpl in Hb. lia. }
    rewrite E, list_lookup_middle in Hb by done. injection Hb as <-.
    rewrite lookup_app_l in Ha by lia. apply Hl.
    rewrite last_lookup. by replace (pred (length l)) with a by lia.
Qed.

Lemma head_chain_snoc filter l q :
  (forall p, head l = Some p -> lo p = 0) -> chain filter l ->
  (l = [] -> lo q = 0) -> (forall p, last l = Some p -> adjacent filter p q) ->
  (forall p, head (l ++ [q]) = Some p -> lo p = 0) /\ chain filter (l ++ [q]).
Proof.
  intros Hh Hc Hq Hadj. split; [|by apply chain_snoc].
  intros p Hp. destruct l as [|x l]; simpl in Hp.
  - injection Hp as <-. by apply Hq.
  - by apply Hh.
Qed.

Section Cover.
Variable filter : bytes.
Hypothesis V : valid_filter filter.

(** A wildcard part at [w], after a literal part from [start] when
    [start < w]. *)
Lemma covered_wildcard start parts w start' :
  covered filter start parts -> 0 <= start <= w -> is_wildcard (byte_at filter w) ->
  (start' = w + 2 /\ byte_at filter (w + 1) = tsep \/
   start' = w + 1 /\ w + 1 = len filter) ->
  covered filter start'
    ((if start <? w then parts ++ [Span start w] else parts) ++ [Span w (w + 1)]).
Proof.
  intros (Hh & Hc & Hs) Hsw Hw Hst.
  assert (forall q, lo q = start ->
            (parts = [] -> lo q = 0) /\
            (forall p, last parts = Some p -> adjacent filter p q)) as Hnext.
  { intros q Hq. split.
    - intros ->. destruct Hs as [[_ ->]|(p & Hp & _)]; done.
    - intros p Hp. destruct Hs as [[-> _]|(p' & Hp' & Hwp & Hs)]; [done|].
      rewrite Hp in Hp'. injection Hp' as <-. unfold adjacent. rewrite Hq.
      destruct Hs as [[-> Hb]|[-> Hl]]; [by right|by left]. }
  assert (exists l, l = (if start <? w then parts ++ [Span start w] else parts) /\
            (forall p, head l = Some p -> lo p = 0) /\ chain filter l /\
            (l = [] -> lo (Span w (w + 1)) = 0) /\
            (forall p, last l = Some p -> adjacent filter p (Span w (w + 1))))
    as (l & <- & Hh' & Hc' & Hq' & Hadj').
  { eexists. split; [done|]. destruct (start <? w) eqn:E.
    - apply Z.ltb_lt in E.
      destruct (Hnext (Span start w) eq_refl) as [H1 H2].
      destruct (head_chain_snoc filter parts (Span start w) Hh Hc H1 H2) as [H3 H4].
      split; [done|]. split; [done|]. split.
      + by intros ?%app_nil_r_inv.
      + intros p. rewrite last_snoc. intros [= <-]. by left.
    - apply Z.ltb_ge in E. assert (w = start) as -> by lia.
      destruct (Hnext (Span start (start + 1)) eq_refl) as [H1 H2]. done. }
  destruct (head_chain_snoc filter l (Span w (w + 1)) Hh' Hc' Hq' Hadj') as [H3 H4].
  split; [done|]. split; [done|]. right.
  exists (Span w (w + 1)). rewrite last_snoc. split; [done|]. split; [by split|].
  simpl. destruct Hst as [[-> ?]|[-> ?]]; [left|right]; (split; [lia|done]).
Qed.

Lemma covered_start_not_tsep start parts :
  covered filter start parts -> start < len filter -> byte_at filter start <> tsep.
Proof.
  intros (_ & _ & Hs) Hlt.
  destruct Hs as [[_ ->]|(p & _ & _ & [[-> Hb]|[-> Hl]])].
  - apply (vf_first _ V).
  - destruct (decide (0 <= hi p)) as [Hp|Hp].
    + by apply (vf_no_empty _ V).
    + unfold byte_at in Hb. replace (hi p <? 0) with true in Hb
        by (symmetry; apply Z.ltb_lt; lia). discriminate.
  - lia.
Qed.

Lemma genParts_loop_covered fuel : forall i start parts,
  0 <= start <= i -> covered filter start parts ->
  (start < i -> byte_at filter (i - 1) = tsep -> quiet filter (i - 1)) ->
  covered filter (genParts_loop filter fuel i start parts).1
          (genParts_loop filter fuel i start parts).2.
Proof.
  induction fuel as [|fuel IH]; intros i start parts Hsi Hcov Hq; [done|].
  simpl. destruct (i <? len filter) eqn:Hlt; [|done]. apply Z.ltb_lt in Hlt.
  pose proof (vf_last _ V) as Hlast.
  destruct (byte_at filter i =? tsep) eqn:Ht.
  - apply Z.eqb_eq in Ht.
    assert (start < i) as Hlti.
    { destruct (decide (start = i)) as [->|]; [|lia].
      by destruct (covered_start_not_tsep i parts Hcov Hlt). }
    replace (start <? i) with true by (symmetry; apply Z.ltb_lt; lia).
    destruct (tsep_pwc filter i) eqn:Hpw.
    { unfold tsep_pwc in Hpw. apply andb_true_iff in Hpw as [Hpw H3].
      apply andb_true_iff in Hpw as [H1%Z.ltb_lt H2%Z.eqb_eq].
      assert (covered filter (if i + 1 + 2 <=? len filter - 1 then i + 3 else i + 2)
                ((parts ++ [Span start (i + 1)]) ++ [Span (i + 1) (i + 1 + 1)])) as Hc'.
      { pose proof (covered_wildcard start parts (i + 1)
                      (if i + 1 + 2 <=? len filter - 1 then i + 3 else i + 2) Hcov) as H.
        replace (start <? i + 1) with true in H by (symmetry; apply Z.ltb_lt; lia).
        apply H; [lia|rewrite H2; by left|].
        destruct (i + 1 + 2 <=? len filter - 1) eqn:E.
        - apply Z.leb_le in E. left. split; [lia|].
          replace (i + 1 + 1) with (i + 2) by lia. bool_to_prop; (done || lia).
        - apply Z.leb_gt in E. right. split; [lia|].
          bool_to_prop; [|lia].
          assert (i + 2 = len filter - 1) as E' by lia. rewrite E' in *. done. }
      replace (i + 1 + 1) with (i + 2) in * by lia.
      destruct (i + 1 + 2 <=? len filter - 1) eqn:E.
      - replace (i + 3) with (i + 2 + 1) in Hc' by lia.
        apply IH; [apply Z.leb_le in E; lia|done|lia].
      - replace (i + 2) with (i + 1 + 1) in Hc' at 1 by lia.
        apply IH; [lia|done|lia]. }
    destruct (tsep_fwc filter i) eqn:Hfw.
    { unfold tsep_fwc in Hfw. apply andb_true_iff in Hfw as [Hfw H3%Z.eqb_eq].
      apply andb_true_iff in Hfw as [H1%Z.ltb_lt H2%Z.eqb_eq].
      pose proof (covered_wildcard start parts (i + 1) (i + 2) Hcov) as H.
      replace (start <? i + 1) with true in H by (symmetry; apply Z.ltb_lt; lia).
      replace (i + 1 + 1) with (i + 2) in * by lia.
      apply IH; [lia| |lia].
      apply H; [lia|rewrite H2; by right|]. right. lia. }
    apply IH; [lia|done|]. intros _ _. replace (i + 1 - 1) with i by lia. done.
  - apply Z.eqb_neq in Ht.
    destruct ((byte_at filter i =? pwc) || (byte_at filter i =? fwc)) eqn:Hw.
    2:{ apply IH; [lia|done|]. intros _. by replace (i + 1 - 1) with i by lia. }
    assert (is_wildcard (byte_at filter i)) as Hwild.
    { apply orb_true_iff in Hw as [H%Z.eqb_eq|H%Z.eqb_eq]; [by left|by right]. }
    destruct (vf_tokens _ V i ltac:(lia) Hwild) as [Hprev Hnext].
    replace (prev_not_tsep filter i) with false.
    2:{ symmetry. unfold prev_not_tsep. apply andb_false_iff.
        destruct Hprev as [->|Hp]; [by left|right].
        apply negb_false_iff, Z.eqb_eq, Hp. }
    replace (next_not_tsep filter i) with false.
    2:{ symmetry. unfold next_not_tsep. apply orb_false_iff.
        destruct Hnext as [->|Hn].
        - split; [apply Z.eqb_neq; lia|]. apply andb_false_iff. left.
          apply Z.ltb_ge. lia.
        - split.
          + apply Z.eqb_neq. intros E. rewrite E in Hn. done.
          + apply andb_false_iff. right. apply negb_false_iff, Z.eqb_eq, Hn. }
    assert (start = i) as ->.
    { destruct (decide (start = i)) as [|Hne]; [done|]. exfalso.
      assert (byte_at filter (i - 1) = tsep) as Hp.
      { destruct Hprev as [->|]; [lia|done]. }
      destruct (Hq ltac:(lia) Hp) as [Q1 Q2].
      destruct Hwild as [Hpwc|Hfwc].
      - unfold tsep_pwc in Q1. replace (i - 1 + 1) with i in Q1 by lia.
        replace (i - 1 + 2) with (i + 1) in Q1 by lia.
        rewrite Hpwc in Q1.
        replace (i - 1 <? len filter - 1) with true in Q1
          by (symmetry; apply Z.ltb_lt; lia).
        change (pwc =? pwc) with true in Q1. cbn [andb] in Q1.
        apply orb_false_iff in Q1 as [Q1 Q3]. apply Z.eqb_neq in Q3.
        destruct Hnext as [->|Hn]; [lia|].
        rewrite Hn in Q1. change (tsep =? tsep) with true in Q1.
        rewrite andb_true_r in Q1. apply Z.leb_gt in Q1. lia.
      - pose proof (vf_fwc_last _ V i ltac:(lia) Hfwc) as He.
        unfold tsep_fwc in Q2. replace (i - 1 + 1) with i in Q2 by lia.
        rewrite Hfwc in Q2.
        replace (i - 1 <? len filter - 1) with true in Q2
          by (symmetry; apply Z.ltb_lt; lia).
        replace (i =? len filter - 1) with true in Q2
          by (symmetry; apply Z.eqb_eq; lia).
        done. }
    pose proof (covered_wildcard i parts i
                  ((if i + 1 <=? len filter - 1 then i + 1 else i) + 1) Hcov) as H.
    rewrite Z.ltb_irrefl in H.
    apply IH; [destruct (i + 1 <=? len filter - 1); lia| |lia].
    apply H; [lia|done|].
    destruct (i + 1 <=? len filter - 1) eqn:E.
    + apply Z.leb_le in E. left. split; [lia|].
      destruct Hnext as [->|]; [lia|done].
    + apply Z.leb_gt in E. right. lia.
Qed.

(** X18.  On a filter whose tokens are not empty, in which every wildcard
    byte is a token of its own and [>] is the last byte, the parts of
    [genParts] cover the filter: the first part starts at byte 0, the last
    part ends where the filter ends, and every part starts where the one
    before ends, or one byte later when that one is a wildcard part, the
    byte skipped being the separator after the wildcard. *)
Theorem genParts_covers_valid_filter :
  (forall p, head (genSpans filter []) = Some p -> lo p = 0) /\
  chain filter (genSpans filter []) /\
  (forall p, last (genSpans filter []) = Some p -> hi p = len filter) /\
  (genSpans filter [] = [] -> filter = []).
Proof.
  unfold genSpans.
  pose proof (genParts_loop_covered (length filter) 0 0 [] ltac:(lia)) as H.
  destruct (genParts_loop filter (length filter) 0 0 []) as [start parts].
  simpl in H.
  assert (covered filter start parts) as Hcov.
  { apply H; [|lia]. split; [done|]. split; [apply chain_nil|by left]. }
  clear H. pose proof Hcov as (Hh & Hc & Hs).
  destruct (start <? len filter) eqn:E.
  - apply Z.ltb_lt in E.
    replace (byte_at filter start =? tsep) with false
      by (symmetry; apply Z.eqb_neq; by eapply covered_start_not_tsep).
    assert ((parts = [] -> lo (Span start (len filter)) = 0) /\
            (forall p, last parts = Some p ->
                       adjacent filter p (Span start (len filter)))) as [H1 H2].
    { split.
      - intros ->. destruct Hs as [[_ ->]|(p & Hp & _)]; done.
      - intros p Hp. destruct Hs as [[-> _]|(p' & Hp' & Hwp & Hs')]; [done|].
        rewrite Hp in Hp'. injection Hp' as <-. unfold adjacent. simpl.
        destruct Hs' as [[-> Hb]|[-> Hl]]; [by right|by left]. }
    destruct (head_chain_snoc filter parts _ Hh Hc H1 H2) as [H3 H4].
    split; [done|]. split; [done|]. split.
    + intros p. rewrite last_snoc. by intros [= <-].
    + by intros ?%app_nil_r_inv.
  - apply Z.ltb_ge in E. split; [done|]. split; [done|].
    destruct Hs as [[-> ->]|(p & Hp & Hw & [[-> Hb]|[-> Hl]])].
    + split; [done|]. intros _. destruct filter; [done|].
      unfold len in E. simpl in E. lia.
    + exfalso. assert (hi p < len filter) as Hlt.
      { destruct (decide (hi p < len filter)) as [|Hge]; [done|].
        unfold byte_at in Hb. destruct (hi p <? 0); [done|].
        rewrite lookup_ge_None_2 in Hb by (unfold len in *; lia). done. }
      assert (hi p = len filter - 1) as E' by lia.
      rewrite E' in Hb. by apply (vf_last _ V).
    + split; [|by intros ->]. intros q. rewrite Hp. by intros [= <-].
Qed.
End Cover.

(** A valid filter. *)
Lemma valid_filter_example : valid_filter (b "a.*").
Proof.
  assert (forall j, 3 <= j -> byte_at (b "a.*") j = 0) as Hout.
  { intros j Hj. unfold byte_at.
    replace (j <? 0) with false by (symmetry; apply Z.ltb_ge; lia).
    rewrite lookup_ge_None_2; [done|]. simpl. lia. }
  assert (forall j, 0 <= j -> j = 0 \/ j = 1 \/ j = 2 \/ 3 <= j) as Hcases by lia.
  constructor.
  - by vm_compute.
  - by vm_compute.
  - intros j Hj Hb.
    destruct (Hcases j Hj) as [->|[->|[->|Hge]]];
      [by vm_compute in Hb|by vm_compute|by vm_compute in Hb|].
    by rewrite Hout in Hb.
  - intros j Hj [Hw|Hw]; change (len (b "a.*")) with 3 in Hj;
      destruct (Hcases j ltac:(lia)) as [->|[->|[->|Hge]]];
      try (by vm_compute in Hw); try lia.
    split; [by right|by left].
  - intros j Hj Hw. change (len (b "a.*")) with 3 in Hj.
    destruct (Hcases j ltac:(lia)) as [->|[->|[->|Hge]]];
      try (by vm_compute in Hw); lia.
Qed.

Lemma genParts_covers_valid_filter_witness :
  (forall p, head (genSpans (b "a.*") []) = Some p -> lo p = 0) /\
  chain (b "a.*") (genSpans (b "a.*") []) /\
  (forall p, last (genSpans (b "a.*") []) = Some p -> hi p = len (b "a.*")) /\
  (genSpans (b "a.*") [] = [] -> b "a.*" = []).
Proof. exact (genParts_covers_valid_filter (b "a.*") valid_filter_example). Defined.

(** ** [genParts]: the parts of a valid filter *)

Lemma elem_of_sub (s : bytes) lo hi x :
  0 <= lo -> x ∈ sub s lo hi -> exists j, lo <= j < hi /\ byte_at s j = x.
Proof.
  intros Hlo [n Hn]%list_elem_of_lookup. unfold sub in Hn.
  apply lookup_take_Some in Hn as [Hn Hlt].
  rewrite lookup_drop in Hn.
  exists (lo + Z.of_nat n). split; [lia|].
  unfold byte_at.
  replace (lo + Z.of_nat n <? 0) with false by (symmetry; apply Z.ltb_ge; lia).
  replace (Z.to_nat (lo + Z.of_nat n)) with (Z.to_nat lo + n)%nat by lia.
  by rewrite Hn.
Qed.

Lemma span_bytes_literal_clean (filter : bytes) l h :
  0 <= l ->
  (forall j, l <= j < h -> ~ is_wildcard (byte_at filter j)) ->
  clean_span filter (Span l h).
Proof.
  intros Hlo H. right; right. unfold span_bytes. cbn [lo hi].
  split; intros (j & Hj & E)%elem_of_sub; try done; apply (H j Hj); rewrite E;
    [by left|by right].
Qed.

Lemma span_bytes_one (filter : bytes) w :
  0 <= w < len filter ->
  span_bytes filter (Span w (w + 1)) = [byte_at filter w].
Proof.
  intros Hw. unfold span_bytes, sub, byte_at. cbn [lo hi].
  replace (w <? 0) with false by (symmetry; apply Z.ltb_ge; lia).
  replace (Z.to_nat (w + 1 - w)) with 1%nat by lia.
  destruct (lookup_lt_is_Some_2 filter (Z.to_nat w)) as [x Hx];
    [unfold len in Hw; lia|].
  rewrite Hx. cbn [default].
  rewrite <- (take_drop_middle _ _ _ Hx).
  rewrite drop_app_length'; [done|].
  rewrite length_take. apply lookup_lt_Some in Hx. lia.
Qed.

Lemma span_bytes_wild_clean (filter : bytes) w :
  0 <= w < len filter -> is_wildcard (byte_at filter w) ->
  clean_span filter (Span w (w + 1)).
Proof.
  intros Hw Hwild. unfold clean_span. rewrite span_bytes_one by done.
  destruct Hwild as [-> | ->]; [by left|by right; left].
Qed.

Section CleanParts.
Variable filter : bytes.
Hypothesis V : valid_filter filter.

Lemma genParts_loop_clean fuel : forall i start parts,
  0 <= start <= i -> len filter - i <= Z.of_nat fuel ->
  Forall (clean_span filter) parts ->
  (forall j, start <= j < i -> ~ is_wildcard (byte_at filter j)) ->
  0 <= (genParts_loop filter fuel i start parts).1 /\
  Forall (clean_span filter)
         (genParts_loop filter fuel i start parts).2 /\
  (forall j, (genParts_loop filter fuel i start parts).1 <= j < len filter ->
             ~ is_wildcard (byte_at filter j)).
Proof.
  induction fuel as [|fuel IH]; intros i start parts Hsi Hfuel Hparts Hrange.
  { simpl. split; [lia|]. split; [done|]. intros j Hj. apply Hrange. lia. }
  simpl. destruct (i <? len filter) eqn:Hlt.
  2:{ apply Z.ltb_ge in Hlt. simpl. split; [lia|]. split; [done|].
      intros j Hj. apply Hrange. lia. }
  apply Z.ltb_lt in Hlt.
  assert (forall c w, start <= w ->
            (forall j, start <= j < w -> ~ is_wildcard (byte_at filter j)) ->
            Forall (clean_span filter)
                   (if start <? c then parts ++ [Span start w] else parts))
    as Hlit.
  { intros c w Hw Hr. destruct (start <? c); [|done].
    apply Forall_app. split; [done|]. apply Forall_singleton.
    apply span_bytes_literal_clean; [lia|done]. }
  assert (forall l w, Forall (clean_span filter) l -> 0 <= w < len filter ->
            is_wildcard (byte_at filter w) ->
            Forall (clean_span filter) (l ++ [Span w (w + 1)])) as Hwild.
  { intros l w Hl Hw Hb. apply Forall_app. split; [done|].
    apply Forall_singleton. by apply span_bytes_wild_clean. }
  assert (forall j, start <= j < i + 1 -> byte_at filter i = tsep ->
            ~ is_wildcard (byte_at filter j)) as Hsep.
  { intros j Hj Ht. destruct (decide (j = i)) as [->|]; [|apply Hrange; lia].
    rewrite Ht. by intros [?|?]. }
  destruct (byte_at filter i =? tsep) eqn:Ht.
  - apply Z.eqb_eq in Ht.
    destruct (tsep_pwc filter i) eqn:Hpw.
    { unfold tsep_pwc in Hpw. apply andb_true_iff in Hpw as [Hpw H3].
      apply andb_true_iff in Hpw as [H1%Z.ltb_lt H2%Z.eqb_eq].
      replace (i + 2) with (i + 1 + 1) by lia.
      apply IH; [destruct (i + 1 + 2 <=? len filter - 1); lia
                |destruct (i + 1 + 2 <=? len filter - 1); lia| |intros j Hj; lia].
      apply Hwild; [|lia|rewrite H2; by left].
      apply Hlit; [lia|]. intros j Hj. by apply Hsep. }
    destruct (tsep_fwc filter i) eqn:Hfw.
    { unfold tsep_fwc in Hfw. apply andb_true_iff in Hfw as [Hfw H3%Z.eqb_eq].
      apply andb_true_iff in Hfw as [H1%Z.ltb_lt H2%Z.eqb_eq].
      replace (i + 2) with (i + 1 + 1) by lia.
      apply IH; [lia|lia| |intros j Hj; lia].
      apply Hwild; [|lia|rewrite H2; by right].
      apply Hlit; [lia|]. intros j Hj. by apply Hsep. }
    apply IH; [lia|lia|done|]. intros j Hj. by apply Hsep.
  - apply Z.eqb_neq in Ht.
    destruct ((byte_at filter i =? pwc) || (byte_at filter i =? fwc)) eqn:Hw.
    2:{ apply IH; [lia|lia|done|]. intros j Hj.
        destruct (decide (j = i)) as [->|]; [|apply Hrange; lia].
        apply orb_false_iff in Hw as [H1%Z.eqb_neq H2%Z.eqb_neq].
        by intros [?|?]. }
    assert (is_wildcard (byte_at filter i)) as Hwi.
    { apply orb_true_iff in Hw as [H%Z.eqb_eq|H%Z.eqb_eq]; [by left|by right]. }
    destruct (vf_tokens _ V i ltac:(lia) Hwi) as [Hprev Hnext].
    pose proof (vf_last _ V) as Hlast.
    replace (prev_not_tsep filter i) with false.
    2:{ symmetry. unfold prev_not_tsep. apply andb_false_iff.
        destruct Hprev as [->|Hp]; [by left|right].
        apply negb_false_iff, Z.eqb_eq, Hp. }
    replace (next_not_tsep filter i) with false.
    2:{ symmetry. unfold next_not_tsep. apply orb_false_iff.
        destruct Hnext as [->|Hn].
        - split; [apply Z.eqb_neq; lia|]. apply andb_false_iff. left.
          apply Z.ltb_ge. lia.
        - split.
          + apply Z.eqb_neq. intros E. rewrite E in Hn. done.
          + apply andb_false_iff. right. apply negb_false_iff, Z.eqb_eq, Hn. }
    apply IH; [destruct (i + 1 <=? len filter - 1); lia
              |destruct (i + 1 <=? len filter - 1); lia| |intros j Hj; lia].
    apply Hwild; [done|lia|done].
Qed.

(** X20.  On a filter whose tokens are not empty and in which every
    wildcard byte is a token of its own, no literal part of [genParts]
    holds a wildcard byte: every part is [*], [>] or bytes none of which
    is a wildcard. *)
Theorem genParts_valid_filter_clean : Forall clean (genParts filter []).
Proof.
  unfold genParts. rewrite app_nil_l. apply Forall_fmap.
  unfold genSpans.
  pose proof (genParts_loop_clean (length filter) 0 0 [] ltac:(lia)
                ltac:(unfold len; lia) (Forall_nil_2 _) ltac:(intros; lia)) as H.
  destruct (genParts_loop filter (length filter) 0 0 []) as [start parts].
  simpl in H. destruct H as (Hs & Hp & Hr).
  destruct (start <? len filter); [|done].
  apply Forall_app. split; [done|]. apply Forall_singleton.
  apply span_bytes_literal_clean; [destruct (byte_at filter start =? tsep); lia|].
  intros j Hj. apply Hr. destruct (byte_at filter start =? tsep); lia.
Qed.
End CleanParts.

Lemma genParts_valid_filter_clean_witness :
  Forall clean (genParts (b "a.*") []).
Proof. exact (genParts_valid_filter_clean (b "a.*") valid_filter_example). Defined.

(** ** [matchParts]: literal parts, the shape of the result *)

Lemma literal_not_wild p c :
  literal p -> (c = pwc \/ c = fwc) -> (len p =? 1) && (byte_at p 0 =? c) = false.
Proof.
  intros [H1 H2] Hc. apply andb_false_iff.
  destruct p as [|x [|y p]];
    [left; reflexivity| |left; apply Z.eqb_neq; unfold len; simpl; lia].
  right. apply Z.eqb_neq. change (byte_at [x] 0) with x.
  intros ->. destruct Hc as [-> | ->]; congruence.
Qed.

Lemma sub_as_take_drop {A} (s : list A) lo hi :
  sub s lo hi = take (Z.to_nat (hi - lo)) (drop (Z.to_nat lo) s).
Proof. done. Qed.

Lemma len_app {A} (l k : list A) : len (l ++ k) = len l + len k.
Proof. unfold len. rewrite length_app. lia. Qed.

Lemma len_nonneg {A} (l : list A) : 0 <= len l.
Proof. unfold len. lia. Qed.

(** What is left of [frag] after a prefix [take si frag] has been matched. *)
Lemma prefix_after frag (done_ tail_ : bytes) si :
  done_ = take (Z.to_nat si) frag ->
  frag `prefix_of` done_ ++ tail_ <-> drop (Z.to_nat si) frag `prefix_of` tail_.
Proof.
  intros ->. split.
  - intros [k Hk]. exists k.
    rewrite <- (take_drop (Z.to_nat si) frag) in Hk at 2.
    rewrite <- app_assoc in Hk. by apply app_inv_head in Hk.
  - intros [k Hk]. exists k. rewrite Hk, app_assoc. by rewrite take_drop.
Qed.

Lemma matchParts_loop_literal frag rest : forall pre si,
  Forall literal rest ->
  si = len (concat pre) -> concat pre = take (Z.to_nat si) frag ->
  si < len frag \/ rest <> [] ->
  literal_match (pre ++ rest) frag
    (denote (pre ++ rest)
       (matchParts_loop frag (len (pre ++ rest) - 1) (len pre) rest si)).
Proof.
  induction rest as [|part rest IH]; intros pre si Hlit Hsi Hpre Hgo.
  - destruct Hgo as [Hgo|]; [|done].
    rewrite app_nil_r. simpl. unfold literal_match.
    case_decide as Hp; [|done]. exfalso.
    apply prefix_length in Hp. unfold len in *. lia.
  - apply Forall_cons in Hlit as [Hl Hlit].
    assert (0 <= si <= len frag) as Hle.
    { pose proof (f_equal length Hpre) as E. rewrite length_take in E.
      unfold len in *. lia. }
    assert ((pre ++ part :: rest) !! Z.to_nat (len pre) = Some part) as Hi.
    { unfold len. rewrite Nat2Z.id. by apply list_lookup_middle. }
    assert (drop (Z.to_nat (len pre)) (pre ++ part :: rest) = part :: rest) as Hdrop.
    { unfold len. rewrite Nat2Z.id. by rewrite drop_app_length. }
    assert (concat (pre ++ part :: rest) = concat pre ++ part ++ concat rest) as Hcat.
    { by rewrite concat_app. }
    cbn [matchParts_loop].
    destruct (len frag <=? si) eqn:Hend.
    { (* the fragment is consumed *)
      apply Z.leb_le in Hend. assert (si = len frag) as -> by lia.
      cbn [denote]. rewrite Hdrop. unfold literal_match.
      assert (concat pre = frag) as Hall.
      { rewrite Hpre. unfold len. rewrite Nat2Z.id. apply take_ge. lia. }
      rewrite decide_True; [|rewrite Hcat, Hall; by apply prefix_app_r].
      split; [done|]. rewrite Hcat, Hall. simpl. by rewrite drop_app_length. }
    apply Z.leb_gt in Hend.
    rewrite (literal_not_wild part pwc Hl) by (by left).
    rewrite (literal_not_wild part fwc Hl) by (by right).
    pose proof (len_nonneg part) as Hlp.
    destruct (Z.min (si + len part) (len frag) <? si + len part) eqn:Hlong.
    + (* the part is longer than what is left of the fragment *)
      apply Z.ltb_lt in Hlong.
      assert (len frag < si + len part) as Hfit by lia.
      rewrite Z.min_r by lia. clear Hlong.
      assert (sub frag si (len frag) = drop (Z.to_nat si) frag) as Hf
        by (apply sub_to_end; lia).
      rewrite Hf. rewrite Z.ltb_irrefl.
      case_bool_decide as Heq; cbn [negb].
      * replace (len frag <? si + len part) with true by (symmetry; apply Z.ltb_lt; lia).
        rewrite Z.leb_refl. cbn [denote].
        rewrite (drop_alter_here _ _ _ _ Hi).
        unfold literal_match. rewrite Hcat.
        assert (part = drop (Z.to_nat si) frag ++ drop (Z.to_nat (len frag - si)) part) as Hpart.
        { rewrite <- Heq. unfold sub. rewrite Z.sub_0_r, drop_0. by rewrite take_drop. }
        rewrite decide_True.
        2:{ apply (prefix_after frag (concat pre) _ si Hpre).
            rewrite Hpart, <- app_assoc. by apply prefix_app_r. }
        split; [done|]. cbn [fst concat].
        rewrite sub_to_end by lia.
        assert (concat pre ++ part
                = frag ++ drop (Z.to_nat (len frag - si)) part) as E.
        { rewrite Hpart at 1. by rewrite app_assoc, Hpre, take_drop. }
        rewrite (app_assoc (concat pre)), E, <- app_assoc, drop_app_length.
        do 2 f_equal. unfold len. rewrite Nat2Z.id.
        rewrite <- Nat.add_1_r, <- drop_drop, drop_app_length. done.
      * cbn [denote]. unfold literal_match. rewrite decide_False; [done|].
        rewrite Hcat. intros Hp%(prefix_after frag (concat pre) _ si Hpre).
        apply Heq. destruct Hp as [k Hk].
        unfold sub. rewrite Z.sub_0_r, drop_0.
        rewrite <- (take_app_le part (concat rest)) by (unfold len in *; lia).
        rewrite Hk. rewrite take_app_length'; [done|].
        rewrite length_drop. unfold len in *. lia.
    + (* the part fits into what is left of the fragment *)
      apply Z.ltb_ge in Hlong.
      assert (si + len part <= len frag) as Hfit by lia.
      rewrite Z.min_l by lia. clear Hlong.
      assert (sub frag si (si + len part)
              = take (length part) (drop (Z.to_nat si) frag)) as Hf.
      { unfold sub, len. f_equal. lia. }
      rewrite Hf.
      case_bool_decide as Heq; cbn [negb].
      2:{ cbn [denote]. unfold literal_match. rewrite decide_False; [done|].
          rewrite Hcat. intros Hp%(prefix_after frag (concat pre) _ si Hpre).
          apply Heq. destruct Hp as [k Hk].
          apply (f_equal (take (length part))) in Hk.
          rewrite take_app_length in Hk.
          rewrite take_app_le in Hk; [done|]. rewrite length_drop. unfold len in *. lia. }
      assert (concat (pre ++ [part]) = take (Z.to_nat (si + len part)) frag) as Hpre'.
      { rewrite concat_app. simpl. rewrite app_nil_r. rewrite Hpre, Heq at 1.
        rewrite take_take_drop. f_equal. unfold len. lia. }
      assert (si + len part = len (concat (pre ++ [part]))) as Hsi'.
      { rewrite concat_app. simpl. rewrite app_nil_r, len_app. lia. }
      assert (pre ++ part :: rest = (pre ++ [part]) ++ rest) as Hparts
        by (by rewrite <- app_assoc).
      assert (len pre + 1 = len (pre ++ [part])) as Hlen'
        by (rewrite len_app; unfold len; simpl; lia).
      destruct (si + len part <? len frag) eqn:Hmore.
      * apply Z.ltb_lt in Hmore. rewrite Hparts, Hlen'.
        apply IH; try done. by left.
      * apply Z.ltb_ge in Hmore. assert (si + len part = len frag) as Hfin by lia.
        destruct (len pre =? len (pre ++ part :: rest) - 1) eqn:Hlast.
        -- apply Z.eqb_eq in Hlast. rewrite len_app in Hlast.
           assert (rest = []) as ->.
           { unfold len in Hlast. simpl in Hlast. destruct rest; [done|simpl in Hlast; lia]. }
           cbn [denote]. unfold literal_match.
           assert (concat (pre ++ [part]) = frag) as Hall.
           { rewrite Hpre'. rewrite Hfin. unfold len. rewrite Nat2Z.id. apply take_ge. lia. }
           rewrite Hall. rewrite decide_True by done.
           split; [done|]. simpl. by rewrite drop_all.
        -- apply Z.eqb_neq in Hlast. rewrite Hparts, Hlen'.
           apply IH; try done. right. intros ->.
           apply Hlast. rewrite !len_app. unfold len. simpl. lia.
Qed.

(** X4.  When no part is the one-byte part [*] or [>], [matchParts]
    compares the fragment with the concatenation of the parts, however the
    bytes are split into parts: it returns [true] exactly when the fragment
    is a prefix of the concatenation, and the parts it returns then hold
    the bytes that follow the fragment; otherwise it returns the parts
    unchanged and [false]. *)
Theorem matchParts_literal (parts : list bytes) (frag : bytes) :
  Forall literal parts -> literal_match parts frag (matchParts parts frag).
Proof.
  intros Hlit. unfold matchParts, matchParts_run.
  destruct (len frag =? 0) eqn:E.
  - apply Z.eqb_eq in E. assert (frag = []) as ->.
    { destruct frag; [done|]. unfold len in E. simpl in E. lia. }
    cbn [denote]. unfold literal_match.
    rewrite decide_True by apply prefix_nil. done.
  - apply Z.eqb_neq in E.
    apply (matchParts_loop_literal frag parts [] 0); try done.
    left. pose proof (len_nonneg frag). lia.
Qed.

Lemma matchParts_literal_witness :
  literal_match [b "foo."; b "bar"] (b "foo.b") (matchParts [b "foo."; b "bar"] (b "foo.b")).
Proof.
  apply matchParts_literal. repeat constructor; discriminate.
Defined.

(** One literal part against a fragment that is not empty. *)
Lemma matchParts_single (p frag : bytes) :
  literal p -> frag <> [] ->
  matchParts [p] frag =
    if decide (p = frag) then ([], true)
    else if decide (frag `prefix_of` p) then ([drop (length frag) p], true)
    else ([p], false).
Proof.
  intros Hl Hne. unfold matchParts, matchParts_run.
  assert (0 < len frag) as Hlf.
  { destruct frag; [done|]. unfold len. simpl. lia. }
  replace (len frag =? 0) with false by (symmetry; apply Z.eqb_neq; lia).
  cbn [matchParts_loop].
  replace (len frag <=? 0) with false by (symmetry; apply Z.leb_gt; lia).
  rewrite (literal_not_wild p pwc Hl) by (by left).
  rewrite (literal_not_wild p fwc Hl) by (by right).
  pose proof (len_nonneg p) as Hlp. rewrite Z.add_0_l.
  destruct (Z.min (len p) (len frag) <? len p) eqn:Hlong.
  - apply Z.ltb_lt in Hlong. assert (len frag < len p) as Hfit by lia.
    rewrite Z.min_r by lia. rewrite sub_all.
    rewrite decide_False by (intros ->; lia).
    replace (len frag <? len frag) with false by (symmetry; apply Z.ltb_irrefl).
    rewrite (Z.sub_0_r (len frag)).
    assert (sub p 0 (len frag) = take (length frag) p) as Hs.
    { unfold sub, len. rewrite Z.sub_0_r, Nat2Z.id. done. }
    rewrite Hs.
    case_bool_decide as Heq; cbn [negb].
    + rewrite Z.leb_refl. cbn [denote]. simpl.
      rewrite decide_True.
      2:{ exists (drop (length frag) p). rewrite <- Heq at 1. by rewrite take_drop. }
      rewrite sub_to_end by lia. unfold len. by rewrite Nat2Z.id.
    + cbn [denote]. rewrite decide_False; [done|].
      intros [k ->]. apply Heq. by rewrite take_app_length.
  - apply Z.ltb_ge in Hlong. assert (len p <= len frag) as Hfit by lia.
    rewrite Z.min_l by lia.
    assert (sub frag 0 (len p) = take (length p) frag) as Hs.
    { unfold sub, len. rewrite Z.sub_0_r, Nat2Z.id. done. }
    rewrite Hs.
    case_bool_decide as Heq; cbn [negb].
    + destruct (len p <? len frag) eqn:Hmore.
      * apply Z.ltb_lt in Hmore. cbn [denote].
        rewrite decide_False by (intros ->; lia).
        rewrite decide_False; [done|].
        intros Hp%prefix_length. unfold len in *. lia.
      * apply Z.ltb_ge in Hmore. change (0 =? len [p] - 1) with true.
        cbn [denote]. rewrite decide_True; [done|].
        rewrite Heq. apply take_ge. unfold len in *. lia.
    + cbn [denote]. rewrite decide_False.
      2:{ intros ->. apply Heq. by rewrite firstn_all. }
      rewrite decide_False; [done|].
      intros [k ->]. apply Heq. rewrite len_app in Hfit.
      assert (k = []) as ->.
      { destruct k; [done|]. unfold len in Hfit. simpl in Hfit. lia. }
      rewrite app_nil_r. by rewrite firstn_all.
Qed.

Lemma genParts_literal (filter : bytes) :
  (forall j, ~ wildcard_token filter j) -> byte_at filter 0 <> tsep ->
  genParts filter [] = match filter with [] => [] | _ => [filter] end.
Proof.
  intros Hno Hlead. unfold genParts, genSpans.
  rewrite genParts_loop_none by (auto; lia). simpl.
  destruct filter as [|c rest]; [done|].
  replace (0 <? len (c :: rest)) with true
    by (symmetry; apply Z.ltb_lt; unfold len; simpl; lia).
  replace (byte_at (c :: rest) 0 =? tsep) with false
    by (symmetry; by apply Z.eqb_neq).
  simpl. unfold span_bytes. simpl. f_equal. apply sub_all.
Qed.

Lemma no_token_literal (filter : bytes) :
  (forall j, ~ wildcard_token filter j) -> literal filter.
Proof.
  intros Hno. split; intros ->; apply (Hno 0); vm_compute; intuition congruence.
Qed.

(** X5.  For a filter in which no wildcard occupies a token and that does
    not start with the separator, a leaf matches the parts of the filter
    completely ([leaf.matchParts(genParts(filter))] is [(nil, true)])
    exactly when [leaf.match(filter)] holds, that is when the filter is the
    suffix of the leaf. *)
Theorem leaf_matches_own_subject {T} (suffix filter : bytes) (v : T) :
  (forall j, ~ wildcard_token filter j) -> byte_at filter 0 <> tsep ->
  node_matchParts (Leaf suffix v) (genParts filter []) = ([], true)
  <-> leaf_match suffix filter = true.
Proof.
  intros Hno Hlead. unfold node_matchParts, leaf_match. cbn [path].
  rewrite genParts_literal by done. rewrite bool_decide_eq_true.
  destruct filter as [|c filter].
  - destruct suffix as [|d suffix]; [done|]. split; [|done].
    unfold matchParts, matchParts_run. simpl. discriminate.
  - destruct suffix as [|d suffix].
    + split; [|done]. unfold matchParts, matchParts_run. simpl. discriminate.
    + rewrite matchParts_single by (done || by apply no_token_literal).
      case_decide as E; [done|].
      case_decide; split; (done || discriminate).
Qed.

Lemma leaf_matches_own_subject_witness :
  node_matchParts (Leaf (b "foo.bar") 22) (genParts (b "foo.bar") []) = ([], true)
  <-> leaf_match (b "foo.bar") (b "foo.bar") = true.
Proof.
  apply (leaf_matches_own_subject (b "foo.bar") (b "foo.bar") 22); [|by vm_compute].
  intros j (Hj & Hw & _). change (len (b "foo.bar")) with 7 in Hj.
  assert (j = 0 \/ j = 1 \/ j = 2 \/ j = 3 \/ j = 4 \/ j = 5 \/ j = 6)
    as Hcases by lia.
  repeat (destruct Hcases as [->|Hcases]; [vm_compute in Hw; by destruct Hw|]).
  subst. vm_compute in Hw. by destruct Hw.
Defined.

Lemma sub_suffix {A} (p : list A) k : sub p k (len p) = drop (Z.to_nat k) p.
Proof.
  unfold sub, len. apply take_ge. rewrite length_drop. lia.
Qed.



(** X8.  Matching across a fragment boundary is not matching the joined
    fragment.  A literal part that ends in a wildcard byte [w], as in [a*],
    does not match [p ++ frag2] in one call; but matched against [p] alone
    it leaves the one-byte part [w], which the next call treats as a
    wildcard and so accepts [frag2]. *)
Theorem matchParts_split_wildcard_byte (p frag2 : bytes) (w : Z) :
  is_wildcard w -> p <> [] -> frag2 <> [] -> (tsep ∉ frag2) -> head frag2 <> Some w ->
  matchParts [p ++ [w]] (p ++ frag2) = ([p ++ [w]], false) /\
  matchParts [p ++ [w]] p = ([[w]], true) /\
  matchParts [[w]] frag2 = ([], true).
Proof.
  intros Hw Hp Hf Hsep Hhead.
  assert (literal (p ++ [w])) as Hl.
  { destruct p as [|x [|y p]]; [done| |]; split; discriminate. }
  split; [|split].
  - rewrite matchParts_single by (done || by destruct p).
    rewrite decide_False.
    2:{ intros E%app_inv_head. by subst. }
    rewrite decide_False; [done|].
    intros [k Hk]. rewrite <- app_assoc in Hk. apply app_inv_head in Hk.
    destruct frag2 as [|c frag2]; [done|]. injection Hk as -> _. done.
  - rewrite matchParts_single by done.
    rewrite decide_False.
    2:{ intros E. apply (f_equal length) in E. rewrite length_app in E. simpl in E. lia. }
    rewrite decide_True by (by apply prefix_app_r).
    by rewrite drop_app_length.
  - unfold matchParts, matchParts_run.
    assert (0 < len frag2) as Hlf.
    { destruct frag2; [done|]. unfold len. simpl. lia. }
    replace (len frag2 =? 0) with false by (symmetry; apply Z.eqb_neq; lia).
    cbn [matchParts_loop].
    replace (len frag2 <=? 0) with false by (symmetry; apply Z.leb_gt; lia).
    change (len [w] =? 1) with true. change (byte_at [w] 0) with w.
    destruct Hw as [-> | ->].
    + change (pwc =? pwc) with true. cbn [andb].
      rewrite sub_all.
      replace (IndexByte frag2 tsep <? 0) with true
        by (symmetry; apply Z.ltb_lt; by apply IndexByte_absent).
      done.
    + change (fwc =? pwc) with false. change (fwc =? fwc) with true. done.
Qed.

Lemma matchParts_split_wildcard_byte_witness :
  matchParts [b "a*"] (b "ab") = ([b "a*"], false) /\
  matchParts [b "a*"] (b "a") = ([b "*"], true) /\
  matchParts [b "*"] (b "b") = ([], true).
Proof.
  apply (matchParts_split_wildcard_byte (b "a") (b "b") pwc);
    [by left|done|done| |done].
  apply (bool_decide_unpack _). by vm_compute.
Defined.

(** ** [matchParts]: a fragment in two pieces *)

Lemma len_drop {A} (l : list A) n :
  0 <= n -> len (drop (Z.to_nat n) l) = Z.max 0 (len l - n).
Proof. intros Hn. unfold len. rewrite length_drop. lia. Qed.

Lemma matchParts_loop_rest frag lpi rest : forall i si,
  0 <= si ->
  matchParts_loop frag lpi i rest si
  = matchParts_rest lpi i rest (drop (Z.to_nat si) frag).
Proof.
  induction rest as [|part rest IH]; intros i si Hsi; [done|].
  cbn [matchParts_loop matchParts_rest].
  rewrite len_drop by done.
  destruct (len frag <=? si) eqn:Hend.
  { apply Z.leb_le in Hend. by replace (0 `max` (len frag - si) <=? 0) with true
      by (symmetry; apply Z.leb_le; lia). }
  apply Z.leb_gt in Hend.
  replace (0 `max` (len frag - si) <=? 0) with false by (symmetry; apply Z.leb_gt; lia).
  rewrite Z.max_r by lia.
  rewrite sub_to_end by done.
  assert (0 <= len part) as Hlp by (unfold len; lia).
  destruct ((len part =? 1) && (byte_at part 0 =? pwc)).
  { pose proof (IndexByte_range (drop (Z.to_nat si) frag) tsep) as Hr.
    destruct (IndexByte (drop (Z.to_nat si) frag) tsep <? 0) eqn:E; [done|].
    apply Z.ltb_ge in E. rewrite IH by lia. f_equal.
    rewrite drop_drop. f_equal. lia. }
  destruct ((len part =? 1) && (byte_at part 0 =? fwc)); [done|].
  assert (Z.min (si + len part) (len frag) - si = Z.min (len part) (len frag - si)) as Hn by lia.
  set (end_ := Z.min (si + len part) (len frag)) in *.
  set (n := Z.min (len part) (len frag - si)) in *.
  assert (sub frag si end_ = take (Z.to_nat n) (drop (Z.to_nat si) frag)) as ->.
  { unfold sub. by rewrite Hn. }
  replace (end_ <? si + len part) with (n <? len part).
  2:{ destruct (n <? len part) eqn:E1; symmetry;
        [apply Z.ltb_lt in E1; apply Z.ltb_lt|apply Z.ltb_ge in E1; apply Z.ltb_ge]; lia. }
  assert (sub part 0 (end_ - si) = take (Z.to_nat n) part) as ->.
  { unfold sub. rewrite Z.sub_0_r, Hn. done. }
  destruct (negb _); [done|].
  replace (end_ <? len frag) with (n <? len frag - si).
  2:{ destruct (n <? len frag - si) eqn:E1; symmetry;
        [apply Z.ltb_lt in E1; apply Z.ltb_lt|apply Z.ltb_ge in E1; apply Z.ltb_ge]; lia. }
  destruct (n <? len frag - si) eqn:Hmore.
  { rewrite IH by lia. f_equal. rewrite drop_drop. f_equal. lia. }
  apply Z.ltb_ge in Hmore.
  destruct (n <? len part) eqn:Hcut.
  { by replace (len frag <=? end_) with true by (symmetry; apply Z.leb_le; lia). }
  destruct (i =? lpi); [done|].
  rewrite IH by lia. f_equal. rewrite drop_drop. f_equal. lia.
Qed.

Lemma matchParts_rest_shift d rest : forall lpi i rem,
  matchParts_rest (lpi + d) (i + d) rest rem
  = shift_mret d (matchParts_rest lpi i rest rem).
Proof.
  induction rest as [|part rest IH]; intros lpi i rem; [done|].
  cbn [matchParts_rest].
  replace (i + d =? lpi + d) with (i =? lpi).
  2:{ destruct (Z.eqb_spec i lpi), (Z.eqb_spec (i + d) (lpi + d)); (done || lia). }
  replace (i + d + 1) with (i + 1 + d) by lia.
  repeat match goal with
  | |- context [if ?c then _ else _] => destruct c
  end; try done; apply IH.
Qed.

(** The loop returns indices of the parts it was given; a literal first
    part is consumed, cut or rejected, never deferred. *)
Lemma matchParts_rest_index lpi rest : forall i rem,
  match matchParts_rest lpi i rest rem with
  | RetWhole => False
  | RetFrom j => i <= j <= i + len rest /\
                 (j = i -> rem = [] \/ exists rest', rest = [pwc] :: rest')
  | RetCopy j k => i <= j < i + len rest /\ 0 <= k
  | _ => True
  end.
Proof.
  induction rest as [|part rest IH]; intros i rem; [done|].
  assert (forall rem', match matchParts_rest lpi (i + 1) rest rem' with
            | RetWhole => False
            | RetFrom j => i <= j <= i + len (part :: rest) /\
                 (j = i -> rem = [] \/ exists rest', part :: rest = [pwc] :: rest')
            | RetCopy j k => i <= j < i + len (part :: rest) /\ 0 <= k
            | _ => True
            end) as Hrec.
  { intros rem'. specialize (IH (i + 1) rem'). unfold len in *. simpl.
    destruct (matchParts_rest lpi (i + 1) rest rem'); try done; [|lia].
    split; [lia|]. intros ->. lia. }
  cbn [matchParts_rest].
  assert (0 <= len rest) as Hl by (unfold len; lia).
  assert (len (part :: rest) = len rest + 1) as Hl' by (unfold len; simpl; lia).
  destruct (len rem <=? 0) eqn:E0.
  { split; [lia|]. intros _. left. destruct rem; [done|].
    apply Z.leb_le in E0. unfold len in E0. simpl in E0. lia. }
  destruct ((len part =? 1) && (byte_at part 0 =? pwc)) eqn:Epwc.
  { destruct (IndexByte rem tsep <? 0); [|apply Hrec].
    destruct (i =? lpi); [done|]. split; [lia|]. intros _. right.
    apply andb_true_iff in Epwc as [E1%Z.eqb_eq E2%Z.eqb_eq].
    destruct part as [|x [|y part]]; unfold len in E1; simpl in E1; try lia.
    exists rest. by rewrite <- E2. }
  destruct ((len part =? 1) && (byte_at part 0 =? fwc)); [done|].
  destruct (negb _); [done|].
  destruct (_ <? len rem); [apply Hrec|].
  destruct (_ <? len part); [pose proof (len_nonneg rem); lia|].
  destruct (i =? lpi); [done|]. apply Hrec.
Qed.

Lemma IndexByte_app_found a b c :
  0 <= IndexByte a c -> IndexByte (a ++ b) c = IndexByte a c.
Proof.
  induction a as [|x a IH]; simpl; [lia|].
  destruct (x =? c); [done|].
  pose proof (IndexByte_range a c) as Hr.
  destruct (IndexByte a c <? 0) eqn:E; [lia|].
  intros _. rewrite IH by (by apply Z.ltb_ge in E). by rewrite E.
Qed.

Lemma IndexByte_app_absent a b c :
  IndexByte a c < 0 ->
  IndexByte (a ++ b) c
  = if IndexByte b c <? 0 then -1 else len a + IndexByte b c.
Proof.
  induction a as [|x a IH]; simpl.
  { intros _. pose proof (IndexByte_range b c).
    destruct (IndexByte b c <? 0) eqn:E; [apply Z.ltb_lt in E; lia|].
    unfold len. simpl. lia. }
  destruct (x =? c); [lia|].
  pose proof (IndexByte_range a c) as Hr.
  pose proof (IndexByte_range b c) as Hb.
  destruct (IndexByte a c <? 0) eqn:E; [|apply Z.ltb_ge in E; lia].
  intros _. apply Z.ltb_lt in E. rewrite IH by done.
  destruct (IndexByte b c <? 0) eqn:E2; [done|].
  apply Z.ltb_ge in E2.
  replace (len a + IndexByte b c <? 0) with false
    by (symmetry; apply Z.ltb_ge; unfold len; lia).
  unfold len. simpl. lia.
Qed.

Lemma elem_of_drop {A} (x : A) n (l : list A) : x ∈ drop n l -> x ∈ l.
Proof. intros H. rewrite <- (take_drop n l). apply elem_of_app. by right. Qed.

Lemma clean_drop (p : bytes) n : clean p -> clean (drop n p).
Proof.
  intros [->|[->|[H1 H2]]].
  - destruct n; [by left|]. right; right. simpl. rewrite drop_nil.
    split; apply not_elem_of_nil.
  - destruct n; [by right; left|]. right; right. simpl. rewrite drop_nil.
    split; apply not_elem_of_nil.
  - right; right. split; intros H%elem_of_drop; done.
Qed.

Lemma clean_cut_literal (p : bytes) k :
  clean p -> 2 <= len p -> (0 <= k < len p) -> literal (drop (Z.to_nat k) p).
Proof.
  intros [->|[->|[H1 H2]]] Hp Hk; [done|done|].
  split; intros E.
  - apply H1. apply (elem_of_drop _ (Z.to_nat k)). rewrite E. left.
  - apply H2. apply (elem_of_drop _ (Z.to_nat k)). rewrite E. left.
Qed.

Lemma uncut_later lpi i rest rem k :
  uncut k i (matchParts_rest lpi (i + 1) rest rem)
  = matchParts_rest lpi (i + 1) rest rem.
Proof.
  pose proof (matchParts_rest_index lpi rest (i + 1) rem) as H.
  destruct (matchParts_rest lpi (i + 1) rest rem) as [| | |j|j k2]; try done.
  cbn [uncut]. destruct (Z.eqb_spec j i); [lia|done].
Qed.

Lemma take_app_take {A} (p f : list A) k n :
  (k <= length p)%nat ->
  take (k + n) (take k p ++ f) = take k p ++ take n f.
Proof.
  intros Hk. rewrite take_app. rewrite length_take. rewrite Nat.min_l by done.
  rewrite take_take. rewrite Nat.min_r by lia.
  by replace (k + n - k)%nat with n by lia.
Qed.

Lemma drop_app_take {A} (p f : list A) k n :
  (k <= length p)%nat ->
  drop (k + n) (take k p ++ f) = drop n f.
Proof.
  intros Hk. rewrite drop_app. rewrite length_take. rewrite Nat.min_l by done.
  rewrite drop_ge by (rewrite length_take; lia).
  by replace (k + n - k)%nat with n by lia.
Qed.

(** A literal part of which the first [k] bytes closed the fragment before:
    matching the whole part against those bytes and the next fragment is
    matching what is left of the part against the next fragment. *)
Lemma matchParts_rest_cut lpi i (p : bytes) rest f2 k :
  0 < k < len p -> f2 <> [] -> literal (drop (Z.to_nat k) p) ->
  matchParts_rest lpi i (p :: rest) (take (Z.to_nat k) p ++ f2)
  = uncut k i (matchParts_rest lpi i (drop (Z.to_nat k) p :: rest) f2).
Proof.
  intros Hk Hf2 Hlit.
  assert (0 < len f2) as Hl2.
  { destruct f2; [done|]. unfold len. simpl. lia. }
  assert (len (take (Z.to_nat k) p) = k) as Hlt.
  { unfold len in *. rewrite length_take. lia. }
  assert (len (drop (Z.to_nat k) p) = len p - k) as Hld.
  { unfold len in *. rewrite length_drop. lia. }
  cbn [matchParts_rest].
  rewrite len_app, Hlt, Hld.
  replace (k + len f2 <=? 0) with false by (symmetry; apply Z.leb_gt; lia).
  replace (len f2 <=? 0) with false by (symmetry; apply Z.leb_gt; lia).
  replace (len p =? 1) with false by (symmetry; apply Z.eqb_neq; lia).
  cbn [andb].
  pose proof (literal_not_wild _ pwc Hlit ltac:(by left)) as E1.
  pose proof (literal_not_wild _ fwc Hlit ltac:(by right)) as E2.
  rewrite Hld in E1, E2.
  rewrite E1, E2. clear E1 E2.
  set (n2 := Z.min (len p - k) (len f2)).
  assert (Z.min (len p) (k + len f2) = k + n2) as -> by lia.
  assert (0 <= n2) as Hn2 by lia.
  assert (Z.to_nat (k + n2) = (Z.to_nat k + Z.to_nat n2)%nat) as Hnat by lia.
  assert ((Z.to_nat k <= length p)%nat) as Hkp by (unfold len in *; lia).
  assert ((if k + n2 <? len p then take (Z.to_nat (k + n2)) p else p)
          = take (Z.to_nat k) p ++ take (Z.to_nat n2) (drop (Z.to_nat k) p)) as ->.
  { rewrite take_take_drop, <- Hnat.
    destruct (k + n2 <? len p) eqn:E; [done|].
    apply Z.ltb_ge in E. rewrite take_ge; [done|]. unfold len in *. lia. }
  assert ((if n2 <? len p - k then take (Z.to_nat n2) (drop (Z.to_nat k) p)
           else drop (Z.to_nat k) p)
          = take (Z.to_nat n2) (drop (Z.to_nat k) p)) as ->.
  { destruct (n2 <? len p - k) eqn:E; [done|].
    apply Z.ltb_ge in E. rewrite take_ge; [done|].
    rewrite length_drop. unfold len in *. lia. }
  rewrite Hnat, take_app_take by done.
  assert (bool_decide (take (Z.to_nat k) p ++ take (Z.to_nat n2) (drop (Z.to_nat k) p)
                       = take (Z.to_nat k) p ++ take (Z.to_nat n2) f2)
          = bool_decide (take (Z.to_nat n2) (drop (Z.to_nat k) p)
                         = take (Z.to_nat n2) f2)) as ->.
  { apply bool_decide_ext. split; [apply app_inv_head|by intros ->]. }
  destruct (negb _); [done|].
  replace (k + n2 <? k + len f2) with (n2 <? len f2).
  2:{ destruct (Z.ltb_spec n2 (len f2)), (Z.ltb_spec (k + n2) (k + len f2)); (done || lia). }
  replace (k + n2 <? len p) with (n2 <? len p - k).
  2:{ destruct (Z.ltb_spec n2 (len p - k)), (Z.ltb_spec (k + n2) (len p)); (done || lia). }
  rewrite drop_app_take by done.
  destruct (n2 <? len f2) eqn:Emore; [by rewrite uncut_later|].
  destruct (n2 <? len p - k) eqn:Ecut.
  { cbn [uncut]. by rewrite Z.eqb_refl. }
  destruct (i =? lpi); [done|].
  rewrite uncut_later. f_equal.
  apply Z.ltb_ge in Emore, Ecut.
  rewrite !drop_ge; [done| |].
  - unfold len in *. rewrite length_take, length_drop. lia.
  - unfold len in *. rewrite !length_app, !length_take, length_drop. lia.
Qed.

Lemma drop_app_add {A} (a b : list A) n :
  drop (length a + n) (a ++ b) = drop n b.
Proof.
  rewrite drop_app. rewrite drop_ge by lia.
  by replace (length a + n - length a)%nat with n by lia.
Qed.

Lemma drop_app_within {A} (a b : list A) n :
  (n <= length a)%nat -> drop n (a ++ b) = drop n a ++ b.
Proof.
  intros H. rewrite drop_app. by replace (n - length a)%nat with 0%nat by lia.
Qed.

Lemma take_app_within {A} (a b : list A) n :
  (n <= length a)%nat -> take n (a ++ b) = take n a.
Proof.
  intros H. rewrite take_app. replace (n - length a)%nat with 0%nat by lia.
  by rewrite take_0, app_nil_r.
Qed.

(** What the loop does on a longer fragment, read off what it did on the
    shorter one. *)
Lemma matchParts_rest_extend lpi f2 rest :
  f2 <> [] -> Forall clean rest -> forall i rem1,
  match matchParts_rest lpi i rest rem1 with
  | RetFail => matchParts_rest lpi i rest (rem1 ++ f2) = RetFail
  | RetFrom j =>
    matchParts_rest lpi i rest (rem1 ++ f2)
    = matchParts_rest lpi j (drop (Z.to_nat (j - i)) rest) f2
  | RetCopy j k =>
    exists p rest'', drop (Z.to_nat (j - i)) rest = p :: rest'' /\
      0 < k < len p /\ clean p /\ literal (drop (Z.to_nat k) p) /\
      matchParts_rest lpi i rest (rem1 ++ f2)
      = uncut k j (matchParts_rest lpi j (drop (Z.to_nat k) p :: rest'') f2)
  | _ => True
  end.
Proof.
  intros Hf2 Hclean.
  assert (0 < len f2) as Hl2.
  { destruct f2; [done|]. unfold len. simpl. lia. }
  induction Hclean as [|part rest Hc Hclean IH]; intros i rem1; [done|].
  set (X := matchParts_rest lpi i (part :: rest) (rem1 ++ f2)).
  assert (forall rem', X = matchParts_rest lpi (i + 1) rest (rem' ++ f2) ->
    match matchParts_rest lpi (i + 1) rest rem' with
    | RetFail => X = RetFail
    | RetFrom j =>
      X = matchParts_rest lpi j (drop (Z.to_nat (j - i)) (part :: rest)) f2
    | RetCopy j k =>
      exists p rest'', drop (Z.to_nat (j - i)) (part :: rest) = p :: rest'' /\
        0 < k < len p /\ clean p /\ literal (drop (Z.to_nat k) p) /\
        X = uncut k j (matchParts_rest lpi j (drop (Z.to_nat k) p :: rest'') f2)
    | _ => True
    end) as Hrec.
  { intros rem' Hstep. specialize (IH (i + 1) rem').
    pose proof (matchParts_rest_index lpi rest (i + 1) rem') as Hi.
    destruct (matchParts_rest lpi (i + 1) rest rem') as [| | |j|j k]; try done.
    - by rewrite Hstep.
    - rewrite Hstep, IH. destruct Hi as [Hi _].
      by replace (Z.to_nat (j - i)) with (S (Z.to_nat (j - (i + 1)))) by lia.
    - destruct IH as (p & rest'' & Hd & Hk & Hcp & Hlit & E). exists p, rest''.
      replace (Z.to_nat (j - i)) with (S (Z.to_nat (j - (i + 1)))) by lia.
      split; [done|]. by rewrite Hstep. }
  destruct (decide (rem1 = [])) as [->|Hne].
  { change (matchParts_rest lpi i (part :: rest) []) with (RetFrom i).
    cbv beta iota. by rewrite Z.sub_diag. }
  assert (X = matchParts_rest lpi i (part :: rest) (rem1 ++ f2)) as HX by done.
  pose proof HX as HXf.
  remember (matchParts_rest lpi i (part :: rest) rem1) as Y eqn:HY.
  clearbody X. cbn [matchParts_rest] in HX, HY.
  rewrite len_app in HX.
  pose proof (len_nonneg rem1) as Hl1. pose proof (len_nonneg part) as Hlp.
  replace (len rem1 + len f2 <=? 0) with false in HX
    by (symmetry; apply Z.leb_gt; lia).
  assert (matchParts_rest lpi i (part :: rest) f2
          = if (len part =? 1) && (byte_at part 0 =? pwc) then
              if IndexByte f2 tsep <? 0 then
                if i =? lpi then RetNil else RetFrom i
              else matchParts_rest lpi (i + 1) rest
                     (drop (Z.to_nat (IndexByte f2 tsep + 1)) f2)
            else matchParts_rest lpi i (part :: rest) f2) as Hsame.
  { destruct ((len part =? 1) && (byte_at part 0 =? pwc)) eqn:E; [|done].
    cbn [matchParts_rest]. rewrite E.
    by replace (len f2 <=? 0) with false by (symmetry; apply Z.leb_gt; lia). }
  assert (0 < len rem1) as E0.
  { destruct rem1; [done|]. unfold len. simpl. lia. }
  replace (len rem1 <=? 0) with false in HY by (symmetry; apply Z.leb_gt; lia).
  destruct ((len part =? 1) && (byte_at part 0 =? pwc)) eqn:Epwc.
  { pose proof (IndexByte_range rem1 tsep) as Hr1.
    pose proof (IndexByte_range f2 tsep) as Hr2.
    destruct (IndexByte rem1 tsep <? 0) eqn:Eidx.
    - apply Z.ltb_lt in Eidx.
      rewrite IndexByte_app_absent in HX by done.
      destruct (i =? lpi) eqn:Elast; subst Y; [done|].
      rewrite Z.sub_diag. change (drop (Z.to_nat 0) (part :: rest)) with (part :: rest).
      rewrite Hsame.
      destruct (IndexByte f2 tsep <? 0) eqn:E2; [done|].
      apply Z.ltb_ge in E2.
      replace (len rem1 + IndexByte f2 tsep <? 0) with false in HX
        by (symmetry; apply Z.ltb_ge; lia).
      rewrite HX. f_equal.
      replace (Z.to_nat (len rem1 + IndexByte f2 tsep + 1))
        with (length rem1 + Z.to_nat (IndexByte f2 tsep + 1))%nat
        by (unfold len; lia).
      apply drop_app_add.
    - apply Z.ltb_ge in Eidx.
      rewrite IndexByte_app_found, (proj2 (Z.ltb_ge _ _) Eidx) in HX by done.
      rewrite HY. apply Hrec. rewrite HX. f_equal.
      apply drop_app_within. unfold len in *. lia. }
  clear Hsame.
  destruct ((len part =? 1) && (byte_at part 0 =? fwc)) eqn:Efwc; [by subst Y|].
  destruct (Z.le_gt_cases (len part) (len rem1)) as [Hfit|Hcut].
  - (* the part fits in what is left of the first fragment *)
    rewrite Z.min_l in HX, HY by lia.
    rewrite Z.ltb_irrefl in HX, HY.
    rewrite take_app_within in HX by (unfold len in *; lia).
    replace (len part <? len rem1 + len f2) with true in HX
      by (symmetry; apply Z.ltb_lt; lia).
    rewrite drop_app_within in HX by (unfold len in *; lia).
    destruct (negb _); [by subst Y|].
    destruct (len part <? len rem1); [rewrite HY; by apply Hrec|].
    destruct (i =? lpi); [by subst Y|]. rewrite HY. by apply Hrec.
  - (* the first fragment ends inside the part *)
    rewrite (Z.min_r (len part) (len rem1)) in HY by lia.
    rewrite Z.ltb_irrefl in HY.
    replace (len rem1 <? len part) with true in HY
      by (symmetry; apply Z.ltb_lt; lia).
    rewrite (take_ge rem1) in HY by (unfold len; lia).
    destruct (decide (take (Z.to_nat (len rem1)) part = rem1)) as [Hcmp|Hcmp].
    + rewrite bool_decide_true in HY by done. cbn [negb] in HY. subst Y.
      rewrite Z.sub_diag. exists part, rest.
      assert (2 <= len part) as H2 by lia.
      assert (literal (drop (Z.to_nat (len rem1)) part)) as Hlit
        by (apply clean_cut_literal; (done || lia)).
      split; [done|]. split; [lia|]. split; [done|]. split; [done|].
      rewrite <- (matchParts_rest_cut lpi i part rest f2 (len rem1));
        [by rewrite Hcmp, HXf|lia|done|done].
    + rewrite bool_decide_false in HY by done. cbn [negb] in HY. subst Y.
      rewrite HX. clear HX.
      set (n := Z.min (len part) (len rem1 + len f2)).
      case_bool_decide as Hcmp'; [|done]. exfalso. apply Hcmp.
      assert (len rem1 <= n) as Hn by lia.
      apply (f_equal (take (Z.to_nat (len rem1)))) in Hcmp'.
      rewrite take_take, Nat.min_l in Hcmp' by lia.
      rewrite take_app_length' in Hcmp' by (unfold len; lia).
      revert Hcmp'. destruct (n <? len part); [|done].
      by rewrite take_take, Nat.min_l by lia.
Qed.

Lemma matchParts_as_rest (parts : list bytes) (frag : bytes) :
  frag <> [] ->
  matchParts parts frag
  = denote parts (matchParts_rest (len parts - 1) 0 parts frag).
Proof.
  intros Hne. unfold matchParts, matchParts_run.
  replace (len frag =? 0) with false.
  2:{ symmetry. apply Z.eqb_neq. destruct frag; [done|]. unfold len. simpl. lia. }
  by rewrite matchParts_loop_rest.
Qed.

(** Reading a return of the loop run on [parts[d:]] and the same return
    with its indices moved by [d] on [parts]. *)
Lemma denote_shift (parts : list bytes) d r :
  match r with
  | RetWhole => False
  | RetFrom j => 0 <= j
  | RetCopy j _ => 0 <= j
  | _ => True
  end ->
  agree (denote (drop d parts) r) (denote parts (shift_mret (Z.of_nat d) r)).
Proof.
  destruct r as [| | |j|j k]; intros H; split; try done; intros _; cbn [denote shift_mret fst].
  - rewrite drop_drop. f_equal. lia.
  - replace (Z.to_nat (j + Z.of_nat d)) with (d + Z.to_nat j)%nat by lia.
    rewrite <- (drop_drop _ (Z.to_nat j) d), (drop_alter_ge _ _ d) by lia.
    by replace (d + Z.to_nat j - d)%nat with (Z.to_nat j) by lia.
Qed.

(** The same when the first of the parts [parts[d:]] had lost its first
    [k] bytes to an earlier fragment. *)
Lemma denote_uncut (parts : list bytes) d (p : bytes) rest k r :
  drop d parts = p :: rest -> 0 <= k ->
  match r with
  | RetWhole => False
  | RetFrom j => 1 <= j
  | RetCopy j k2 => 0 <= j /\ 0 <= k2
  | _ => True
  end ->
  agree (denote (drop (Z.to_nat k) p :: rest) r)
        (denote parts (uncut k (Z.of_nat d) (shift_mret (Z.of_nat d) r))).
Proof.
  intros Hd Hk.
  destruct r as [| | |j|j k2]; intros H; split; try done.
  - intros _. cbn [denote shift_mret uncut fst].
    replace (Z.to_nat (j + Z.of_nat d)) with (d + Z.to_nat j)%nat by lia.
    rewrite <- (drop_drop _ (Z.to_nat j) d), Hd.
    by replace (Z.to_nat j) with (S (Z.to_nat (j - 1))) by lia.
  - cbn [shift_mret uncut]. by destruct (_ =? _).
  - intros _. destruct H as [Hj Hk2]. cbn [shift_mret uncut].
    destruct (Z.eqb_spec (j + Z.of_nat d) (Z.of_nat d)) as [E|E];
      cbn [denote fst].
    + assert (j = 0) as -> by lia.
      rewrite Z.add_0_l, Nat2Z.id.
      rewrite (drop_alter_ge _ parts d d), Nat.sub_diag, Hd by lia.
      change (Z.to_nat 0) with 0%nat. cbn [drop alter list_alter].
      rewrite !sub_suffix, drop_drop. do 2 f_equal. lia.
    + replace (Z.to_nat (j + Z.of_nat d)) with (d + Z.to_nat j)%nat by lia.
      rewrite <- (drop_drop _ (Z.to_nat j) d), (drop_alter_ge _ _ d) by lia.
      replace (d + Z.to_nat j - d)%nat with (Z.to_nat j) by lia. rewrite Hd.
      by replace (Z.to_nat j) with (S (Z.to_nat (j - 1))) by lia.
Qed.

Section TwoFragments.
Variable parts : list bytes.
Variables f1 f2 : bytes.
Hypothesis Hclean : Forall clean parts.

(** X19.  A fragment matched in two pieces.  When every part is [*], [>]
    or holds no wildcard byte, the first piece [f1] is accepted and leaves
    parts [r1] that are not empty, then matching the second piece [f2]
    against [r1] accepts exactly when matching [f1 ++ f2] against the
    original parts does, and when they accept both leave the same parts;
    [r1] is again made of wildcard parts and wildcard-free literals. *)
Theorem matchParts_two_fragments (r1 : list bytes) :
  matchParts parts f1 = (r1, true) -> r1 <> [] ->
  agree (matchParts r1 f2) (matchParts parts (f1 ++ f2)) /\ Forall clean r1.
Proof.
  intros Hm Hr1.
  destruct (decide (f1 = [])) as [->|Hf1].
  { change (matchParts parts []) with (parts, true) in Hm.
    injection Hm as <-. by split. }
  destruct (decide (f2 = [])) as [->|Hf2].
  { rewrite app_nil_r, Hm. split; [by split|].
    rewrite matchParts_as_rest in Hm by done.
    pose proof (matchParts_rest_extend (len parts - 1) [tsep] parts
                  ltac:(done) Hclean 0 f1) as He.
    destruct (matchParts_rest (len parts - 1) 0 parts f1) as [| | |j|j k];
      try done; cbn [denote] in Hm; injection Hm as <-; try done.
    - by apply Forall_drop.
    - destruct He as (p & rest & Hd & Hk & Hcp & _ & _).
      rewrite Z.sub_0_r in Hd.
      rewrite drop_alter_ge, Nat.sub_diag, Hd by lia.
      cbn [alter list_alter]. rewrite sub_suffix.
      apply (Forall_drop _ (Z.to_nat j)) in Hclean. rewrite Hd in Hclean.
      apply Forall_cons in Hclean as [_ Hrest].
      apply Forall_cons. split; [by apply clean_drop|done]. }
  assert (f1 ++ f2 <> []) as Hf12 by (by destruct f1).
  rewrite (matchParts_as_rest parts (f1 ++ f2)) by done.
  rewrite (matchParts_as_rest r1 f2) by done.
  rewrite matchParts_as_rest in Hm by done.
  set (lpi := len parts - 1) in *.
  pose proof (matchParts_rest_extend lpi f2 parts Hf2 Hclean 0 f1) as He.
  pose proof (matchParts_rest_index lpi parts 0 f1) as Hi.
  pose proof (matchParts_rest_index (len r1 - 1) r1 0 f2) as Hi2.
  destruct (matchParts_rest lpi 0 parts f1) as [| | |j|j k];
    try done; cbn [denote] in Hm; injection Hm as Hm; [done| |].
  - (* [f1] ended at a part boundary, or a [*] waits for its separator *)
    rewrite Z.sub_0_r in He. rewrite Hm in He.
    destruct Hi as [Hj _].
    assert (len r1 = len parts - j) as Hlen.
    { rewrite <- Hm. unfold len in *. rewrite length_drop. lia. }
    assert (lpi = len r1 - 1 + j) as Hlpi by (unfold lpi; lia).
    replace (matchParts_rest lpi j r1 f2)
      with (matchParts_rest (len r1 - 1 + j) (0 + j) r1 f2) in He
      by (f_equal; lia).
    rewrite matchParts_rest_shift in He. rewrite He.
    split; [|rewrite <- Hm; by apply Forall_drop].
    pose proof (denote_shift parts (Z.to_nat j)
                  (matchParts_rest (len r1 - 1) 0 r1 f2)) as Hs.
    rewrite Z2Nat.id, Hm in Hs by lia. apply Hs.
    destruct (matchParts_rest (len r1 - 1) 0 r1 f2); (done || lia).
  - (* [f1] ended inside a literal part *)
    destruct He as (p & rest & Hd & Hk & Hcp & Hlit & He).
    rewrite Z.sub_0_r in Hd.
    rewrite drop_alter_ge, Nat.sub_diag, Hd in Hm by lia.
    cbn [alter list_alter] in Hm. rewrite sub_suffix in Hm.
    destruct Hi as [Hj _].
    assert (len r1 = len parts - j) as Hlen.
    { rewrite <- Hm. apply (f_equal length) in Hd. rewrite length_drop in Hd.
      unfold len in *. simpl in *. lia. }
    assert (lpi = len r1 - 1 + j) as Hlpi by (unfold lpi; lia).
    rewrite Hm in He.
    replace (matchParts_rest lpi j r1 f2)
      with (matchParts_rest (len r1 - 1 + j) (0 + j) r1 f2) in He
      by (f_equal; lia).
    rewrite matchParts_rest_shift in He. rewrite He.
    split.
    + pose proof (denote_uncut parts (Z.to_nat j) p rest k
                    (matchParts_rest (len r1 - 1) 0 r1 f2) Hd) as Hs.
      rewrite Z2Nat.id, Hm in Hs by lia. apply Hs; [lia|].
      destruct (matchParts_rest (len r1 - 1) 0 r1 f2) as [| | |j2|j2 k2];
        (done || (try lia)).
      destruct Hi2 as [Hj2 H0].
      destruct (decide (j2 = 0)) as [->|]; [|lia].
      destruct (H0 eq_refl) as [?|[rest' E]]; [done|].
      rewrite <- Hm in E. injection E as E _. by destruct Hlit as [Hlit _].
    + rewrite <- Hm.
      apply (Forall_drop _ (Z.to_nat j)) in Hclean. rewrite Hd in Hclean.
      apply Forall_cons in Hclean as [_ Hrest].
      apply Forall_cons. split; [by apply clean_drop|done].
Qed.
End TwoFragments.

(** ** Nodes: lookups after [addChild] and [deleteChild] *)

Lemma lookup_kv_app {V} c (l k : list (Z * V)) :
  lookup_kv c (l ++ k)
  = match lookup_kv c l with Some v => Some v | None => lookup_kv c k end.
Proof.
  induction l as [|[a v] l IH]; [done|]. simpl. by destruct (a =? c).
Qed.

Lemma lookup_kv_elem {V} c v (kvs : list (Z * V)) :
  NoDup kvs.*1 -> lookup_kv c kvs = Some v <-> (c, v) ∈ kvs.
Proof.
  induction kvs as [|[a w] kvs IH]; simpl.
  - intros _. split; [done|]. by intros ?%elem_of_nil.
  - intros [Ha Hnd]%NoDup_cons. destruct (a =? c) eqn:E.
    + apply Z.eqb_eq in E. subst a. split.
      * intros [= ->]. left.
      * intros [[= ->]|Hin]%elem_of_cons; [done|].
        exfalso. apply Ha. apply list_elem_of_fmap. by exists (c, v).
    + apply Z.eqb_neq in E. rewrite IH by done. split.
      * intros H. by right.
      * intros [[= -> ->]|Hin]%elem_of_cons; done.
Qed.

Lemma lookup_kv_ext {V} c (l k : list (Z * V)) :
  NoDup l.*1 -> NoDup k.*1 ->
  (forall v, (c, v) ∈ l <-> (c, v) ∈ k) ->
  lookup_kv c l = lookup_kv c k.
Proof.
  intros Hl Hk H.
  destruct (lookup_kv c l) as [v|] eqn:E1.
  - apply (lookup_kv_elem c v l Hl), H, (lookup_kv_elem c v k Hk) in E1. done.
  - destruct (lookup_kv c k) as [v|] eqn:E2; [|done].
    apply (lookup_kv_elem c v k Hk), H, (lookup_kv_elem c v l Hl) in E2. congruence.
Qed.

Lemma index_of_fst {V} c (kvs : list (Z * V)) :
  index_of c kvs.*1 = None <-> lookup_kv c kvs = None.
Proof.
  induction kvs as [|[a w] kvs IH]; [by split|].
  rewrite fmap_cons. cbn [index_of lookup_kv fst].
  destruct (a =? c); [by split|]. destruct (index_of c kvs.*1); simpl.
  - split; [done|]. intros H. by apply IH in H.
  - split; [|done]. intros _. by apply IH.
Qed.

Section SmallFind.
Context {N : Type}.
Implicit Types n nn : snode N.

Lemma addChildS_find cap nn k x :
  wfS cap nn -> s_size nn < cap -> cap < 65536 -> is_byte k ->
  findChildS nn k = Ret None ->
  exists n', addChildS cap nn k (Some x) = Ret n' /\ wfS cap n' /\
    s_size n' = s_size nn + 1 /\ s_prefix n' = s_prefix nn /\
    forall c, findChildS n' c
              = if decide (c = k) then Ret (Some (Some x)) else findChildS nn c.
Proof.
  intros W Hlt Hcap Hk Hfree.
  destruct (addChildS_wf cap nn k x W Hlt Hcap Hk Hfree) as (n' & E & W' & S & P & A).
  exists n'. repeat (split; [done|]). intros c.
  rewrite (findChildS_wf cap n') by apply W'.
  rewrite (findChildS_wf cap nn) in Hfree |- * by apply W.
  rewrite A, lookup_kv_app. simpl.
  case_decide as Ec.
  - subst c. injection Hfree as ->. by rewrite Z.eqb_refl.
  - replace (k =? c) with false by (symmetry; apply Z.eqb_neq; congruence).
    by destruct (lookup_kv c (absS nn)).
Qed.

Lemma deleteChildS_find cap n c :
  wfS cap n -> cap < 65536 ->
  exists n', deleteChildS n c = Ret n' /\ wfS cap n' /\
    s_prefix n' = s_prefix n /\
    s_size n' = (if lookup_kv c (absS n) is Some _ then s_size n - 1 else s_size n) /\
    (lookup_kv c (absS n) = None -> n' = n) /\
    forall c', findChildS n' c'
               = if decide (c' = c) then Ret None else findChildS n c'.
Proof.
  intros W Hcap.
  destruct (deleteChildS_wf cap n c W Hcap) as (n' & E & W' & P).
  exists n'. split; [done|]. split; [done|]. split; [done|].
  pose proof W as (Ht & Hall & Hnd).
  rewrite (deleteChildS_spec cap) in E by done.
  pose proof (index_of_fst c (absS n)) as Hidx.
  rewrite (absS_keys cap) in Hidx by done.
  destruct (index_of c (take (Z.to_nat (s_size n)) (s_key n))) as [j|] eqn:Hj.
  - injection E as <-.
    destruct (lookup_kv c (absS n)) as [vc|] eqn:Hvc; [|by destruct Hidx as [_ H]; discriminate H].
    split; [by unfold removedS; destruct (_ <? _)|]. split; [done|].
    intros c'. rewrite (findChildS_wf cap _) by apply W'.
    rewrite (findChildS_wf cap n) by done.
    destruct (absS_removed cap n c j Ht Hj) as (e & Hsplit & Ht' & Habs).
    pose proof W' as (_ & _ & Hnd').
    set (l := take (Z.to_nat (s_size n - 1)) (absS n)) in *.
    (* the entry at [j] has the key [c] *)
    assert (exists vj, absS n !! j = Some (c, vj)) as [vj Hat].
    { apply index_of_lookup in Hj. rewrite <- (absS_keys cap) in Hj by done.
      rewrite list_lookup_fmap in Hj.
      destruct (absS n !! j) as [[a w]|]; [|done]. injection Hj as ->. by exists w. }
    assert (forall i a w w', absS n !! i = Some (a, w) -> absS n !! j = Some (a, w') -> i = j)
      as Huniq.
    { intros i a w w' Hi Hj'. apply (NoDup_lookup _ i j a Hnd);
        rewrite list_lookup_fmap; [by rewrite Hi|by rewrite Hj']. }
    assert (forall c' v, (c', v) ∈ absS (removedS n (Z.of_nat j))
                         <-> c' <> c /\ (c', v) ∈ absS n) as Hmem.
    { intros a v. rewrite Habs.
      destruct (Z.of_nat j <? s_size n - 1) eqn:Elt.
      - apply Z.ltb_lt in Elt.
        assert (j < length l)%nat as Hjl.
        { apply lookup_lt_Some in Hat. rewrite Hsplit, length_app in Hat.
          simpl in Hat. subst l. rewrite length_take in *.
          pose proof (absS_length cap n Ht) as Hlen. unfold len in Hlen. lia. }
        assert (l !! j = Some (c, vj)) as Hlj.
        { rewrite Hsplit in Hat. by rewrite lookup_app_l in Hat. }
        assert (absS n !! length l = Some e) as Hle.
        { rewrite Hsplit. by rewrite list_lookup_middle. }
        split.
        + intros (i & Hi)%list_elem_of_lookup.
          destruct (decide (i = j)) as [->|Hij].
          * rewrite list_lookup_insert_eq in Hi by done. injection Hi as He.
            split; [|rewrite Hsplit, He; apply elem_of_app; right; left].
            intros ->. rewrite He in Hle.
            assert (length l = j) by (by eapply Huniq). lia.
          * rewrite list_lookup_insert_ne in Hi by done.
            assert (absS n !! i = Some (a, v)) as Hi'.
            { rewrite Hsplit. rewrite lookup_app_l; [done|]. by apply lookup_lt_Some in Hi. }
            split; [|by eapply list_elem_of_lookup_2].
            intros ->. apply Hij. by eapply Huniq.
        + intros [Hne Hin]. rewrite Hsplit in Hin.
          apply elem_of_app in Hin as [Hin|Hin].
          * apply list_elem_of_lookup in Hin as [i Hi].
            assert (i <> j) by (intros ->; congruence).
            apply (list_elem_of_lookup_2 _ i). by rewrite list_lookup_insert_ne.
          * apply list_elem_of_singleton in Hin. subst e.
            apply (list_elem_of_lookup_2 _ j). by rewrite list_lookup_insert_eq.
      - apply Z.ltb_ge in Elt.
        assert (j = length l) as Hjl.
        { apply lookup_lt_Some in Hat. subst l. rewrite length_take.
          pose proof (absS_length cap n Ht) as Hlen. unfold len in Hlen. lia. }
        assert (e = (c, vj)) as ->.
        { rewrite Hsplit, Hjl, list_lookup_middle in Hat by done. congruence. }
        rewrite Hsplit in Hnd. rewrite fmap_app in Hnd.
        apply NoDup_app in Hnd as (_ & Hfresh & _).
        split.
        + intros Hin. split; [|rewrite Hsplit; apply elem_of_app; by left].
          intros ->. apply (Hfresh c); [|left].
          apply list_elem_of_fmap. by exists (c, v).
        + intros [Hne Hin]. rewrite Hsplit in Hin.
          apply elem_of_app in Hin as [Hin|Hin]; [done|].
          apply list_elem_of_singleton in Hin. congruence. }
    case_decide as Ec; f_equal.
    + subst c'. destruct (lookup_kv c (absS (removedS n (Z.of_nat j)))) as [v|] eqn:Ev; [|done].
      apply (lookup_kv_elem c v _ Hnd'), Hmem in Ev. by destruct Ev.
    + apply lookup_kv_ext; [done|done|]. intros v. rewrite Hmem.
      split; [by intros [_ ?]|by split].
  - injection E as <-. destruct Hidx as [Hnone _]. rewrite Hnone by done.
    split; [done|]. split; [done|]. intros c'.
    case_decide as Ec; [|done]. subst c'.
    rewrite (findChildS_wf cap n) by done. by rewrite Hnone.
Qed.
End SmallFind.

Section Node256Find.
Context {N : Type}.
Implicit Types n : node256 N.

Lemma addChild256_find n c x :
  wf256 n -> is_byte c -> findChild256 n c = Ret None ->
  exists n', addChild256 n c (Some x) = Ret n' /\ wf256 n' /\
    size256 n' = size256 n + 1 /\ prefix256 n' = prefix256 n /\
    forall c', is_byte c' ->
      findChild256 n' c'
      = if decide (c' = c) then Ret (Some (Some x)) else findChild256 n c'.
Proof.
  intros W Hc Hfree.
  destruct (addChild256_wf n c x W Hc Hfree) as (n' & E & W' & S & P).
  exists n'. repeat (split; [done|]). intros c' Hc'.
  destruct W as [Hl _]. destruct W' as [Hl' _].
  unfold addChild256 in E. rewrite upd_Ret in E by (unfold is_byte in *; lia).
  cbn [mbind outcome_bind] in E. injection E as <-.
  rewrite !findChild256_Ret by done. cbn [child256].
  unfold is_byte, len in *. case_decide as Ec.
  - subst c'. by rewrite list_lookup_insert_eq by lia.
  - rewrite list_lookup_insert_ne; [done|lia].
Qed.

Lemma deleteChild256_find n c :
  wf256 n -> is_byte c ->
  exists n', deleteChild256 n c = Ret n' /\ wf256 n' /\
    prefix256 n' = prefix256 n /\
    size256 n' = match findChild256 n c with
                 | Ret (Some _) => size256 n - 1
                 | _ => size256 n
                 end /\
    (findChild256 n c = Ret None -> n' = n) /\
    forall c', is_byte c' ->
      findChild256 n' c'
      = if decide (c' = c) then Ret None else findChild256 n c'.
Proof.
  intros W Hc.
  destruct (deleteChild256_wf n c W Hc) as (n' & E & W' & P).
  exists n'. split; [done|]. split; [done|]. split; [done|].
  pose proof W as [Hl Hs]. pose proof W' as [Hl' _].
  unfold deleteChild256 in E.
  rewrite (idx_default _ _ None) in E by (unfold is_byte in *; lia).
  cbn [mbind outcome_bind] in E.
  rewrite (findChild256_Ret n c) by done.
  destruct (child256 n !! Z.to_nat c) as [[x|]|] eqn:Ex; cbn [default] in E.
  - rewrite upd_Ret in E by (unfold is_byte in *; lia).
    cbn [mbind outcome_bind] in E. injection E as <-.
    pose proof (table256_bound (child256 n) 0) as Hb.
    pose proof (table256_delete (child256 n) 0 _ x Ex) as Hd.
    cbn [size256].
    split; [apply u16_small; unfold abs256, len in *; lia|].
    split; [done|]. intros c' Hc'.
    rewrite !findChild256_Ret by done. cbn [child256].
    unfold is_byte, len in *. case_decide as Ec.
    + subst c'. by rewrite list_lookup_insert_eq by lia.
    + rewrite list_lookup_insert_ne; [done|lia].
  - injection E as <-.
    split; [done|]. split; [done|]. intros c' Hc'.
    case_decide as Ec; [|done]. subst c'.
    rewrite findChild256_Ret by done. by rewrite Ex.
  - injection E as <-.
    split; [done|]. split; [done|]. intros c' Hc'.
    case_decide as Ec; [|done]. subst c'.
    rewrite findChild256_Ret by done. by rewrite Ex.
Qed.
End Node256Find.

Section Node48Find.
Context {N : Type}.
Implicit Types n : node48 N.

Lemma addChild48_find n c x :
  wf48 n -> size48 n < 48 -> is_byte c -> findChild48 n c = Ret None ->
  exists n', addChild48 n c (Some x) = Ret n' /\ wf48 n' /\
    size48 n' = size48 n + 1 /\ prefix48 n' = prefix48 n /\
    forall c', is_byte c' ->
      findChild48 n' c'
      = if decide (c' = c) then Ret (Some (Some x)) else findChild48 n c'.
Proof.
  intros W Hlt Hc Hfree. pose proof W as [I _].
  rewrite findChild48_inv in Hfree by done.
  assert (key_at n c = 0) as Hk.
  { destruct (key_at n c =? 0) eqn:E; [by apply Z.eqb_eq|done]. }
  exists (added48 n c (Some x)). split; [by apply addChild48_Ret|].
  split; [by apply addChild48_onto|]. split; [done|]. split; [done|].
  intros c' Hc'. by apply findChild48_added.
Qed.

Lemma deleteChild48_find n c :
  wf48 n -> is_byte c ->
  exists n', deleteChild48 n c = Ret n' /\ wf48 n' /\
    prefix48 n' = prefix48 n /\
    size48 n' = match findChild48 n c with
                | Ret (Some _) => size48 n - 1
                | _ => size48 n
                end /\
    (findChild48 n c = Ret None -> n' = n) /\
    forall c', is_byte c' ->
      findChild48 n' c'
      = if decide (c' = c) then Ret None else findChild48 n c'.
Proof.
  intros W Hc. pose proof W as [I _].
  rewrite (findChild48_inv n c) by done.
  destruct (decide (key_at n c = 0)) as [Hk|Hk].
  - exists n. split; [by apply deleteChild48_absent|]. split; [done|].
    split; [done|]. rewrite Hk. cbn. split; [done|]. split; [done|].
    intros c' Hc'. case_decide as E; [|done]. subst.
    rewrite findChild48_inv by done. by rewrite Hk.
  - exists (deleted48 n c). split; [by apply deleteChild48_Ret|].
    split; [by apply deleteChild48_onto|]. split; [done|].
    replace (key_at n c =? 0) with false by (symmetry; by apply Z.eqb_neq).
    split; [done|]. split; [done|].
    intros c' Hc'. by apply findChild48_deleted.
Qed.
End Node48Find.

Section InterfaceRoundTrips.
Context {T : Type}.
Implicit Types n : node T.

(** X9.  After [addChild(c, x)] on a well-formed internal node that is
    not full and has no child under [c], [findChild(c)] finds [x], every
    other byte finds what it found before, and the node is well formed
    with the same kind and path and one child more. *)
Theorem addChild_then_findChild n c (x : node T) :
  wf_node n -> isLeaf n = false -> isFull n = false -> is_byte c ->
  findChild n c = Ret None ->
  exists n', addChild n c (Some x) = Ret n' /\ wf_node n' /\
    kind n' = kind n /\ path n' = path n /\
    numChildren n' = numChildren n + 1 /\
    forall c', is_byte c' ->
      findChild n' c'
      = if decide (c' = c) then Ret (Some (Some x)) else findChild n c'.
Proof.
  destruct n as [suffix v|m|m|m|m|m];
    cbn [wf_node isLeaf isFull findChild addChild kind path numChildren];
    intros W Hleaf Hfull Hc Hfree; [done|..].
  - apply Z.leb_gt in Hfull.
    destruct (addChildS_find 4 m c x W Hfull ltac:(lia) Hc Hfree)
      as (m' & -> & W' & S & P & F).
    exists (Node4 m'). repeat (split; [done|]). intros c' _. apply F.
  - apply Z.leb_gt in Hfull.
    destruct (addChildS_find 10 m c x W Hfull ltac:(lia) Hc Hfree)
      as (m' & -> & W' & S & P & F).
    exists (Node10 m'). repeat (split; [done|]). intros c' _. apply F.
  - apply Z.leb_gt in Hfull.
    destruct (addChildS_find 16 m c x W Hfull ltac:(lia) Hc Hfree)
      as (m' & -> & W' & S & P & F).
    exists (Node16 m'). repeat (split; [done|]). intros c' _. apply F.
  - apply Z.leb_gt in Hfull.
    destruct (addChild48_find m c x W Hfull Hc Hfree) as (m' & -> & W' & S & P & F).
    by exists (Node48 m').
  - destruct (addChild256_find m c x W Hc Hfree) as (m' & -> & W' & S & P & F).
    by exists (Node256 m').
Qed.

(** X10.  [deleteChild(c)] on a well-formed internal node never panics:
    afterwards [findChild(c)] is [nil] and every other byte finds what it
    found before, the swap-remove of the small variants and of [node48]
    included; the child count drops by one exactly when [c] had a child,
    and a byte without a child leaves the node as it was. *)
Theorem deleteChild_then_findChild n c :
  wf_node n -> isLeaf n = false -> is_byte c ->
  exists n', deleteChild n c = Ret n' /\ wf_node n' /\
    kind n' = kind n /\ path n' = path n /\
    numChildren n' = (if found n c is Some _ then numChildren n - 1
                      else numChildren n) /\
    (found n c = None -> n' = n) /\
    forall c', is_byte c' ->
      findChild n' c' = if decide (c' = c) then Ret None else findChild n c'.
Proof.
  destruct n as [suffix v|m|m|m|m|m];
    cbn [wf_node isLeaf deleteChild kind path numChildren]; unfold found;
    cbn [findChild]; intros W Hleaf Hc; [done|..].
  - destruct (deleteChildS_find 4 m c W ltac:(lia)) as (m' & -> & W' & P & S & U & F).
    rewrite (findChildS_wf 4 m) by apply W.
    exists (Node4 m'). repeat (split; [done|]). split.
    { by destruct (lookup_kv c (absS m)). }
    split; [|intros c' _; apply F].
    intros Hn. f_equal. apply U. by destruct (lookup_kv c (absS m)).
  - destruct (deleteChildS_find 10 m c W ltac:(lia)) as (m' & -> & W' & P & S & U & F).
    rewrite (findChildS_wf 10 m) by apply W.
    exists (Node10 m'). repeat (split; [done|]). split.
    { by destruct (lookup_kv c (absS m)). }
    split; [|intros c' _; apply F].
    intros Hn. f_equal. apply U. by destruct (lookup_kv c (absS m)).
  - destruct (deleteChildS_find 16 m c W ltac:(lia)) as (m' & -> & W' & P & S & U & F).
    rewrite (findChildS_wf 16 m) by apply W.
    exists (Node16 m'). repeat (split; [done|]). split.
    { by destruct (lookup_kv c (absS m)). }
    split; [|intros c' _; apply F].
    intros Hn. f_equal. apply U. by destruct (lookup_kv c (absS m)).
  - destruct (deleteChild48_find m c W Hc) as (m' & -> & W' & P & S & U & F).
    exists (Node48 m'). repeat (split; [done|]).
    rewrite (findChild48_inv m c) in S, U |- * by (apply W || done). split.
    { cbn [numChildren]. rewrite S. by destruct (key_at m c =? 0). }
    split; [|done].
    intros Hn. f_equal. apply U. by destruct (key_at m c =? 0).
  - destruct (deleteChild256_find m c W Hc) as (m' & -> & W' & P & S & U & F).
    exists (Node256 m'). repeat (split; [done|]).
    rewrite (findChild256_Ret m c) in S, U |- * by (apply W || done). split.
    { cbn [numChildren]. rewrite S.
      by destruct (child256 m !! Z.to_nat c) as [[?|]|]. }
    split; [|done].
    intros Hn. f_equal. apply U.
    by destruct (child256 m !! Z.to_nat c) as [[?|]|].
Qed.
End InterfaceRoundTrips.

Lemma lookup_kv_Some_elem {V} c v (kvs : list (Z * V)) :
  lookup_kv c kvs = Some v -> c ∈ kvs.*1.
Proof.
  intros H. destruct (decide (c ∈ kvs.*1)) as [|Hn]; [done|].
  apply lookup_kv_absent in Hn. congruence.
Qed.

Section Compositions.
Context {N : Type}.

Lemma add_deleteS cap (m : snode N) c x :
  wfS cap m -> s_size m < cap -> cap < 65536 -> is_byte c ->
  findChildS m c = Ret None ->
  exists m1 m2, addChildS cap m c (Some x) = Ret m1 /\
    deleteChildS m1 c = Ret m2 /\ wfS cap m2 /\
    s_prefix m2 = s_prefix m /\ s_size m2 = s_size m /\
    forall c', findChildS m2 c' = findChildS m c'.
Proof.
  intros W Hlt Hcap Hc Hfree.
  destruct (addChildS_find cap m c x W Hlt Hcap Hc Hfree)
    as (m1 & E1 & W1 & S1 & P1 & F1).
  destruct (deleteChildS_find cap m1 c W1 Hcap) as (m2 & E2 & W2 & P2 & S2 & _ & F2).
  exists m1, m2. repeat (split; [done|]).
  split; [congruence|].
  pose proof (F1 c) as Hc1. rewrite decide_True in Hc1 by done.
  rewrite (findChildS_wf cap m1) in Hc1 by apply W1. injection Hc1 as Hc1.
  rewrite Hc1 in S2. split; [lia|].
  intros c'. rewrite F2, F1. case_decide; [by subst|done].
Qed.

Lemma table256_replace (child : list (option N)) c0 (p : nat) x y :
  child !! p = Some (Some y) ->
  length (table256 (<[p := Some x]> child) c0) = length (table256 child c0).
Proof.
  revert c0 p. induction child as [|o child IH]; intros c0 p Hp; [done|].
  destruct p as [|p]; simpl in *.
  - by injection Hp as ->.
  - destruct o; simpl; by rewrite (IH _ _ Hp).
Qed.
End Compositions.

Section InterfaceCompositions.
Context {T : Type}.
Implicit Types n : node T.

(** X11.  [addChild(c, x)] followed by [deleteChild(c)] gives back a
    node with the same kind, path, child count and child under every
    byte. *)
Theorem addChild_then_deleteChild n c (x : node T) :
  wf_node n -> isLeaf n = false -> isFull n = false -> is_byte c ->
  findChild n c = Ret None ->
  exists n1 n2, addChild n c (Some x) = Ret n1 /\ deleteChild n1 c = Ret n2 /\
    wf_node n2 /\ kind n2 = kind n /\ path n2 = path n /\
    numChildren n2 = numChildren n /\
    forall c', is_byte c' -> findChild n2 c' = findChild n c'.
Proof.
  destruct n as [suffix v|m|m|m|m|m];
    cbn [wf_node isLeaf isFull findChild addChild];
    intros W Hleaf Hfull Hc Hfree; [done|..].
  - apply Z.leb_gt in Hfull.
    destruct (add_deleteS 4 m c x W Hfull ltac:(lia) Hc Hfree)
      as (m1 & m2 & E1 & E2 & W2 & P & S & F).
    exists (Node4 m1), (Node4 m2). rewrite E1. cbn [deleteChild]. rewrite E2.
    repeat (split; [done|]). intros c' _. apply F.
  - apply Z.leb_gt in Hfull.
    destruct (add_deleteS 10 m c x W Hfull ltac:(lia) Hc Hfree)
      as (m1 & m2 & E1 & E2 & W2 & P & S & F).
    exists (Node10 m1), (Node10 m2). rewrite E1. cbn [deleteChild]. rewrite E2.
    repeat (split; [done|]). intros c' _. apply F.
  - apply Z.leb_gt in Hfull.
    destruct (add_deleteS 16 m c x W Hfull ltac:(lia) Hc Hfree)
      as (m1 & m2 & E1 & E2 & W2 & P & S & F).
    exists (Node16 m1), (Node16 m2). rewrite E1. cbn [deleteChild]. rewrite E2.
    repeat (split; [done|]). intros c' _. apply F.
  - apply Z.leb_gt in Hfull.
    destruct (addChild48_find m c x W Hfull Hc Hfree) as (m1 & E1 & W1 & S1 & P1 & F1).
    destruct (deleteChild48_find m1 c W1 Hc) as (m2 & E2 & W2 & P2 & S2 & _ & F2).
    exists (Node48 m1), (Node48 m2). rewrite E1. cbn [deleteChild]. rewrite E2.
    split; [done|]. split; [done|]. split; [done|]. split; [done|].
    split; [cbn [path]; congruence|].
    rewrite (F1 c Hc), decide_True in S2 by done.
    split; [cbn [numChildren]; lia|].
    intros c' Hc'. cbn [findChild]. rewrite F2, F1 by done.
    case_decide; [by subst|done].
  - destruct (addChild256_find m c x W Hc Hfree) as (m1 & E1 & W1 & S1 & P1 & F1).
    destruct (deleteChild256_find m1 c W1 Hc) as (m2 & E2 & W2 & P2 & S2 & _ & F2).
    exists (Node256 m1), (Node256 m2). rewrite E1. cbn [deleteChild]. rewrite E2.
    split; [done|]. split; [done|]. split; [done|]. split; [done|].
    split; [cbn [path]; congruence|].
    rewrite (F1 c Hc), decide_True in S2 by done.
    split; [cbn [numChildren]; lia|].
    intros c' Hc'. cbn [findChild]. rewrite F2, F1 by done.
    case_decide; [by subst|done].
Qed.

(** X12.  The thresholds fit the capacities: [grow()] of a node that
    [insert] grows, followed at once by [shrink()], returns a node of the
    original kind with the same child under every byte and the same count,
    but with the empty prefix. *)
Theorem grow_then_shrink n :
  growable n ->
  exists g r, grow n = Ret g /\ shrink g = Ret (Some r) /\
    kind r = kind n /\ path r = [] /\ numChildren r = numChildren n /\
    wf_node r /\
    forall c, is_byte c -> findChild r c = findChild n c.
Proof.
  destruct n as [suffix v|m|m|m|m|m];
    cbn [growable wf_node isFull grow]; intros [W Hfull]; [done|..|done].
  - pose proof (isFullS_full 4 m (wfS_typed _ _ W) Hfull) as Hs.
    destruct (growS_wf 4 10 m W Hs ltac:(lia) ltac:(lia)) as (g & -> & Wg & Sg & Pg & Fg).
    pose proof (shrinkS_wf 10 4 g Wg ltac:(lia)) as H.
    replace (4 <? s_size g) with false in H by (symmetry; apply Z.ltb_ge; lia).
    destruct H as (r & Er & Wr & Sr & Pr & Fr).
    exists (Node10 g), (Node4 r). cbn [shrink]. rewrite Er.
    repeat (split; [done|]). split; [cbn [numChildren]; lia|].
    split; [done|]. intros c _. cbn [findChild]. by rewrite Fr, Fg.
  - pose proof (isFullS_full 10 m (wfS_typed _ _ W) Hfull) as Hs.
    destruct (growS_wf 10 16 m W Hs ltac:(lia) ltac:(lia)) as (g & -> & Wg & Sg & Pg & Fg).
    pose proof (shrinkS_wf 16 10 g Wg ltac:(lia)) as H.
    replace (10 <? s_size g) with false in H by (symmetry; apply Z.ltb_ge; lia).
    destruct H as (r & Er & Wr & Sr & Pr & Fr).
    exists (Node16 g), (Node10 r). cbn [shrink]. rewrite Er.
    repeat (split; [done|]). split; [cbn [numChildren]; lia|].
    split; [done|]. intros c _. cbn [findChild]. by rewrite Fr, Fg.
  - pose proof (isFullS_full 16 m (wfS_typed _ _ W) Hfull) as Hs.
    destruct (grow16_wf m W Hs) as (g & -> & Wg & Sg & Pg & Fg).
    pose proof (shrink48_wf g Wg) as H.
    replace (16 <? size48 g) with false in H by (symmetry; apply Z.ltb_ge; lia).
    destruct H as (r & Er & Wr & Sr & Pr & Fr).
    exists (Node48 g), (Node16 r). cbn [shrink]. rewrite Er.
    repeat (split; [done|]). split; [cbn [numChildren]; lia|].
    split; [done|]. intros c Hc. cbn [findChild]. by rewrite Fr, Fg.
  - destruct (grow48_wf m W) as (g & -> & Wg & Sg & Pg & Fg).
    pose proof (shrink256_wf g Wg) as H.
    destruct W as [I _]. pose proof (inv_size m I) as Hsz.
    replace (48 <? size256 g) with false in H by (symmetry; apply Z.ltb_ge; lia).
    destruct H as (r & Er & Wr & Sr & Pr & Fr).
    exists (Node256 g), (Node48 r). cbn [shrink]. rewrite Er.
    repeat (split; [done|]). split; [cbn [numChildren]; lia|].
    split; [done|]. intros c Hc. cbn [findChild]. by rewrite Fr, Fg.
Qed.

(** X13.  On a well-formed internal node [addChild] panics exactly when
    [isFull()] holds; in particular it never panics on a [node256]. *)
Theorem addChild_panics_iff_full n c (x : option (node T)) :
  wf_node n -> isLeaf n = false -> is_byte c ->
  addChild n c x = Panicked <-> isFull n = true.
Proof.
  assert (forall cap (m : snode (node T)) (wrap : snode (node T) -> node T),
            wfS cap m -> cap < 65536 ->
            wrap <$> addChildS cap m c x = Panicked <-> isFullS cap m = true) as HS.
  { intros cap m wrap W Hcap. unfold isFullS.
    destruct (cap <=? s_size m) eqn:E.
    - unfold addChildS. by rewrite E.
    - apply Z.leb_gt in E.
      destruct (addChildS_spec cap m c x (wfS_typed _ _ W) E Hcap) as (m' & -> & _).
      done. }
  destruct n as [suffix v|m|m|m|m|m];
    cbn [wf_node isLeaf isFull addChild]; intros W Hleaf Hc; [done|..].
  - apply HS; [done|lia].
  - apply HS; [done|lia].
  - apply HS; [done|lia].
  - unfold isFull48. destruct (48 <=? size48 m) eqn:E.
    + unfold addChild48. by rewrite E.
    + apply Z.leb_gt in E. destruct W as [I _]. by rewrite addChild48_Ret.
  - unfold isFull256, addChild256. destruct W as [Hl _].
    rewrite upd_Ret by (unfold is_byte in *; lia). done.
Qed.

(** X14.  [addChild] does not look for an existing child: called with a
    byte that already has one, on a node that is not full, it still counts
    one child more, and the node it leaves is no longer well formed. *)
Theorem addChild_existing_byte n c (x : node T) :
  wf_node n -> isLeaf n = false -> isFull n = false -> is_byte c ->
  is_Some (found n c) ->
  exists n', addChild n c (Some x) = Ret n' /\
    numChildren n' = numChildren n + 1 /\ ~ wf_node n'.
Proof.
  assert (forall cap (m : snode (node T)),
            wfS cap m -> cap < 65536 -> isFullS cap m = false ->
            is_Some (match findChildS m c with Ret (Some ch) => Some ch | _ => None end) ->
            exists m', addChildS cap m c (Some x) = Ret m' /\
              s_size m' = s_size m + 1 /\ ~ wfS cap m') as HS.
  { intros cap m W Hcap Hfull%Z.leb_gt Hfound.
    rewrite (findChildS_wf cap m) in Hfound by apply W.
    destruct (addChildS_spec cap m c (Some x) (wfS_typed _ _ W) Hfull Hcap)
      as (m' & E & A & _ & S & _).
    exists m'. split; [done|]. split; [done|].
    intros (_ & _ & Hnd). rewrite A, fmap_app in Hnd.
    apply NoDup_app in Hnd as (_ & Hfresh & _).
    destruct (lookup_kv c (absS m)) as [v|] eqn:Ev; [|by destruct Hfound].
    apply (Hfresh c); [by eapply lookup_kv_Some_elem|left]. }
  destruct n as [suffix v|m|m|m|m|m];
    cbn [wf_node isLeaf isFull addChild numChildren]; unfold found;
    cbn [findChild]; intros W Hleaf Hfull Hc Hfound; [done|..].
  - destruct (HS 4 m W ltac:(lia) Hfull Hfound) as (m' & -> & S & Hn).
    by exists (Node4 m').
  - destruct (HS 10 m W ltac:(lia) Hfull Hfound) as (m' & -> & S & Hn).
    by exists (Node10 m').
  - destruct (HS 16 m W ltac:(lia) Hfull Hfound) as (m' & -> & S & Hn).
    by exists (Node16 m').
  - apply Z.leb_gt in Hfull. pose proof W as [I _].
    rewrite findChild48_inv in Hfound by done.
    assert (key_at m c <> 0) as Hk.
    { intros E. rewrite E in Hfound. by destruct Hfound. }
    rewrite addChild48_Ret by done.
    exists (Node48 (added48 m c (Some x))). split; [done|]. split; [done|].
    cbn [wf_node]. intros [_ Honto].
    pose proof (key_at_range m c I Hc) as Hr.
    destruct (Honto (key_at m c)) as (c' & Hc' & Hkey); [cbn [size48 added48]; lia|].
    rewrite key_at_added in Hkey by (done || apply Hc').
    case_decide as E; [lia|].
    by apply (inv_inj m I c c' Hc Hc' ltac:(congruence) Hk).
  - pose proof W as [Hl Hs].
    rewrite findChild256_Ret in Hfound by done.
    destruct (child256 m !! Z.to_nat c) as [[y|]|] eqn:Ey;
      [|by destruct Hfound..].
    unfold addChild256. rewrite upd_Ret by (unfold is_byte in *; lia).
    cbn [mbind outcome_bind].
    pose proof (table256_bound (child256 m) 0) as Hb.
    rewrite u16_small by (unfold abs256, len in *; lia).
    eexists. split; [done|]. split; [done|].
    cbn [wf_node]. intros [_ Hs']. cbn [size256] in Hs'.
    unfold abs256 in Hs'. cbn [child256] in Hs'. unfold len in Hs'.
    rewrite (table256_replace _ _ _ _ y) in Hs' by done.
    unfold abs256, len in Hs. lia.
Qed.
End InterfaceCompositions.

(** ** Nodes: [iter] and [children] *)

Lemma omap_cons_eq {A B} (f : A -> option B) x l :
  omap f (x :: l) = match f x with Some y => y :: omap f l | None => omap f l end.
Proof. done. Qed.

(** The children found under the bytes of [cs], in that order, are the
    values of the association list up to their order. *)
Lemma omap_lookup_perm {V} (kvs : list (Z * V)) : forall cs : list Z,
  NoDup cs -> NoDup kvs.*1 -> (forall k, k ∈ kvs.*1 -> k ∈ cs) ->
  omap (fun c => lookup_kv c kvs) cs ≡ₚ kvs.*2.
Proof.
  induction kvs as [|[k v] kvs IH]; intros cs Hcs Hnd Hin.
  - simpl. induction cs as [|c cs IHc]; [done|]. simpl. apply IHc.
    + by apply NoDup_cons in Hcs as [_ ?].
    + by intros ? ?%elem_of_nil.
  - rewrite fmap_cons in Hnd. apply NoDup_cons in Hnd as [Hk Hnd].
    assert (k ∈ cs) as Hkc by (apply Hin; rewrite fmap_cons; left).
    apply list_elem_of_split in Hkc as (cs1 & cs2 & ->).
    apply NoDup_app in Hcs as (Hcs1 & Hdisj & Hcs2).
    apply NoDup_cons in Hcs2 as [Hk2 Hcs2].
    assert (k ∉ cs1) as Hk1.
    { intros H. apply (Hdisj k H). left. }
    assert (forall l : list Z, k ∉ l ->
              omap (fun c => lookup_kv c ((k, v) :: kvs)) l
              = omap (fun c => lookup_kv c kvs) l) as Hsame.
    { intros l Hl. apply omap_ext_in. intros c Hc. simpl.
      destruct (k =? c) eqn:E; [|done]. apply Z.eqb_eq in E. by subst. }
    rewrite omap_app, omap_cons_eq. cbn [lookup_kv]. rewrite Z.eqb_refl.
    rewrite !Hsame by done.
    rewrite <- Permutation_middle. rewrite fmap_cons. simpl. f_equiv.
    rewrite <- (IH (cs1 ++ k :: cs2)).
    + rewrite omap_app, omap_cons_eq. by rewrite (lookup_kv_absent k kvs Hk).
    + apply NoDup_app. split; [done|]. split; [done|]. by apply NoDup_cons.
    + done.
    + intros c Hc. apply Hin. rewrite fmap_cons. by right.
Qed.

Lemma visit_record_all {N} (l seen : list (option N)) :
  visit (fun ch seen => (seen ++ [ch], true)) l seen = seen ++ l.
Proof.
  revert seen. induction l as [|x l IH]; intros seen; simpl.
  - by rewrite app_nil_r.
  - rewrite IH. by rewrite <- app_assoc.
Qed.

Section Positions48.
Context {N : Type}.
Implicit Types n : node48 N.

Lemma table48_values (key : list Z) c0 (child : list (option N)) :
  (table48 key c0 child).*2
  = (fun i => default None (child !! Z.to_nat (i - 1)))
      <$> filter (fun i => 0 < i) key.
Proof.
  revert c0. induction key as [|i key IH]; intros c0; [done|]. simpl.
  rewrite filter_cons, fmap_app. destruct (0 <? i) eqn:E.
  - apply Z.ltb_lt in E. rewrite decide_True by done. simpl. by rewrite IH.
  - apply Z.ltb_ge in E. rewrite decide_False by lia. simpl. by rewrite IH.
Qed.

Lemma positions48_perm n :
  wf48 n -> filter (fun i => 0 < i) (key48 n) ≡ₚ seqZ 1 (size48 n).
Proof.
  intros [I Honto].
  pose proof (inv_size n I) as Hs. pose proof (inv_key_len n I) as Hkl.
  apply NoDup_Permutation.
  - apply NoDup_filter_pos. intros p q x Hp Hq Hx.
    apply (key_unique n x); [done|lia|done|done].
  - apply NoDup_seqZ.
  - intros x. rewrite list_elem_of_filter, elem_of_seqZ. split.
    + intros [Hx [p Hp]%list_elem_of_lookup].
      pose proof (lookup_lt_Some _ _ _ Hp) as Hlt.
      pose proof (key_at_range n (Z.of_nat p) I) as Hr.
      unfold key_at in Hr. rewrite Nat2Z.id, Hp in Hr. simpl in Hr.
      unfold len, is_byte in *. lia.
    + intros Hx. destruct (Honto x) as (c & Hc & Hk); [lia|].
      split; [lia|]. unfold key_at in Hk.
      destruct (key48 n !! Z.to_nat c) as [y|] eqn:Ey; simpl in Hk; [|lia].
      subst. apply list_elem_of_lookup. eauto.
Qed.

Lemma abs48_values_perm n :
  wf48 n -> (abs48 n).*2 ≡ₚ take (Z.to_nat (size48 n)) (child48 n).
Proof.
  intros W. pose proof W as [I _].
  pose proof (inv_size n I) as Hs. pose proof (inv_child_len n I) as Hcl.
  unfold abs48. rewrite table48_values, (positions48_perm n W).
  apply reflexive_eq, list_eq. intros i.
  rewrite list_lookup_fmap.
  destruct (decide (i < Z.to_nat (size48 n))%nat) as [Hi|Hi].
  - rewrite lookup_seqZ_lt by lia. simpl. rewrite lookup_take_lt by lia.
    replace (Z.to_nat (1 + Z.of_nat i - 1)) with i by lia.
    destruct (lookup_lt_is_Some_2 (child48 n) i) as [o Ho];
      [unfold len in *; lia|].
    by rewrite Ho.
  - rewrite lookup_seqZ_ge by lia. simpl. symmetry.
    apply lookup_take_ge. lia.
Qed.
End Positions48.

Lemma omap_none {A B} (f : A -> option B) (l : list A) :
  (forall x, x ∈ l -> f x = None) -> omap f l = [].
Proof.
  induction l as [|x l IH]; intros H; [done|].
  rewrite omap_cons_eq, (H x) by left. apply IH. intros y Hy. apply H. by right.
Qed.

Section IterOnce.
Context {T : Type}.
Implicit Types n : node T.

Lemma small_iter_once cap (m : snode (node T)) (wrap : snode (node T) -> node T) :
  wfS cap m ->
  (forall c, findChild (wrap m) c = findChildS m c) ->
  let l := take (Z.to_nat (s_size m)) (s_child m) in
  l ≡ₚ byte_order (wrap m) /\ len l = s_size m /\ Forall is_Some l.
Proof.
  intros W Hfind l. pose proof W as (Ht & Hall & Hnd).
  pose proof Ht as (Hc & Hk & Hs).
  assert (l = (absS m).*2) as Hl.
  { unfold absS. rewrite snd_zip; [done|]. rewrite !length_take. unfold len in *. lia. }
  split; [|split].
  - unfold byte_order.
    rewrite (omap_ext_in _ (fun c => lookup_kv c (absS m))).
    2:{ intros c _. unfold found. rewrite Hfind, (findChildS_wf cap) by done.
        by destruct (lookup_kv c (absS m)). }
    rewrite Hl. symmetry. apply omap_lookup_perm; [apply NoDup_seqZ|done|].
    intros k (kv & -> & Hin)%list_elem_of_fmap.
    rewrite Forall_forall in Hall. destruct (Hall kv Hin) as [Hb _].
    apply elem_of_seqZ. unfold is_byte in Hb. lia.
  - subst l. unfold len in *. rewrite length_take. lia.
  - rewrite Hl. apply Forall_fmap. eapply Forall_impl; [exact Hall|].
    by intros kv [_ ?].
Qed.

(** X15.  [iter] visits every child exactly once: the children it
    yields are, up to their order, the children [findChild] finds for the
    bytes 0 to 255; there are [numChildren()] of them and none is [nil]. *)
Theorem iter_visits_each_child_once n :
  wf_node n ->
  exists l, iter n record_all [] = Ret l /\
    l ≡ₚ byte_order n /\ len l = numChildren n /\ Forall is_Some l.
Proof.
  destruct n as [suffix v|m|m|m|m|m]; cbn [wf_node iter numChildren]; intros W.
  - exists []. split; [done|]. split; [|done].
    unfold byte_order. by rewrite omap_none.
  - exists (take (Z.to_nat (s_size m)) (s_child m)). split.
    { rewrite (iterS_spec 4) by apply W. unfold record_all. by rewrite visit_record_all. }
    by apply (small_iter_once 4 m Node4).
  - exists (take (Z.to_nat (s_size m)) (s_child m)). split.
    { rewrite (iterS_spec 10) by apply W. unfold record_all. by rewrite visit_record_all. }
    by apply (small_iter_once 10 m Node10).
  - exists (take (Z.to_nat (s_size m)) (s_child m)). split.
    { rewrite (iterS_spec 16) by apply W. unfold record_all. by rewrite visit_record_all. }
    by apply (small_iter_once 16 m Node16).
  - pose proof W as [I _].
    pose proof (inv_size m I) as Hs. pose proof (inv_child_len m I) as Hcl.
    exists (take (Z.to_nat (size48 m)) (child48 m)). split.
    { rewrite iter48_spec by done. unfold record_all. by rewrite visit_record_all. }
    split; [|split].
    + unfold byte_order.
      rewrite (omap_ext_in _ (fun c => lookup_kv c (abs48 m))).
      2:{ intros c Hc%elem_of_seqZ. unfold found. cbn [findChild].
          rewrite findChild48_spec by (done || unfold is_byte; lia).
          by destruct (lookup_kv c (abs48 m)). }
      rewrite <- (abs48_values_perm m W). symmetry.
      destruct (abs48_wf m I) as [Hall Hnd].
      apply omap_lookup_perm; [apply NoDup_seqZ|done|].
      intros k (kv & -> & Hin)%list_elem_of_fmap.
      rewrite Forall_forall in Hall. destruct (Hall kv Hin) as [Hb _].
      apply elem_of_seqZ. unfold is_byte in Hb. lia.
    + unfold len in *. rewrite length_take. lia.
    + apply Forall_forall. intros o [i Hi]%list_elem_of_lookup.
      apply lookup_take_Some in Hi as [Hi Hlt].
      destruct (inv_dense m I (Z.of_nat i)) as [_ Hd]; [lia|].
      unfold child_at in Hd. rewrite Nat2Z.id, Hi in Hd. apply Hd. lia.
  - destruct W as [Hl Hs].
    exists (abs256 m).*2. split.
    { rewrite iter256_spec by done. unfold record_all. by rewrite visit_record_all. }
    split; [by rewrite byte_order_256|]. split.
    + unfold len in *. rewrite length_fmap. lia.
    + apply Forall_fmap, Forall_forall. intros kv Hin.
      by apply table256_keys in Hin as [_ ?].
Qed.
End IterOnce.

Lemma filter_is_Some_id {A} (l : list (option A)) :
  Forall is_Some l -> filter is_Some l = l.
Proof.
  induction 1 as [|o l Ho _ IH]; [done|].
  rewrite filter_cons, decide_True by done. by rewrite IH.
Qed.

Lemma table256_filter {N} (child : list (option N)) c0 :
  (table256 child c0).*2 = filter is_Some child.
Proof.
  revert c0. induction child as [|[x|] child IH]; intros c0; [done|..].
  - rewrite filter_cons, decide_True by done. simpl. by rewrite IH.
  - rewrite filter_cons, decide_False by (by intros [? ?]). simpl. by rewrite IH.
Qed.

Lemma sub_take {A} (l : list A) n : sub l 0 n = take (Z.to_nat n) l.
Proof. unfold sub. by rewrite Z.sub_0_r. Qed.

Section ChildrenIter.
Context {T St : Type}.
Implicit Types n : node T.

(** X16.  [iter(f)] visits the entries of [children()] that are not
    [nil], in the order of that slice; the slice has [numChildren()]
    entries, except for a [node256], where it has all 256 slots. *)
Theorem children_are_iterated n (f : option (node T) -> St -> St * bool) (s : St) :
  wf_node n ->
  exists cs, children n = Ret cs /\
    iter n f s = Ret (visit f (filter is_Some cs) s) /\
    len cs = match n with Node256 _ => 256 | _ => numChildren n end.
Proof.
  assert (forall cap (m : snode (node T)), wfS cap m ->
            childrenS m = Ret (take (Z.to_nat (s_size m)) (s_child m)) /\
            iterS m f s
            = Ret (visit f (filter is_Some (take (Z.to_nat (s_size m)) (s_child m))) s) /\
            len (take (Z.to_nat (s_size m)) (s_child m)) = s_size m) as HS.
  { intros cap m W. pose proof W as (Ht & Hall & _). pose proof Ht as (Hc & Hk & Hs).
    split; [|split].
    - unfold childrenS.
      replace ((0 <=? s_size m) && (s_size m <=? len (s_child m))) with true.
      + by rewrite sub_take.
      + symmetry. apply andb_true_iff. split; apply Z.leb_le; lia.
    - rewrite (iterS_spec cap) by done. rewrite filter_is_Some_id; [done|].
      assert (take (Z.to_nat (s_size m)) (s_child m) = (absS m).*2) as ->.
      { unfold absS. rewrite snd_zip; [done|]. rewrite !length_take. unfold len in *. lia. }
      apply Forall_fmap. eapply Forall_impl; [exact Hall|]. by intros kv [_ ?].
    - unfold len in *. rewrite length_take. lia. }
  destruct n as [suffix v|m|m|m|m|m];
    cbn [wf_node children iter numChildren]; intros W.
  - by exists [].
  - eexists. apply (HS 4 m W).
  - eexists. apply (HS 10 m W).
  - eexists. apply (HS 16 m W).
  - pose proof W as [I _].
    pose proof (inv_size m I) as Hs. pose proof (inv_child_len m I) as Hcl.
    exists (take (Z.to_nat (size48 m)) (child48 m)). split; [|split].
    + unfold children48.
      replace ((0 <=? size48 m) && (size48 m <=? len (child48 m))) with true.
      * by rewrite sub_take.
      * symmetry. apply andb_true_iff. split; apply Z.leb_le; lia.
    + rewrite iter48_spec by done. rewrite filter_is_Some_id; [done|].
      apply Forall_forall. intros o [i Hi]%list_elem_of_lookup.
      apply lookup_take_Some in Hi as [Hi Hlt].
      destruct (inv_dense m I (Z.of_nat i)) as [_ Hd]; [lia|].
      unfold child_at in Hd. rewrite Nat2Z.id, Hi in Hd. apply Hd. lia.
    + unfold len in *. rewrite length_take. lia.
  - destruct W as [Hl Hs]. exists (child256 m). split; [|split; [|done]].
    + unfold children256. rewrite Hl. simpl. by rewrite <- Hl, sub_all.
    + rewrite iter256_spec by done. unfold abs256. by rewrite table256_filter.
Qed.
End ChildrenIter.

(** ** Dump *)

Lemma string_length_app (s1 s2 : string) :
  String.length (s1 +:+ s2) = (String.length s1 + String.length s2)%nat.
Proof. induction s1 as [|a s1 IH]; simpl; [done|]. by rewrite IH. Qed.

Lemma write_indent_length n b :
  String.length (write_indent n b) = (String.length b + 2 * n)%nat.
Proof.
  revert b. induction n as [|n IH]; intros b; simpl; [lia|].
  rewrite IH, string_length_app. simpl. lia.
Qed.

Lemma dumpPre_length depth :
  0 <= depth ->
  Z.of_nat (String.length (dumpPre depth)) = if depth =? 0 then 3 else 2 * depth + 4.
Proof.
  intros Hd. unfold dumpPre. destruct (depth =? 0); [done|].
  rewrite string_length_app, write_indent_length. simpl. lia.
Qed.

(** X17.  [dumpPre] gives different indentations to different depths
    (its result is 3 bytes long at depth 0 and [2 * depth + 4] bytes long
    below). *)
Theorem dumpPre_injective (d1 d2 : Z) :
  0 <= d1 -> 0 <= d2 -> dumpPre d1 = dumpPre d2 -> d1 = d2.
Proof.
  intros H1 H2 E. apply (f_equal (fun s => Z.of_nat (String.length s))) in E.
  rewrite !dumpPre_length in E by done.
  destruct (Z.eqb_spec d1 0), (Z.eqb_spec d2 0); lia.
Qed.

Lemma dumpPre_injective_witness : (2 : Z) = 2.
Proof. apply (dumpPre_injective 2 2); [lia|lia|reflexivity]. Defined.

(** ** Instances *)

Lemma recognized_sound_witness : wildcard_token (b "a.*") 2.
Proof.
  apply (recognized_sound (b "a.*") 2).
  - unfold recognized. vm_compute. apply elem_of_cons. right. left.
  - vm_compute. by left.
Defined.

Lemma recognized_complete_witness : recognized (b "a.*.b") 2.
Proof.
  apply (recognized_complete (b "a.*.b") 2).
  - vm_compute. intuition congruence.
  - vm_compute. discriminate.
Defined.

Lemma addChild_then_findChild_witness :
  exists n', addChild node4_A 66 (Some (leaf_of 2)) = Ret n' /\ wf_node n' /\
    kind n' = kind node4_A /\ path n' = path node4_A /\
    numChildren n' = numChildren node4_A + 1 /\
    forall c', is_byte c' ->
      findChild n' c'
      = if decide (c' = 66) then Ret (Some (Some (leaf_of 2)))
        else findChild node4_A c'.
Proof.
  apply (addChild_then_findChild node4_A 66 (leaf_of 2) node4_A_wf);
    [reflexivity|reflexivity|unfold is_byte; lia|reflexivity].
Defined.

Lemma deleteChild_then_findChild_witness :
  exists n', deleteChild node4_full 66 = Ret n' /\ wf_node n' /\
    kind n' = kind node4_full /\ path n' = path node4_full /\
    numChildren n' = (if found node4_full 66 is Some _
                      then numChildren node4_full - 1
                      else numChildren node4_full) /\
    (found node4_full 66 = None -> n' = node4_full) /\
    forall c', is_byte c' ->
      findChild n' c'
      = if decide (c' = 66) then Ret None else findChild node4_full c'.
Proof.
  apply (deleteChild_then_findChild node4_full 66 node4_full_wf);
    [reflexivity|unfold is_byte; lia].
Defined.

Lemma addChild_then_deleteChild_witness :
  exists n1 n2, addChild node4_A 66 (Some (leaf_of 2)) = Ret n1 /\
    deleteChild n1 66 = Ret n2 /\
    wf_node n2 /\ kind n2 = kind node4_A /\ path n2 = path node4_A /\
    numChildren n2 = numChildren node4_A /\
    forall c', is_byte c' -> findChild n2 c' = findChild node4_A c'.
Proof.
  apply (addChild_then_deleteChild node4_A 66 (leaf_of 2) node4_A_wf);
    [reflexivity|reflexivity|unfold is_byte; lia|reflexivity].
Defined.

Lemma grow_then_shrink_witness :
  exists g r, grow node4_full = Ret g /\ shrink g = Ret (Some r) /\
    kind r = kind node4_full /\ path r = [] /\
    numChildren r = numChildren node4_full /\ wf_node r /\
    forall c, is_byte c -> findChild r c = findChild node4_full c.
Proof. exact (grow_then_shrink node4_full (conj node4_full_wf eq_refl)). Defined.

Lemma addChild_panics_iff_full_witness :
  addChild node4_full 69 (Some (leaf_of 5)) = Panicked <-> isFull node4_full = true.
Proof.
  apply (addChild_panics_iff_full node4_full 69 (Some (leaf_of 5)) node4_full_wf);
    [reflexivity|unfold is_byte; lia].
Defined.

Lemma addChild_existing_byte_witness :
  exists n', addChild node4_A 65 (Some (leaf_of 2)) = Ret n' /\
    numChildren n' = numChildren node4_A + 1 /\ ~ wf_node n'.
Proof.
  apply (addChild_existing_byte node4_A 65 (leaf_of 2) node4_A_wf);
    [reflexivity|reflexivity|unfold is_byte; lia|by eexists].
Defined.

Lemma iter_visits_each_child_once_witness :
  exists l, iter node4_full record_all [] = Ret l /\
    l ≡ₚ byte_order node4_full /\ len l = numChildren node4_full /\
    Forall is_Some l.
Proof. exact (iter_visits_each_child_once node4_full node4_full_wf). Defined.

Lemma children_are_iterated_witness :
  exists cs, children node4_full = Ret cs /\
    iter node4_full record_all [] = Ret (visit record_all (filter is_Some cs) []) /\
    len cs = numChildren node4_full.
Proof. exact (children_are_iterated node4_full record_all [] node4_full_wf). Defined.

Lemma matchParts_two_fragments_witness :
  agree (matchParts [b "o."; [pwc]; b "baz"] (b "o.x.b"))
        (matchParts (genParts (b "foo.*.baz") []) (b "fo" ++ b "o.x.b")) /\
  Forall clean [b "o."; [pwc]; b "baz"].
Proof.
  apply (matchParts_two_fragments (genParts (b "foo.*.baz") []) (b "fo") (b "o.x.b"));
    [|reflexivity|discriminate].
  replace (genParts (b "foo.*.baz") []) with [b "foo."; [pwc]; b "baz"]
    by reflexivity.
  repeat apply Forall_cons_2; [| by left | |apply Forall_nil_2];
    right; right; split; apply (bool_decide_unpack _); reflexivity.
Defined.
